(** * Directory Downloader: the download-and-archive pipeline

    A shallow embedding of [index.ts]: file selection, size estimation,
    the two-pass (fetch, then retry once) download of a directory into a zip
    archive, the sequential job queue, the archive file name and the recent
    URL history, followed by the properties proved about them.

    Conventions of the embedding.
    - A JavaScript string is the sequence of its UTF-16 code units; the
      embedding covers the strings whose code units are below 256 and holds
      each code unit in an [ascii].  White space, case mapping and the
      case-insensitive regular expression are the ECMAScript ones restricted
      to that range.
    - A JavaScript number that holds a count, a size or a parsed integer is a
      [Z]; [NaN] is [None].
    - Promises are run to completion: a collaborator that is awaited
      ([listFiles], [downloadFile], [getRepositoryInfo], [pMap]) is an oracle
      that gives the value it settles with, and the order in which the
      mappers of one [pMap] call settle is an oracle too. *)

From Stdlib Require Import ZArith Ascii String NArith Lia Bool.
From stdpp Require Import base list gmap strings pretty.

Local Open Scope Z_scope.

(* ===================================================================== *)
(** * Part I: the program                                                *)
(* ===================================================================== *)

(** ** JavaScript string primitives *)

Module Js.

(** Code unit of a character. *)
Definition code (c : ascii) : N := N_of_ascii c.

(** [WhiteSpace] and [LineTerminator] code points below 256: TAB, LF, VT, FF,
    CR, SP and NBSP.  This is the class [\s] of a regular expression and the
    class that [trim] and [parseInt] strip. *)
Definition isWhiteSpace (c : ascii) : bool :=
  let n := code c in
  ((9 <=? n) && (n <=? 13) || (n =? 32) || (n =? 160))%N.

(** [String.prototype.toLowerCase] on one code unit: A-Z, and the Latin-1
    capitals U+00C0..U+00DE except the multiplication sign U+00D7. *)
Definition toLowerChar (c : ascii) : ascii :=
  let n := code c in
  if ((65 <=? n) && (n <=? 90)
      || (192 <=? n) && (n <=? 222) && negb (n =? 215))%N
  then ascii_of_N (n + 32) else c.

Fixpoint toLowerCase (s : string) : string :=
  match s with
  | EmptyString => EmptyString
  | String c s' => String (toLowerChar c) (toLowerCase s')
  end.

(** Canonicalisation of the [i] flag for a pattern made of ASCII letters: a
    code unit matches the letter when it is that letter in either case. *)
Definition foldAscii (c : ascii) : ascii :=
  let n := code c in
  if ((65 <=? n) && (n <=? 90))%N then ascii_of_N (n + 32) else c.

Definition isEmpty (s : string) : bool :=
  match s with EmptyString => true | String _ _ => false end.

(** [s.startsWith(p)] *)
Fixpoint startsWith (s p : string) {struct p} : bool :=
  match p, s with
  | EmptyString, _ => true
  | String _ _, EmptyString => false
  | String b p', String a s' => Ascii.eqb a b && startsWith s' p'
  end.

(** [s.endsWith(p)]: [p] is [s] itself or ends the tail of [s]. *)
Fixpoint endsWith (s p : string) : bool :=
  String.eqb s p
  || match s with
     | EmptyString => false
     | String _ s' => endsWith s' p
     end.

(** [s.trimStart()] and [s.trimEnd()], hence [s.trim()]. *)
Fixpoint trimStart (s : string) : string :=
  match s with
  | EmptyString => EmptyString
  | String c s' => if isWhiteSpace c then trimStart s' else s
  end.

Fixpoint trimEnd (s : string) : string :=
  match s with
  | EmptyString => EmptyString
  | String c s' =>
      let t := trimEnd s' in
      if isWhiteSpace c && isEmpty t then EmptyString else String c t
  end.

Definition trim (s : string) : string := trimEnd (trimStart s).

(** [s.replaceAll(/[class]+/g, r)]: every maximal run of characters of the
    class becomes the single character [r].  [inRun] tells that the
    character before the current one belonged to a run already replaced. *)
Fixpoint replaceRuns (class : ascii -> bool) (r : ascii) (inRun : bool)
    (s : string) : string :=
  match s with
  | EmptyString => EmptyString
  | String c s' =>
      if class c
      then if inRun then replaceRuns class r true s'
           else String r (replaceRuns class r true s')
      else String c (replaceRuns class r false s')
  end.

(** [s.split(',')]: the pieces between the separators, at least one piece. *)
Fixpoint splitOn (sep : ascii) (s : string) : list string :=
  match s with
  | EmptyString => [EmptyString]
  | String c s' =>
      if Ascii.eqb c sep then EmptyString :: splitOn sep s'
      else match splitOn sep s' with
           | piece :: pieces => String c piece :: pieces
           | [] => [String c EmptyString]
           end
  end.

(** The rest of [s] after the prefix [p], when [s] starts with [p]. *)
Fixpoint stripPrefix (p s : string) {struct p} : option string :=
  match p, s with
  | EmptyString, _ => Some s
  | String _ _, EmptyString => None
  | String b p', String a s' =>
      if Ascii.eqb a b then stripPrefix p' s' else None
  end.

(** [s.replace(p, '')] with a string pattern: the first occurrence of [p] is
    removed. *)
Fixpoint removeFirst (p s : string) : string :=
  match stripPrefix p s with
  | Some rest => rest
  | None =>
      match s with
      | EmptyString => EmptyString
      | String c s' => String c (removeFirst p s')
      end
  end.

(** A literal word of lower-case ASCII letters matched at the start of [s]
    under the [i] flag. *)
Fixpoint startsWithFold (s w : string) {struct w} : bool :=
  match w, s with
  | EmptyString, _ => true
  | String _ _, EmptyString => false
  | String b w', String a s' =>
      Ascii.eqb (foldAscii a) b && startsWithFold s' w'
  end.

(** ... and matched anywhere in [s]. *)
Fixpoint includesFold (s w : string) : bool :=
  startsWithFold s w
  || match s with
     | EmptyString => false
     | String _ s' => includesFold s' w
     end.

(** [Number.parseInt(s, 10)]: leading white space is skipped, one sign is
    read, then the longest run of decimal digits; no digit gives [NaN]. *)
Definition digitOf (c : ascii) : option Z :=
  let n := code c in
  if ((48 <=? n) && (n <=? 57))%N then Some (Z.of_N n - 48) else None.

Fixpoint readDigits (acc : option Z) (s : string) : option Z :=
  match s with
  | EmptyString => acc
  | String c s' =>
      match digitOf c with
      | Some d => readDigits (Some (10 * default 0 acc + d)) s'
      | None => acc
      end
  end.

Definition parseInt (s : string) : option Z :=
  match trimStart s with
  | String "-"%char s' => Z.opp <$> readDigits None s'
  | String "+"%char s' => readDigits None s'
  | s' => readDigits None s'
  end.

End Js.

(** ** Archive file name *)

(** The character class of the first regular expression of
    [sanitizeFilename]: less-than, greater-than, colon, double quote, slash,
    backslash, vertical bar, question mark and asterisk. *)
Definition isForbidden (c : ascii) : bool :=
  let n := Js.code c in
  ((n =? 60) || (n =? 62) || (n =? 58) || (n =? 34) || (n =? 47)
   || (n =? 92) || (n =? 124) || (n =? 63) || (n =? 42))%N.

Definition sanitizeFilename (filename : string) : string :=
  Js.trim
    (Js.replaceRuns Js.isWhiteSpace " "%char false
       (Js.replaceRuns isForbidden "-"%char false filename)).

Definition ensureZipFilename (filename : string) : string :=
  let cleaned := sanitizeFilename filename in
  let safe :=
    if (0 <? String.length cleaned)%nat then cleaned
    else "downloaded-directory" in
  if Js.endsWith safe ".zip" then safe else safe +:+ ".zip".

(** [[user, repository, gitReference, directory || 'root'].filter(Boolean)]
    joined with dashes and sanitized. *)
Fixpoint join (sep : string) (parts : list string) : string :=
  match parts with
  | [] => EmptyString
  | [part] => part
  | part :: rest => part +:+ sep +:+ join sep rest
  end.

Definition buildDefaultFilename (user repository : string)
    (gitReference : option string) (directory : string) : string :=
  let parts :=
    List.filter (fun part => negb (Js.isEmpty part))
      [user; repository; default EmptyString gitReference;
       if Js.isEmpty directory then "root" else directory] in
  sanitizeFilename (join "-" parts).

(** ** Concurrency limit *)

(** [Number.isNaN(concurrency) ? 20 : Math.max(1, Math.min(40, concurrency))]
    with [concurrency = Number.parseInt(ui.concurrency.value, 10)]. *)
Definition safeConcurrency (value : string) : Z :=
  match Js.parseInt value with
  | None => 20
  | Some concurrency => Z.max 1 (Z.min 40 concurrency)
  end.

(** ** Local storage and the recent URL history *)

Unset Elimination Schemes.
Inductive JSONValue :=
| JNull
| JBool (b : bool)
| JNumber (n : Z)
| JString (s : string)
| JArray (items : list JSONValue)
| JObject (members : list (string * JSONValue)).
Set Elimination Schemes.

(** An item of [localStorage] is a text.  The program only ever asks of a
    text whether it is empty and what [JSON.parse] makes of it, so a text is
    held as what [JSON.parse] returns for it, or as the text itself when
    [JSON.parse] throws on it.  [setItem (key, JSON.stringify v)] stores
    [Serialized v]. *)
Inductive StoredText :=
| Unparseable (text : string)
| Serialized (v : JSONValue).

Definition recentStorageKey : string := "recent-directory-links".
Definition tokenStorageKey : string := "token".

(** [parsed.filter(item => typeof item === 'string')] *)
Definition stringItems (items : list JSONValue) : list string :=
  omap (fun item => match item with JString s => Some s | _ => None end)
    items.

Definition readRecentUrls (storage : gmap string StoredText) : list string :=
  match default (Serialized (JArray [])) (storage !! recentStorageKey) with
  | Unparseable _ => []
  | Serialized (JArray parsed) => take 7 (stringItems parsed)
  | Serialized _ => []
  end.

Definition writeRecentUrls (urls : list string)
    (storage : gmap string StoredText) : gmap string StoredText :=
  <[recentStorageKey := Serialized (JArray (JString <$> take 7 urls))]>
    storage.

Definition pushRecentUrl (url : string) (storage : gmap string StoredText)
    : gmap string StoredText :=
  let urls :=
    List.filter (fun item => negb (String.eqb item url))
      (readRecentUrls storage) in
  writeRecentUrls (url :: urls) storage.

(** ** File selection and size estimate *)

(** A listed file: the fields of [TreeResponseObject] and
    [ContentsReponseObject] that the program reads ([path], [size]) and the
    object name [sha] that tells two entries apart. *)
Record RepoFile := {
  path : string;
  size : option Z;
  sha : string;
}.

(** [parseFilter] on the text of the filter field. *)
Definition parseFilter (value : string) : list string :=
  (fun v => if Js.startsWith v "." then v else "." +:+ v)
    <$> List.filter (fun v => negb (Js.isEmpty v))
          ((fun v => Js.toLowerCase (Js.trim v)) <$> Js.splitOn "," value).

Definition filterFiles (files : list RepoFile) (extensions : list string)
    : list RepoFile :=
  match extensions with
  | [] => files
  | _ =>
      List.filter
        (fun file =>
           existsb
             (fun extension =>
                Js.endsWith (Js.toLowerCase (path file)) extension)
             extensions)
        files
  end.

Definition estimateBytes (files : list RepoFile) : Z :=
  fold_left
    (fun total file =>
       match size file with
       | Some n => total + n
       | None => total
       end)
    files 0.

(** [blockedWords.test(s)] for [/malware|virus|trojan/i]. *)
Definition blockedWords_test (s : string) : bool :=
  Js.includesFold s "malware" || Js.includesFold s "virus"
  || Js.includesFold s "trojan".

(** ** Downloading one directory *)

Definition Blob := string.

(** What one run of the mapper of [downloadBatch] comes to:
    - [Fetched blob]: [downloadFile] resolved, the entry is added to the zip;
    - [Failed]: an error that is not an abort, caught and recorded;
    - [Aborted]: the signal is aborted or the error is an [AbortError], the
      mapper rethrows and [pMap] rejects. *)
Inductive FetchOutcome :=
| Fetched (blob : Blob)
| Failed
| Aborted.

Definition isAborted (o : FetchOutcome) : bool :=
  match o with Aborted => true | _ => false end.

(** A value thrown: the [DOMException] named [AbortError], an [Error] with
    its message, or anything else. *)
Inductive Thrown :=
| AbortError
| Error (message : string)
| NotAnError.

Inductive Listing :=
| Listed (files : list RepoFile)
| ListingThrew (e : Thrown).

(** The collaborators of one job.  [fetch pass file] is what the mapper
    comes to for [file] in the first ([1]) or the retry ([2]) pass;
    [settleOrder pass batch] lists the files of the batch in the order in
    which their mappers settle.  A mapper that [pMap] never starts because
    the batch was rejected before counts as [Aborted]. *)
Record Network := {
  listFiles : Listing;
  fetch : nat -> RepoFile -> FetchOutcome;
  settleOrder : nat -> list RepoFile -> list RepoFile;
}.

(** The counters of [downloadState] that belong to one job, and the entries
    of the [JSZip] object of the job: the files added with [zip.file], under
    the names they were added with.  The folder entries that the library
    adds by itself for the parent directories of a name are not among
    them. *)
Record Session := {
  totalFiles : Z;
  downloadedFiles : Z;
  estimatedBytes : Z;
  failedFiles : list string;
  zipFiles : gmap string Blob;
}.

Definition resetSession : Session :=
  {| totalFiles := 0; downloadedFiles := 0; estimatedBytes := 0;
     failedFiles := []; zipFiles := ∅ |}.

Record Options := {
  user : string;
  repository : string;
  gitReference : string;
  directory : string;
  isPrivate : bool;
  filter : list string;
}.

(** [options.directory ? file.path.replace(`${options.directory}/`, '')
    : file.path] *)
Definition relativePath (dir : string) (file : RepoFile) : string :=
  if Js.isEmpty dir then path file
  else Js.removeFirst (dir +:+ "/") (path file).

(** One mapper settles. *)
Definition settle (dir : string) (s : Session) (file : RepoFile)
    (o : FetchOutcome) : Session :=
  match o with
  | Fetched blob =>
      {| totalFiles := totalFiles s;
         downloadedFiles := downloadedFiles s + 1;
         estimatedBytes := estimatedBytes s;
         failedFiles := failedFiles s;
         zipFiles := <[relativePath dir file := blob]> (zipFiles s) |}
  | Failed =>
      {| totalFiles := totalFiles s;
         downloadedFiles := downloadedFiles s;
         estimatedBytes := estimatedBytes s;
         failedFiles := failedFiles s ++ [path file];
         zipFiles := zipFiles s |}
  | Aborted => s
  end.

(** The state after the mappers of [settled] have settled, in that order. *)
Definition settleAll (net : Network) (dir : string) (pass : nat)
    (settled : list RepoFile) (s : Session) : Session :=
  fold_left (fun s file => settle dir s file (fetch net pass file)) settled s.

(** [downloadBatch]: the state once every mapper has settled, and whether
    [pMap] rejected.  A rejection does not stop the mappers in flight, so the
    later completions still reach the state. *)
Definition downloadBatch (net : Network) (dir : string) (pass : nat)
    (batch : list RepoFile) (s : Session) : Session * bool :=
  let settled := settleOrder net pass batch in
  (settleAll net dir pass settled s,
   existsb (fun file => isAborted (fetch net pass file)) settled).

Inductive Completion :=
| Returned
| Threw (e : Thrown).

(** The fields of the form that a job reads while it runs. *)
Record Form := {
  filenameField : string;
  concurrencyField : string;
}.

(** What a call of [downloadDirectory] leaves behind: how it completed, the
    session, the [pMap] calls made (batch and concurrency) and the file handed
    to [saveFile]. *)
Record Outcome := {
  completion : Completion;
  session : Session;
  passes : list (list RepoFile * Z);
  saved : option (string * gmap string Blob);
}.

Definition setTotals (s : Session) (total downloaded : Z) : Session :=
  {| totalFiles := total; downloadedFiles := downloaded;
     estimatedBytes := estimatedBytes s; failedFiles := failedFiles s;
     zipFiles := zipFiles s |}.

Definition setEstimate (s : Session) (bytes : Z) : Session :=
  {| totalFiles := totalFiles s; downloadedFiles := downloadedFiles s;
     estimatedBytes := bytes; failedFiles := failedFiles s;
     zipFiles := zipFiles s |}.

Definition clearFailed (s : Session) : Session :=
  {| totalFiles := totalFiles s; downloadedFiles := downloadedFiles s;
     estimatedBytes := estimatedBytes s; failedFiles := [];
     zipFiles := zipFiles s |}.

Definition newZip (s : Session) : Session :=
  {| totalFiles := totalFiles s; downloadedFiles := downloadedFiles s;
     estimatedBytes := estimatedBytes s; failedFiles := failedFiles s;
     zipFiles := ∅ |}.

(** [failedFiles.includes(p)] *)
Definition includes (l : list string) (p : string) : bool :=
  existsb (String.eqb p) l.

(** The session when the first pass starts: totals and estimate set, failure
    record emptied, a fresh zip. *)
Definition startSession (filteredFiles : list RepoFile) (s : Session)
    : Session :=
  clearFailed
    (newZip
       (setEstimate
          (setTotals s (Z.of_nat (length filteredFiles)) 0)
          (estimateBytes filteredFiles))).

Definition retryTargets (filteredFiles : list RepoFile) (s : Session)
    : list RepoFile :=
  List.filter (fun file => includes (failedFiles s) (path file))
    filteredFiles.

(** The end of [downloadDirectory], after the passes: the zip is generated
    and saved under the name of the form, or the default one. *)
Definition saveArchive (opts : Options) (form : Form) (s : Session)
    : string * gmap string Blob :=
  let fallbackName :=
    buildDefaultFilename (user opts) (repository opts)
      (Some (gitReference opts)) (directory opts) in
  let typed := Js.trim (filenameField form) in
  (ensureZipFilename (if Js.isEmpty typed then fallbackName else typed),
   zipFiles s).

(** [downloadDirectory].  A mapper only rethrows when the signal is aborted
    or the error is an [AbortError], and the handler around the passes tests
    the same condition first, so a rejected batch always leaves as the
    [AbortError] named [Canceled]. *)
Definition downloadDirectory (opts : Options) (form : Form) (net : Network)
    (s : Session) : Outcome :=
  match listFiles net with
  | ListingThrew e =>
      {| completion := Threw e; session := s; passes := []; saved := None |}
  | Listed files =>
      if (length files =? 0)%nat then
        {| completion := Returned; session := setTotals s 0 0;
           passes := []; saved := None |}
      else
        let filteredFiles := filterFiles files (filter opts) in
        if (length filteredFiles =? 0)%nat then
          {| completion := Returned; session := s;
             passes := []; saved := None |}
        else if existsb (fun file => blockedWords_test (path file))
                  filteredFiles then
          {| completion :=
               Threw (Error "Suspicious filename found. Download canceled.");
             session := s; passes := []; saved := None |}
        else
          let s0 := startSession filteredFiles s in
          let concurrency := safeConcurrency (concurrencyField form) in
          let dir := directory opts in
          let '(s1, rejected1) := downloadBatch net dir 1 filteredFiles s0 in
          let first := (filteredFiles, concurrency) in
          if rejected1 then
            {| completion := Threw AbortError; session := s1;
               passes := [first]; saved := None |}
          else if (0 <? length (failedFiles s1))%nat then
            let targets := retryTargets filteredFiles s1 in
            let '(s2, rejected2) :=
              downloadBatch net dir 2 targets (clearFailed s1) in
            let second := (targets, concurrency) in
            if rejected2 then
              {| completion := Threw AbortError; session := s2;
                 passes := [first; second]; saved := None |}
            else
              {| completion := Returned; session := s2;
                 passes := [first; second];
                 saved := Some (saveArchive opts form s2) |}
          else
            {| completion := Returned; session := s1;
               passes := [first];
               saved := Some (saveArchive opts form s1) |}
  end.

(** ** Running one job *)

Record QueueItem := {
  item_url : string;
  item_filename : option string;
  item_filter : option string;
}.

(** What [getRepositoryInfo] resolves to: an error code, a whole repository
    (with the URL of its archive) or a directory. *)
Inductive RepositoryInfo :=
| InfoError (error : string)
| InfoRepository (user repository : string) (gitReference : option string)
    (isPrivate : bool) (downloadUrl : string)
| InfoDirectory (user repository gitReference directory : string)
    (isPrivate : bool).

Inductive Resolution :=
| Resolved (info : RepositoryInfo)
| ResolveThrew (e : Thrown).

(** The answer to the request for the archive of a private repository. *)
Inductive ArchiveFetch :=
| ArchiveOk (blob : Blob)
| ArchiveNotOk (statusText : string)
| ArchiveThrew (e : Thrown).

(** What the page hands to the browser. *)
Inductive Artifact :=
| ZipSaved (name : string) (entries : gmap string Blob)
| BlobSaved (name : string) (blob : Blob)
| Navigated (url : string).

(** The handlers that may run while a job is suspended: the Escape key, the
    Cancel and Clear-all buttons (both [clearAll]), the Clear-queue button,
    the handlers that push items on the queue, the Clear-recent button and an
    input in the token field.  [TypeToken text] carries the trimmed text of
    the field as the storage holds it.  The fields of the form and the other
    buttons are disabled while a job runs. *)
Inductive UiEvent :=
| PressEscape
| ClickCancel
| ClickClearQueue
| Enqueue (items : list QueueItem)
| ClickClearRecent
| TypeToken (text : StoredText).

(** The world around one call of [runDownload]. *)
Record JobWorld := {
  normalizedUrl : option string;      (* parseGithubUrl(rawUrl) *)
  onLine : bool;                      (* navigator.onLine *)
  resolution : Resolution;            (* getRepositoryInfo *)
  archiveFetch : ArchiveFetch;        (* authenticatedFetch(downloadUrl) *)
  network : Network;
  interrupts : list UiEvent;
}.

(** How a call of [runDownload] ended, by the branch that ended it. *)
Inductive JobEnd :=
| InvalidUrl
| BlockedUrl
| Offline
| ResolveError (message : string)
| NeedsToken
| Finished
| Canceled
| TokenInvalid
| RateLimited
| ErrorShown (message : string)
| Unexpected.

Record JobRecord := {
  job : QueueItem;
  ending : JobEnd;
  artifact : option Artifact;
}.

(** The state of the page: [downloadState], the fields of the form, the local
    storage, and the record of the jobs run so far. *)
Record App := {
  controller : option bool;  (* the controller, and whether it is aborted *)
  stats : Session;
  queue : list QueueItem;
  isProcessingQueue : bool;
  filenameInput : string;
  filterInput : string;
  concurrencyInput : string;
  localStorage : gmap string StoredText;
  history : list JobRecord;
}.

Definition setController (c : option bool) (app : App) : App :=
  {| controller := c; stats := stats app; queue := queue app;
     isProcessingQueue := isProcessingQueue app;
     filenameInput := filenameInput app; filterInput := filterInput app;
     concurrencyInput := concurrencyInput app;
     localStorage := localStorage app; history := history app |}.

Definition setStats (s : Session) (app : App) : App :=
  {| controller := controller app; stats := s; queue := queue app;
     isProcessingQueue := isProcessingQueue app;
     filenameInput := filenameInput app; filterInput := filterInput app;
     concurrencyInput := concurrencyInput app;
     localStorage := localStorage app; history := history app |}.

Definition setQueue (q : list QueueItem) (app : App) : App :=
  {| controller := controller app; stats := stats app; queue := q;
     isProcessingQueue := isProcessingQueue app;
     filenameInput := filenameInput app; filterInput := filterInput app;
     concurrencyInput := concurrencyInput app;
     localStorage := localStorage app; history := history app |}.

Definition setProcessing (b : bool) (app : App) : App :=
  {| controller := controller app; stats := stats app; queue := queue app;
     isProcessingQueue := b;
     filenameInput := filenameInput app; filterInput := filterInput app;
     concurrencyInput := concurrencyInput app;
     localStorage := localStorage app; history := history app |}.

Definition setFilename (name : string) (app : App) : App :=
  {| controller := controller app; stats := stats app; queue := queue app;
     isProcessingQueue := isProcessingQueue app;
     filenameInput := name; filterInput := filterInput app;
     concurrencyInput := concurrencyInput app;
     localStorage := localStorage app; history := history app |}.

Definition setStorage (storage : gmap string StoredText) (app : App) : App :=
  {| controller := controller app; stats := stats app; queue := queue app;
     isProcessingQueue := isProcessingQueue app;
     filenameInput := filenameInput app; filterInput := filterInput app;
     concurrencyInput := concurrencyInput app;
     localStorage := storage; history := history app |}.

Definition addRecord (r : JobRecord) (app : App) : App :=
  {| controller := controller app; stats := stats app; queue := queue app;
     isProcessingQueue := isProcessingQueue app;
     filenameInput := filenameInput app; filterInput := filterInput app;
     concurrencyInput := concurrencyInput app;
     localStorage := localStorage app; history := history app ++ [r] |}.

(** [clearAll]: abort, forget the controller, reset the session, empty the
    form, forget the token and the history of URLs, empty the queue. *)
Definition clearAll (app : App) : App :=
  {| controller := None; stats := resetSession; queue := [];
     isProcessingQueue := isProcessingQueue app;
     filenameInput := EmptyString; filterInput := EmptyString;
     concurrencyInput := concurrencyInput app;
     localStorage :=
       writeRecentUrls [] (delete tokenStorageKey (localStorage app));
     history := history app |}.

(** [downloadState.controller?.abort()] *)
Definition abortController (app : App) : App :=
  setController (fmap (fun _ => true) (controller app)) app.

(** [nextToken.length === 0] for the text of the token field. *)
Definition isBlankText (text : StoredText) : bool :=
  match text with
  | Unparseable t => Js.isEmpty t
  | Serialized _ => false
  end.

(** The listener of the token field: a blank text removes the stored token,
    any other text is stored. *)
Definition storeToken (text : StoredText)
    (storage : gmap string StoredText) : gmap string StoredText :=
  if isBlankText text then delete tokenStorageKey storage
  else <[tokenStorageKey := text]> storage.

Definition handleEvent (app : App) (e : UiEvent) : App :=
  match e with
  | PressEscape => abortController app
  | ClickCancel => clearAll app
  | ClickClearQueue => setQueue [] app
  | Enqueue items => setQueue (queue app ++ items) app
  | ClickClearRecent =>
      setStorage (writeRecentUrls [] (localStorage app)) app
  | TypeToken text => setStorage (storeToken text (localStorage app)) app
  end.

Definition deliver (events : list UiEvent) (app : App) : App :=
  fold_left handleEvent events app.

(** [localStorage.getItem(tokenStorageKey)] is truthy. *)
Definition tokenStored (storage : gmap string StoredText) : bool :=
  match storage !! tokenStorageKey with
  | Some (Unparseable text) => negb (Js.isEmpty text)
  | Some (Serialized _) => true
  | None => false
  end.

Definition parseErrorMessage (error : string) : string :=
  if String.eqb error "NOT_A_REPOSITORY" then "Not a repository URL."
  else if String.eqb error "NOT_A_DIRECTORY"
  then "That URL points to a file, not a directory."
  else if String.eqb error "REPOSITORY_NOT_FOUND"
  then "Repository not found. If it is private, provide a valid token."
  else if String.eqb error "BRANCH_NOT_FOUND"
  then "Branch or tag could not be resolved."
  else "Unknown repository parsing error.".

(** What the [try] block of [runDownload] comes to. *)
Inductive TryResult :=
| Done (e : JobEnd) (a : option Artifact)
| Raised (e : Thrown).

(** [if (filenameOverride) ui.filename.value = filenameOverride].  The
    field keeps the override as given: the sanitization that a text input
    applies to a value assigned to it, which removes line breaks, is left
    out. *)
Definition applyFilenameOverride (override : option string) (app : App)
    : App :=
  match override with
  | Some name => if Js.isEmpty name then app else setFilename name app
  | None => app
  end.

(** [filterOverride ? filterOverride.split(',') : parseFilter()] *)
Definition jobFilter (override : option string) (app : App) : list string :=
  match override with
  | Some text =>
      if Js.isEmpty text then parseFilter (filterInput app)
      else Js.splitOn "," text
  | None => parseFilter (filterInput app)
  end.

Definition downloadFullRepository (w : JobWorld) (user repository : string)
    (gitReference : option string) (isPrivate : bool) (downloadUrl : string)
    (app : App) : App * TryResult :=
  let filenameFromInput := Js.trim (filenameInput app) in
  let defaultName :=
    buildDefaultFilename user repository gitReference EmptyString in
  let zipName :=
    ensureZipFilename
      (if Js.isEmpty filenameFromInput then defaultName
       else filenameFromInput) in
  if isPrivate then
    match archiveFetch w with
    | ArchiveThrew e => (app, Raised e)
    | ArchiveNotOk statusText =>
        (app,
         Raised
           (Error ("HTTP " +:+ statusText +:+ " while downloading archive")))
    | ArchiveOk blob =>
        (setStats (setTotals (stats app) 1 1) app,
         Done Finished (Some (BlobSaved zipName blob)))
    end
  else
    (setStats (setTotals (stats app) 1 1) app,
     Done Finished (Some (Navigated downloadUrl))).

Definition tryBlock (w : JobWorld) (url : string) (item : QueueItem)
    (app : App) : App * TryResult :=
  match resolution w with
  | ResolveThrew e => (app, Raised e)
  | Resolved (InfoError error) =>
      (app, Done (ResolveError (parseErrorMessage error)) None)
  | Resolved (InfoRepository user repository gitReference isPrivate
                downloadUrl) =>
      let app1 := setStorage (pushRecentUrl url (localStorage app)) app in
      if isPrivate && negb (tokenStored (localStorage app1)) then
        (app1, Done NeedsToken None)
      else
        downloadFullRepository w user repository gitReference isPrivate
          downloadUrl (applyFilenameOverride (item_filename item) app1)
  | Resolved (InfoDirectory user repository gitReference directory
                isPrivate) =>
      let app1 := setStorage (pushRecentUrl url (localStorage app)) app in
      if isPrivate && negb (tokenStored (localStorage app1)) then
        (app1, Done NeedsToken None)
      else
        let app2 := applyFilenameOverride (item_filename item) app1 in
        let opts :=
          {| user := user; repository := repository;
             gitReference := gitReference; directory := directory;
             isPrivate := isPrivate;
             filter := jobFilter (item_filter item) app2 |} in
        let form :=
          {| filenameField := filenameInput app2;
             concurrencyField := concurrencyInput app2 |} in
        let out := downloadDirectory opts form (network w) (stats app2) in
        (setStats (session out) app2,
         match completion out with
         | Returned =>
             Done Finished
               (fmap (fun '(name, entries) => ZipSaved name entries)
                  (saved out))
         | Threw e => Raised e
         end)
  end.

(** The [catch] clause of [runDownload]. *)
Definition handleThrown (c : option bool) (e : Thrown) : JobEnd :=
  let aborted := match c with Some true => true | _ => false end in
  let isAbortError := match e with AbortError => true | _ => false end in
  if aborted || isAbortError then Canceled
  else match e with
       | Error message =>
           if String.eqb message "Invalid token" then TokenInvalid
           else if String.eqb message "Rate limit exceeded" then RateLimited
           else ErrorShown message
       | _ => Unexpected
       end.

Definition skipped (item : QueueItem) (e : JobEnd) (app : App) : App :=
  addRecord {| job := item; ending := e; artifact := None |} app.

(** [runDownload].  The three early returns happen before the first
    [await], so no handler runs during them.  The handlers in [interrupts w]
    run while the job is suspended at an [await] of its [try] block.  The
    block writes neither the controller nor the queue, so for these fields
    the moment at which the handlers run is immaterial; for the session, the
    form and the storage the handlers are applied after the last write of the
    block.  A handler that writes one of these before the block reads it is
    thus not followed: a property that depends on the session, the form or
    the storage is stated for the jobs during which no handler writes what it
    depends on. *)
Definition runDownload (w : JobWorld) (item : QueueItem) (app : App) : App :=
  match normalizedUrl w with
  | None => skipped item InvalidUrl app
  | Some url =>
      if blockedWords_test url then skipped item BlockedUrl app
      else if negb (onLine w) then skipped item Offline app
      else
        let '(app1, result) :=
          tryBlock w url item (setController (Some false) app) in
        let app2 := deliver (interrupts w) app1 in
        let r :=
          match result with
          | Done e a => {| job := item; ending := e; artifact := a |}
          | Raised e =>
              {| job := item; ending := handleThrown (controller app2) e;
                 artifact := None |}
          end in
        setController None (addRecord r app2)
  end.

(** ** The queue *)

(** The loop of [processQueue].  Each turn takes the world of the job it
    starts from [worlds]; the loop is still running when the worlds are used
    up and the queue is not empty. *)
Fixpoint processLoop (worlds : list JobWorld) (app : App) : App :=
  match queue app with
  | [] => setProcessing false app
  | item :: rest =>
      match worlds with
      | [] => app
      | w :: worlds' =>
          processLoop worlds' (runDownload w item (setQueue rest app))
      end
  end.

Definition processQueue (worlds : list JobWorld) (app : App) : App :=
  if isProcessingQueue app then app
  else processLoop worlds (setProcessing true app).

(** The jobs started so far, oldest first. *)
Definition started (app : App) : list QueueItem := job <$> history app.

(** ** Display helpers *)

(** [value.length > 72 ? `${value.slice(0, 69)}...` : value] *)
Definition shortenUrl (value : string) : string :=
  if (72 <? String.length value)%nat
  then String.substring 0 69 value +:+ "..."
  else value.

Fixpoint replicateChar (n : nat) (c : ascii) : string :=
  match n with
  | O => EmptyString
  | S n' => String c (replicateChar n' c)
  end.

(** [s.padStart(len, fill)] with a fill of one character. *)
Definition padStart (len : nat) (fill : ascii) (s : string) : string :=
  replicateChar (len - String.length s) fill +:+ s.

(** [formatElapsed], on a whole number of milliseconds.  [String(n)] of an
    integer is its decimal numeral, [Math.floor] of a quotient of integers
    is [/] and the remainder [%] takes the sign of the dividend.  The code
    computes on doubles: it agrees with these integer operations for the
    whole numbers below [2^53], where each quotient is rounded to a double
    that has the same integer part; beyond, it does not. *)
Definition formatElapsed (ms : Z) : string :=
  let seconds := ms / 1000 in
  let hours := seconds / 3600 in
  let minutes := Z.rem (seconds / 60) 60 in
  let remainingSeconds := Z.rem seconds 60 in
  if 0 <? hours then
    padStart 2 "0" (pretty hours) +:+ ":"
    +:+ padStart 2 "0" (pretty minutes) +:+ ":"
    +:+ padStart 2 "0" (pretty remainingSeconds)
  else
    padStart 2 "0" (pretty minutes) +:+ ":"
    +:+ padStart 2 "0" (pretty remainingSeconds).


(** ** The URLs of the form *)

Definition pushChar (c : ascii) (pieces : list string) : list string :=
  match pieces with
  | piece :: pieces' => String c piece :: pieces'
  | [] => [String c EmptyString]
  end.

(** [s.split(/\r?\n|,|\s+/)].  At each position the alternatives are tried in
    their order: a line feed, alone or behind a carriage return; a comma; a
    run of white space, as far as it goes.  [inSpaces] tells that the
    character before the current one belongs to a run of the third
    alternative, which the current character extends when it is white
    space. *)
Fixpoint splitUrls (inSpaces : bool) (s : string) : list string :=
  match s with
  | EmptyString => [EmptyString]
  | String c rest =>
      if inSpaces && Js.isWhiteSpace c then splitUrls true rest
      else if Ascii.eqb c "010" then EmptyString :: splitUrls false rest
      else if Ascii.eqb c "," then EmptyString :: splitUrls false rest
      else if Ascii.eqb c "013" then
        match rest with
        | String d rest' =>
            if Ascii.eqb d "010" then EmptyString :: splitUrls false rest'
            else EmptyString :: splitUrls true rest
        | EmptyString => EmptyString :: splitUrls true rest
        end
      else if Js.isWhiteSpace c then EmptyString :: splitUrls true rest
      else pushChar c (splitUrls false rest)
  end.

(** What [new URL(text)] gives, as far as [parseGithubUrl] reads it: the
    [hostname], and the text that [toString()] returns once the [hash] has
    been emptied. *)
Record ParsedUrl := {
  hostname : string;
  withoutHash : string;
}.

(** [/^(?:www\.)?github\.com$/i.test(hostname)] *)
Definition isGithubHost (host : string) : bool :=
  let whole (w : string) :=
    Js.startsWithFold host w
    && (String.length host =? String.length w)%nat in
  whole "github.com" || whole "www.github.com".

(** [typeof value === 'string' && value.length > 0] *)
Definition isNonEmptyString (value : option string) : bool :=
  match value with
  | Some text => (0 <? String.length text)%nat
  | None => false
  end.

Section Urls.

(** The constructor [URL] of the browser; [None] when it throws. *)
Variable URL : string -> option ParsedUrl.

Definition parseGithubUrl (rawUrl : string) : option string :=
  let candidate := Js.trim rawUrl in
  if (String.length candidate =? 0)%nat then None
  else
    let withProtocol :=
      if Js.startsWith candidate "http://"
         || Js.startsWith candidate "https://"
      then candidate
      else "https://" +:+ candidate in
    match URL withProtocol with
    | None => None
    | Some parsed =>
        if isGithubHost (hostname parsed) then Some (withoutHash parsed)
        else None
    end.

Definition parseUrlList (rawValue : string) : list string :=
  omap id
    (List.filter isNonEmptyString
       (parseGithubUrl
          <$> List.filter (fun value => (0 <? String.length value)%nat)
                (Js.trim <$> splitUrls false rawValue))).

End Urls.

(** [text || undefined] *)
Definition orUndefined (text : string) : option string :=
  if Js.isEmpty text then None else Some text.

(** The items that the submit handler, the Add-to-queue button and
    Ctrl+Enter push on the queue for the URLs [urls]. *)
Definition formItems (urls : list string) (app : App) : list QueueItem :=
  let filename := Js.trim (filenameInput app) in
  let filter := Js.trim (filterInput app) in
  (fun url =>
     {| item_url := url; item_filename := orUndefined filename;
        item_filter := orUndefined filter |}) <$> urls.

(** The submit handler of the form, for the text [urlText] of the URL field:
    without a valid URL it only reports; otherwise it pushes one item for
    each URL and calls [processQueue]. *)
Definition submit (URL : string -> option ParsedUrl) (urlText : string)
    (worlds : list JobWorld) (app : App) : App :=
  let urls := parseUrlList URL urlText in
  if (length urls =? 0)%nat then app
  else processQueue worlds (setQueue (queue app ++ formItems urls app) app).
(* ===================================================================== *)
(** * Part II: vocabulary of the properties                              *)
(* ===================================================================== *)

(** ** Strings and names *)

Abbreviation chars := String.list_ascii_of_string.

(** No two adjacent characters of the class; [prev] tells that the character
    before the string is of the class. *)
Fixpoint noAdjacent (class : ascii -> bool) (prev : bool) (s : string)
    : bool :=
  match s with
  | EmptyString => true
  | String c s' =>
      if class c then negb prev && noAdjacent class true s'
      else noAdjacent class false s'
  end.

(** The characters that [sanitizeFilename] neither replaces nor produces. *)
Definition isOrdinary (c : ascii) : bool :=
  negb (isForbidden c || Js.isWhiteSpace c || Ascii.eqb c "-").

Fixpoint keep (p : ascii -> bool) (s : string) : string :=
  match s with
  | EmptyString => EmptyString
  | String c s' => if p c then String c (keep p s') else keep p s'
  end.

(** A string with its ASCII capitals made small, as the [i] flag sees it. *)
Fixpoint foldCase (s : string) : string :=
  match s with
  | EmptyString => EmptyString
  | String c s' => String (Js.foldAscii c) (foldCase s')
  end.

(** [s] without its longest prefix of characters of the class. *)
Fixpoint dropWhile (class : ascii -> bool) (s : string) : string :=
  match s with
  | EmptyString => EmptyString
  | String c s' => if class c then dropWhile class s' else s
  end.

(** [Collapses class r s t]: [t] is [s] with every maximal run of characters
    of the class replaced by the one character [r], the other characters
    kept. *)
Inductive Collapses (class : ascii -> bool) (r : ascii)
    : string -> string -> Prop :=
| collapses_nil : Collapses class r EmptyString EmptyString
| collapses_keep c s t :
    class c = false -> Collapses class r s t ->
    Collapses class r (String c s) (String c t)
| collapses_run c s t :
    class c = true -> Collapses class r (dropWhile class s) t ->
    Collapses class r (String c s) (String r t).

(** [Trimmed s m]: [m] is [s] without the white space at its two ends. *)
Definition Trimmed (s m : string) : Prop :=
  exists pre post,
    s = pre +:+ m +:+ post
    /\ (forall c, In c (chars pre) -> Js.isWhiteSpace c = true)
    /\ (forall c, In c (chars post) -> Js.isWhiteSpace c = true)
    /\ (forall c rest, m = String c rest -> Js.isWhiteSpace c = false)
    /\ (forall front c,
          m = front +:+ String c EmptyString -> Js.isWhiteSpace c = false).

(** The shape shared by every archive name. *)
Definition tidyName (name : string) : Prop :=
  (forall c, In c (chars name) -> isForbidden c = false)
  /\ (forall c, In c (chars name) -> Js.isWhiteSpace c = true -> c = " "%char)
  /\ noAdjacent Js.isWhiteSpace false name = true
  /\ (forall c rest, name = String c rest -> Js.isWhiteSpace c = false).

(** ** Storage and selection *)

(** The array stored under the key of the recent URLs, when there is one. *)
Definition storedRecent (storage : gmap string StoredText)
    : option (list JSONValue) :=
  match storage !! recentStorageKey with
  | Some (Serialized (JArray items)) => Some items
  | _ => None
  end.

(** An extension as [parseFilter] leaves it: in lower case, with its dot. *)
Definition normalizedExtension (e : string) : Prop :=
  Js.toLowerCase e = e /\ Js.startsWith e "." = true.

(** The path ends with the extension when case is ignored: some suffix of the
    path and the extension are equal up to case. *)
Definition matchesSuffix (p e : string) : Prop :=
  exists pre suf, p = pre +:+ suf /\ Js.toLowerCase suf = Js.toLowerCase e.

(** The size a descriptor reports, 0 when it reports none. *)
Definition reportedSize (file : RepoFile) : Z := default 0 (size file).

Definition sumOfSizes (files : list RepoFile) : Z :=
  fold_right Z.add 0 (reportedSize <$> files).

(** ** The passes of a job *)

Definition isFetched (o : FetchOutcome) : bool :=
  match o with Fetched _ => true | _ => false end.

Definition isFailed (o : FetchOutcome) : bool :=
  match o with Failed => true | _ => false end.

(** The sessions a job goes through from the moment its totals are set.
    [firstPassState n] is the session when [n] mappers of the first pass have
    settled, [afterFirstPass] the session when they all have, and
    [retryPassState n] the session when the failure record has been emptied
    and [n] mappers of the retry pass have settled. *)
Definition firstPassState (net : Network) (dir : string)
    (filteredFiles : list RepoFile) (s : Session) (n : nat) : Session :=
  settleAll net dir 1 (take n (settleOrder net 1 filteredFiles))
    (startSession filteredFiles s).

Definition afterFirstPass (net : Network) (dir : string)
    (filteredFiles : list RepoFile) (s : Session) : Session :=
  fst (downloadBatch net dir 1 filteredFiles (startSession filteredFiles s)).

Definition firstPassRejected (net : Network) (dir : string)
    (filteredFiles : list RepoFile) (s : Session) : bool :=
  snd (downloadBatch net dir 1 filteredFiles (startSession filteredFiles s)).

Definition retryPassState (net : Network) (dir : string)
    (filteredFiles : list RepoFile) (s : Session) (n : nat) : Session :=
  let s1 := afterFirstPass net dir filteredFiles s in
  settleAll net dir 2
    (take n (settleOrder net 2 (retryTargets filteredFiles s1)))
    (clearFailed s1).

Inductive Visited (net : Network) (dir : string)
    (filteredFiles : list RepoFile) (s : Session) : Session -> Prop :=
| visited_first (n : nat) :
    Visited net dir filteredFiles s
      (firstPassState net dir filteredFiles s n)
| visited_retry (n : nat) :
    firstPassRejected net dir filteredFiles s = false ->
    failedFiles (afterFirstPass net dir filteredFiles s) <> [] ->
    Visited net dir filteredFiles s
      (retryPassState net dir filteredFiles s n).

(** The progress invariant of a session. *)
Definition withinTotal (s : Session) : Prop :=
  downloadedFiles s + Z.of_nat (length (failedFiles s)) <= totalFiles s.

(** The job reaches its fetch passes with the filtered list [filteredFiles]:
    the listing succeeded, the filter kept some file and no kept path is
    blocked. *)
Definition entersPasses (opts : Options) (net : Network)
    (filteredFiles : list RepoFile) : Prop :=
  exists files,
    listFiles net = Listed files
    /\ filteredFiles = filterFiles files (filter opts)
    /\ filteredFiles <> []
    /\ existsb (fun file => blockedWords_test (path file)) filteredFiles
       = false.

(** ** Sample listings, networks and jobs *)

(** Two entries of a listing that carry the same path with different
    contents, and a network in which the first of them fails once. *)
Definition twinA : RepoFile :=
  {| path := "docs/a.txt"; size := Some 1; sha := "1111" |}.
Definition twinB : RepoFile :=
  {| path := "docs/a.txt"; size := Some 2; sha := "2222" |}.

Definition plainOptions : Options :=
  {| user := "octo"; repository := "demo"; gitReference := "main";
     directory := "docs"; isPrivate := false; filter := [] |}.

Definition plainForm : Form :=
  {| filenameField := EmptyString; concurrencyField := "20" |}.

Definition twinNetwork : Network :=
  {| listFiles := Listed [twinA; twinB];
     fetch := fun pass file =>
       if (pass =? 1)%nat && String.eqb (sha file) "1111" then Failed
       else Fetched "data";
     settleOrder := fun _ batch => batch |}.

(** The same listing in a network in which every fetch fails. *)
Definition deadNetwork : Network :=
  {| listFiles := Listed [twinA; twinB];
     fetch := fun _ _ => Failed;
     settleOrder := fun _ batch => batch |}.

(** Three files with distinct paths, in a network in which the second fails
    in both passes and the third fails in the first pass only. *)
Definition fileA : RepoFile :=
  {| path := "docs/a.txt"; size := Some 3; sha := "aaaa" |}.
Definition fileB : RepoFile :=
  {| path := "docs/b.txt"; size := None; sha := "bbbb" |}.
Definition fileC : RepoFile :=
  {| path := "docs/sub/c.txt"; size := Some 4; sha := "cccc" |}.

Definition flakyNetwork : Network :=
  {| listFiles := Listed [fileA; fileB; fileC];
     fetch := fun pass file =>
       if String.eqb (sha file) "bbbb" then Failed
       else if String.eqb (sha file) "cccc" && (pass =? 1)%nat then Failed
       else Fetched "data";
     settleOrder := fun _ batch => reverse batch |}.

(** A page at rest with two jobs waiting, and the worlds of two jobs: in the
    first the user presses Escape while the files are fetched and every fetch
    is aborted, in the second nothing interferes. *)
Definition jobOne : QueueItem :=
  {| item_url := "https://github.com/octo/demo/tree/main/docs";
     item_filename := None; item_filter := None |}.
Definition jobTwo : QueueItem :=
  {| item_url := "https://github.com/octo/demo/tree/main/src";
     item_filename := None; item_filter := None |}.

Definition idleApp : App :=
  {| controller := None; stats := resetSession; queue := [jobOne; jobTwo];
     isProcessingQueue := false; filenameInput := EmptyString;
     filterInput := EmptyString; concurrencyInput := "20";
     localStorage := ∅; history := [] |}.

Definition escapeWorld : JobWorld :=
  {| normalizedUrl := Some "https://github.com/octo/demo/tree/main/docs";
     onLine := true;
     resolution := Resolved (InfoDirectory "octo" "demo" "main" "docs" false);
     archiveFetch := ArchiveThrew NotAnError;
     network :=
       {| listFiles := Listed [fileA; fileB];
          fetch := fun _ _ => Aborted;
          settleOrder := fun _ batch => batch |};
     interrupts := [PressEscape] |}.

Definition calmWorld : JobWorld :=
  {| normalizedUrl := Some "https://github.com/octo/demo/tree/main/src";
     onLine := true;
     resolution := Resolved (InfoDirectory "octo" "demo" "main" "src" false);
     archiveFetch := ArchiveThrew NotAnError;
     network :=
       {| listFiles :=
            Listed [{| path := "src/index.ts"; size := Some 8;
                       sha := "eeee" |}];
          fetch := fun _ _ => Fetched "code";
          settleOrder := fun _ batch => batch |};
     interrupts := [] |}.

(** The same first job cancelled with the Cancel button instead. *)
Definition cancelWorld : JobWorld :=
  {| normalizedUrl := normalizedUrl escapeWorld;
     onLine := true;
     resolution := resolution escapeWorld;
     archiveFetch := archiveFetch escapeWorld;
     network := network escapeWorld;
     interrupts := [ClickCancel] |}.

Definition hasArtifact (r : JobRecord) : bool :=
  match artifact r with Some _ => true | None => false end.

Definition isEnqueue (e : UiEvent) : bool :=
  match e with Enqueue _ => true | _ => false end.

(** ** Vocabulary of the further properties *)

(** The characters that separate nothing in a filter: white space and the
    comma. *)
Definition isBlankOrComma (c : ascii) : bool :=
  Js.isWhiteSpace c || Ascii.eqb c ",".


(** The network [net] with its mappers settling in another order. *)
Definition withOrder (net : Network)
    (order : nat -> list RepoFile -> list RepoFile) : Network :=
  {| listFiles := listFiles net; fetch := fetch net; settleOrder := order |}.

(** Two sessions that differ at most in the order of their failure records
    and in the blobs of their entries. *)
Definition sameButOrder (s s' : Session) : Prop :=
  totalFiles s' = totalFiles s
  /\ downloadedFiles s' = downloadedFiles s
  /\ estimatedBytes s' = estimatedBytes s
  /\ failedFiles s' ≡ₚ failedFiles s
  /\ forall entry,
       is_Some (zipFiles s' !! entry) <-> is_Some (zipFiles s !! entry).

(** The items pushed on the queue by the handlers among [events]. *)
Definition pushedItems (events : list UiEvent) : list QueueItem :=
  flat_map (fun e => match e with Enqueue items => items | _ => [] end)
    events.

(** The job of world [w] gets past the three early returns of [runDownload]
    and reaches its [try] block. *)
Definition suspends (w : JobWorld) : bool :=
  match normalizedUrl w with
  | Some url => negb (blockedWords_test url) && onLine w
  | None => false
  end.

(** The items pushed on the queue while the job of world [w] is suspended. *)
Definition pushedDuring (w : JobWorld) : list QueueItem :=
  if suspends w then pushedItems (interrupts w) else [].

(** The handlers that do not empty the queue. *)
Definition keepsQueue (e : UiEvent) : bool :=
  match e with ClickCancel | ClickClearQueue => false | _ => true end.

(** [getRepositoryInfo] answers with a repository or a directory. *)
Definition resolves (w : JobWorld) : bool :=
  match resolution w with
  | Resolved (InfoError _) | ResolveThrew _ => false
  | Resolved _ => true
  end.


(** The pieces of [s] between the characters of a class. *)
Fixpoint fields (class : ascii -> bool) (s : string) : list string :=
  match s with
  | EmptyString => [EmptyString]
  | String c rest =>
      if class c then EmptyString :: fields class rest
      else pushChar c (fields class rest)
  end.

(** The words of [s]: its maximal runs of characters that are neither white
    space nor commas. *)
Definition words (s : string) : list string :=
  List.filter (fun piece => negb (Js.isEmpty piece))
    (fields isBlankOrComma s).

(** The text handed to [URL] for a word. *)
Definition withProtocol (word : string) : string :=
  if Js.startsWith word "http://" || Js.startsWith word "https://"
  then word else "https://" +:+ word.

(** A URL parser for the examples: it accepts the texts that start with
    [https://github.com/] and returns them as they are. *)
Definition sampleURL (text : string) : option ParsedUrl :=
  if Js.startsWith text "https://github.com/"
  then Some {| hostname := "github.com"; withoutHash := text |}
  else None.


(** The repository or the directory of the job is private. *)
Definition resolvesPrivate (w : JobWorld) : bool :=
  match resolution w with
  | Resolved (InfoRepository _ _ _ isPrivate _) => isPrivate
  | Resolved (InfoDirectory _ _ _ _ isPrivate) => isPrivate
  | _ => false
  end.

(** A text that [sanitizeFilename] has nothing to do on. *)
Definition isPlain (s : string) : Prop :=
  forall c, In c (chars s) ->
    isForbidden c = false /\ Js.isWhiteSpace c = false.

(** A private directory met without a stored token, while the user presses
    Escape and clears the recent URLs. *)
Definition privateWorld : JobWorld :=
  {| normalizedUrl := Some "https://github.com/octo/vault/tree/main/keys";
     onLine := true;
     resolution := Resolved (InfoDirectory "octo" "vault" "main" "keys" true);
     archiveFetch := ArchiveThrew NotAnError;
     network := network calmWorld;
     interrupts := [PressEscape; ClickClearRecent] |}.


(** A job on a whole public repository. *)
Definition repositoryWorld : JobWorld :=
  {| normalizedUrl := Some "https://github.com/octo/demo";
     onLine := true;
     resolution :=
       Resolved
         (InfoRepository "octo" "demo" (Some "main") false
            "https://api.github.com/repos/octo/demo/zipball/main");
     archiveFetch := ArchiveThrew NotAnError;
     network := network calmWorld;
     interrupts := [] |}.

(** A job on a whole private repository whose archive is delivered, while
    another item is pushed on the queue; and a page that holds a token. *)
Definition vaultWorld : JobWorld :=
  {| normalizedUrl := Some "https://github.com/octo/vault";
     onLine := true;
     resolution :=
       Resolved
         (InfoRepository "octo" "vault" (Some "main") true
            "https://api.github.com/repos/octo/vault/zipball/main");
     archiveFetch := ArchiveOk "archive";
     network := network calmWorld;
     interrupts := [Enqueue [jobTwo]] |}.

Definition tokenApp : App :=
  setStorage (<[tokenStorageKey := Unparseable "ghp-sample"]> ∅) idleApp.


Definition writesToken (e : UiEvent) : bool :=
  match e with
  | ClickCancel | TypeToken _ => true
  | _ => false
  end.

(** The decimal digits, and the texts made of them. *)
Definition isDigit (c : ascii) : bool :=
  ((48 <=? Js.code c) && (Js.code c <=? 57))%N.

Definition allDigits (s : string) : bool := forallb isDigit (chars s).
(* ===================================================================== *)
(** * Part III: properties                                               *)
(* ===================================================================== *)

(** ** Strings *)

Lemma append_nil_l (t : string) : EmptyString +:+ t = t.
Proof. reflexivity. Qed.

Lemma append_cons (c : ascii) (s t : string) :
  String c s +:+ t = String c (s +:+ t).
Proof. reflexivity. Qed.

(** [String.append] does not unfold under [simpl]; [ssimpl] unfolds it. *)
Ltac ssimpl :=
  simpl; repeat (rewrite append_nil_l || rewrite append_cons); simpl.
Ltac ssimpl_in H :=
  simpl in H;
  repeat (rewrite append_nil_l in H || rewrite append_cons in H);
  simpl in H.

Lemma chars_app (s t : string) : chars (s +:+ t) = chars s ++ chars t.
Proof. induction s as [|c s IH]; ssimpl; [done | by rewrite IH]. Qed.

Lemma isEmpty_true (s : string) : Js.isEmpty s = true <-> s = EmptyString.
Proof. destruct s; simpl; split; congruence. Qed.

Lemma isEmpty_length (s : string) :
  (0 <? String.length s)%nat = negb (Js.isEmpty s).
Proof. by destruct s. Qed.

Lemma endsWith_nil (p : string) :
  Js.endsWith EmptyString p = String.eqb EmptyString p || false.
Proof. reflexivity. Qed.

Lemma endsWith_cons (c : ascii) (s p : string) :
  Js.endsWith (String c s) p
  = String.eqb (String c s) p || Js.endsWith s p.
Proof. reflexivity. Qed.

(** [endsWith] decides that [p] is a suffix of [s]. *)
Lemma endsWith_spec (s p : string) :
  Js.endsWith s p = true <-> exists pre, s = pre +:+ p.
Proof.
  split.
  - induction s as [|c s IH]; rewrite ?endsWith_nil, ?endsWith_cons; intros H.
    + apply orb_true_iff in H as [H|H]; [|done].
      apply String.eqb_eq in H. by exists EmptyString.
    + apply orb_true_iff in H as [H|H].
      * apply String.eqb_eq in H. by exists EmptyString.
      * destruct (IH H) as [pre ->]. by exists (String c pre).
  - intros [pre ->]. induction pre as [|c pre IH].
    + rewrite append_nil_l.
      destruct p; rewrite ?endsWith_nil, ?endsWith_cons, String.eqb_refl; done.
    + rewrite append_cons, endsWith_cons, IH. apply orb_true_r.
Qed.

Lemma endsWith_append (s p : string) : Js.endsWith (s +:+ p) p = true.
Proof. apply endsWith_spec. by exists s. Qed.

(** [startsWith] decides "is a prefix of". *)
Lemma startsWith_spec (s p : string) :
  Js.startsWith s p = true <-> exists rest, s = p +:+ rest.
Proof.
  revert s. induction p as [|b p IH]; intros s; ssimpl.
  - split; [by exists s | done].
  - destruct s as [|a s]; simpl.
    + split; [done | by intros [rest ?]].
    + rewrite andb_true_iff, IH. split.
      * intros [Hab [rest ->]]. apply Ascii.eqb_eq in Hab as ->.
        by exists rest.
      * intros [rest H]. ssimpl_in H. injection H as -> ->.
        rewrite Ascii.eqb_refl. eauto.
Qed.

(** The characters of the result of [replaceRuns] are the replacement
    character and the characters of the input outside the class. *)
Lemma replaceRuns_chars class r b s c :
  In c (chars (Js.replaceRuns class r b s)) ->
  c = r \/ (In c (chars s) /\ class c = false).
Proof.
  revert b. induction s as [|a s IH]; simpl; intros b H; [done|].
  destruct (class a) eqn:Ha.
  - destruct b; simpl in H.
    + destruct (IH _ H) as [?|[? ?]]; auto.
    + destruct H as [<-|H]; [by left|].
      destruct (IH _ H) as [?|[? ?]]; auto.
  - simpl in H. destruct H as [<-|H]; [by right; auto|].
    destruct (IH _ H) as [?|[? ?]]; auto.
Qed.

Lemma trimStart_suffix (s : string) :
  exists pre, s = pre +:+ Js.trimStart s.
Proof.
  induction s as [|c s [pre IH]]; simpl.
  - by exists EmptyString.
  - destruct (Js.isWhiteSpace c).
    + exists (String c pre). ssimpl. by rewrite <- IH.
    + by exists EmptyString.
Qed.

Lemma trimEnd_prefix (s : string) :
  exists post, s = Js.trimEnd s +:+ post.
Proof.
  induction s as [|c s [post IH]]; simpl.
  - by exists EmptyString.
  - destruct (Js.isWhiteSpace c && Js.isEmpty (Js.trimEnd s)) eqn:E.
    + by exists (String c s).
    + exists post. ssimpl. by rewrite <- IH.
Qed.

(** [trim] keeps a middle part of its argument. *)
Lemma trim_middle (s : string) :
  exists pre post, s = pre +:+ Js.trim s +:+ post.
Proof.
  destruct (trimStart_suffix s) as [pre Hpre].
  destruct (trimEnd_prefix (Js.trimStart s)) as [post Hpost].
  exists pre, post. unfold Js.trim. by rewrite <- Hpost.
Qed.

Lemma trim_chars (s : string) (c : ascii) :
  In c (chars (Js.trim s)) -> In c (chars s).
Proof.
  destruct (trim_middle s) as (pre & post & E). intros H.
  rewrite E, !chars_app, !in_app_iff. auto.
Qed.

(** The first character of a trimmed string is not white space. *)
Lemma trimStart_head (s : string) c rest :
  Js.trimStart s = String c rest -> Js.isWhiteSpace c = false.
Proof.
  induction s as [|a s IH]; simpl; [done|].
  destruct (Js.isWhiteSpace a) eqn:Ha; [done|]. by intros [= <- _].
Qed.

Lemma trimEnd_head (s : string) c rest :
  Js.trimEnd s = String c rest -> exists rest', s = String c rest'.
Proof.
  destruct s as [|a s]; simpl; [done|].
  destruct (Js.isWhiteSpace a && Js.isEmpty (Js.trimEnd s)); [done|].
  intros [= <- _]. eauto.
Qed.

Lemma trim_head (s : string) c rest :
  Js.trim s = String c rest -> Js.isWhiteSpace c = false.
Proof.
  unfold Js.trim. intros H. apply trimEnd_head in H as [rest' H].
  by apply trimStart_head in H.
Qed.

Lemma noAdjacent_weaken class prev s :
  noAdjacent class prev s = true -> noAdjacent class false s = true.
Proof.
  destruct s as [|c s]; simpl; [done|].
  destruct (class c); [|done]. by intros [_ ?]%andb_true_iff.
Qed.

Lemma noAdjacent_replaceRuns class r b s :
  class r = true ->
  noAdjacent class b (Js.replaceRuns class r b s) = true.
Proof.
  intros Hr. revert b. induction s as [|c s IH]; simpl; intros b; [done|].
  destruct (class c) eqn:Hc.
  - destruct b; [apply IH|]. simpl. rewrite Hr. simpl. apply IH.
  - simpl. rewrite Hc. apply IH.
Qed.

Lemma noAdjacent_app_inv class prev s t :
  noAdjacent class prev (s +:+ t) = true ->
  noAdjacent class prev s = true /\ noAdjacent class false t = true.
Proof.
  revert prev. induction s as [|c s IH]; ssimpl; intros prev H.
  - split; [done|]. by eapply noAdjacent_weaken.
  - destruct (class c).
    + apply andb_true_iff in H as [-> H]. by apply IH in H as [-> ?].
    + by apply IH.
Qed.

Lemma noAdjacent_pair class prev pre x y post :
  class x = true -> class y = true ->
  noAdjacent class prev (pre +:+ String x (String y post)) = false.
Proof.
  intros Hx Hy. revert prev. induction pre as [|c pre IH]; ssimpl; intros prev.
  - rewrite Hx, Hy. simpl. apply andb_false_r.
  - destruct (class c); rewrite IH; [apply andb_false_r | done].
Qed.

Lemma noAdjacent_app class prev s t :
  noAdjacent class prev s = true ->
  (forall c, In c (chars t) -> class c = false) ->
  noAdjacent class prev (s +:+ t) = true.
Proof.
  intros Hs Ht. revert prev Hs.
  induction s as [|c s IH]; ssimpl; intros prev Hs.
  - clear Hs. revert prev. induction t as [|c t IHt]; simpl; intros prev.
    + done.
    + rewrite (Ht c); [simpl|by left]. apply IHt. intros ? ?. apply Ht. by right.
  - destruct (class c).
    + apply andb_true_iff in Hs as [-> Hs]. by apply IH.
    + by apply IH.
Qed.

Lemma keep_none p s :
  (forall c, In c (chars s) -> p c = false) -> keep p s = EmptyString.
Proof.
  induction s as [|c s IH]; simpl; intros H; [done|].
  rewrite (H c); [|by left]. apply IH. intros ? ?. apply H. by right.
Qed.

Lemma keep_replaceRuns p class r b s :
  p r = false -> (forall c, class c = true -> p c = false) ->
  keep p (Js.replaceRuns class r b s) = keep p s.
Proof.
  intros Hr Hc. revert b. induction s as [|c s IH]; simpl; intros b; [done|].
  destruct (class c) eqn:E.
  - rewrite (Hc _ E). destruct b; simpl; rewrite ?Hr; apply IH.
  - simpl. by rewrite IH.
Qed.

Lemma keep_trimStart p s :
  (forall c, Js.isWhiteSpace c = true -> p c = false) ->
  keep p (Js.trimStart s) = keep p s.
Proof.
  intros Hw. induction s as [|c s IH]; simpl; [done|].
  destruct (Js.isWhiteSpace c) eqn:E; [|done]. by rewrite (Hw _ E).
Qed.

Lemma trimEnd_all_space s :
  Js.trimEnd s = EmptyString ->
  forall c, In c (chars s) -> Js.isWhiteSpace c = true.
Proof.
  induction s as [|a s IH]; simpl; [done|].
  destruct (Js.isWhiteSpace a) eqn:Ha; simpl; [|done].
  destruct (Js.trimEnd s) eqn:Et; simpl; [|done].
  intros _ c [<-|H]; [done | by apply IH].
Qed.

Lemma keep_trimEnd p s :
  (forall c, Js.isWhiteSpace c = true -> p c = false) ->
  keep p (Js.trimEnd s) = keep p s.
Proof.
  intros Hw. induction s as [|c s IH]; simpl; [done|].
  destruct (Js.isWhiteSpace c) eqn:E; simpl.
  - destruct (Js.trimEnd s) as [|a t] eqn:Et.
    + simpl. rewrite (Hw _ E). symmetry. apply keep_none.
      intros a Ha. apply Hw. by eapply trimEnd_all_space.
    + change (keep p (String c (String a t)) = (if p c then String c (keep p s) else keep p s)).
      change (keep p (String c (String a t)))
        with (if p c then String c (keep p (String a t))
              else keep p (String a t)).
      by rewrite (Hw _ E).
  - by rewrite IH.
Qed.

(** [replaceRuns] replaces every maximal run by one character. *)
Lemma replaceRuns_inRun class r s :
  Js.replaceRuns class r true s
  = Js.replaceRuns class r false (dropWhile class s).
Proof.
  induction s as [|c s IH]; simpl; [done|].
  destruct (class c) eqn:E; [done|]. simpl. by rewrite E.
Qed.

Lemma dropWhile_length class s :
  (String.length (dropWhile class s) <= String.length s)%nat.
Proof.
  induction s as [|c s IH]; simpl; [lia|].
  destruct (class c); simpl; lia.
Qed.

Lemma replaceRuns_Collapses class r s :
  Collapses class r s (Js.replaceRuns class r false s).
Proof.
  remember (String.length s) as n eqn:Hn.
  assert (Hle : (String.length s <= n)%nat) by lia. clear Hn.
  revert s Hle. induction n as [|n IH]; intros s Hle.
  - destruct s; [constructor | simpl in Hle; lia].
  - destruct s as [|c s]; [constructor|]. simpl in *.
    destruct (class c) eqn:E.
    + apply collapses_run; [done|]. rewrite replaceRuns_inRun. apply IH.
      pose proof (dropWhile_length class s). lia.
    + apply collapses_keep; [done|]. apply IH. lia.
Qed.

Lemma trimStart_spaces (s : string) :
  exists pre,
    s = pre +:+ Js.trimStart s
    /\ forall c, In c (chars pre) -> Js.isWhiteSpace c = true.
Proof.
  induction s as [|a s (pre & IH & Hpre)]; simpl.
  - by exists EmptyString.
  - destruct (Js.isWhiteSpace a) eqn:Ha.
    + exists (String a pre). rewrite append_cons, <- IH. split; [done|].
      intros c [<-|H]; [done | by apply Hpre].
    + by exists EmptyString.
Qed.

Lemma trimEnd_spaces (s : string) :
  exists post,
    s = Js.trimEnd s +:+ post
    /\ forall c, In c (chars post) -> Js.isWhiteSpace c = true.
Proof.
  induction s as [|a s (post & IH & Hpost)]; simpl.
  - by exists EmptyString.
  - destruct (Js.isWhiteSpace a && Js.isEmpty (Js.trimEnd s)) eqn:E.
    + exists (String a s). split; [done|].
      apply andb_true_iff in E as [Ha He]. apply isEmpty_true in He.
      intros c [<-|H]; [done | by eapply trimEnd_all_space].
    + exists post. rewrite append_cons, <- IH. done.
Qed.

(** The last character of a trimmed string is not white space. *)
Lemma trimEnd_last (s front : string) (c : ascii) :
  Js.trimEnd s = front +:+ String c EmptyString ->
  Js.isWhiteSpace c = false.
Proof.
  revert front. induction s as [|a s IH]; intros front; simpl.
  - by destruct front.
  - destruct (Js.isWhiteSpace a && Js.isEmpty (Js.trimEnd s)) eqn:E.
    + by destruct front.
    + destruct front as [|b front].
      * rewrite append_nil_l. intros [= -> Ht]. rewrite Ht in E.
        simpl in E. by rewrite andb_true_r in E.
      * rewrite append_cons. intros [= -> Ht]. by apply (IH front).
Qed.

Lemma trim_Trimmed (s : string) : Trimmed s (Js.trim s).
Proof.
  destruct (trimStart_spaces s) as (pre & Hs & Hpre).
  destruct (trimEnd_spaces (Js.trimStart s)) as (post & Ht & Hpost).
  exists pre, post. unfold Js.trim. rewrite <- Ht, <- Hs.
  repeat split; try done.
  - intros c rest. apply trim_head.
  - intros front c. apply trimEnd_last.
Qed.

(** ** The archive file name *)

Lemma sanitizeFilename_chars (filename : string) (c : ascii) :
  In c (chars (sanitizeFilename filename)) ->
  isForbidden c = false /\ (Js.isWhiteSpace c = true -> c = " "%char).
Proof.
  unfold sanitizeFilename. intros H. apply trim_chars in H.
  apply replaceRuns_chars in H as [->|[H Hw]]; [done|].
  apply replaceRuns_chars in H as [->|[H Hf]]; [done|].
  split; [done | congruence].
Qed.

Lemma sanitizeFilename_spaced (filename : string) :
  noAdjacent Js.isWhiteSpace false (sanitizeFilename filename) = true.
Proof.
  unfold sanitizeFilename.
  set (b := Js.replaceRuns Js.isWhiteSpace " " false _).
  assert (Hb : noAdjacent Js.isWhiteSpace false b = true)
    by by apply noAdjacent_replaceRuns.
  destruct (trim_middle b) as (pre & post & E). rewrite E in Hb.
  apply noAdjacent_app_inv in Hb as [_ Hb].
  by apply noAdjacent_app_inv in Hb as [Hb _].
Qed.

Lemma sanitizeFilename_ordinary (filename : string) :
  keep isOrdinary (sanitizeFilename filename) = keep isOrdinary filename.
Proof.
  assert (Hw : forall c, Js.isWhiteSpace c = true -> isOrdinary c = false).
  { intros c Hc. unfold isOrdinary. rewrite Hc, orb_true_r. done. }
  assert (Hf : forall c, isForbidden c = true -> isOrdinary c = false).
  { intros c Hc. unfold isOrdinary. by rewrite Hc. }
  unfold sanitizeFilename, Js.trim.
  rewrite keep_trimEnd, keep_trimStart by done.
  rewrite !keep_replaceRuns; done.
Qed.

Lemma tidyName_sanitized (filename : string) :
  tidyName (sanitizeFilename filename).
Proof.
  repeat split.
  - intros c H. by apply sanitizeFilename_chars in H as [? _].
  - intros c H. by apply sanitizeFilename_chars in H as [_ ?].
  - apply sanitizeFilename_spaced.
  - intros c rest. apply trim_head.
Qed.

Lemma tidyName_zip (stem : string) :
  stem <> EmptyString -> tidyName stem -> tidyName (stem +:+ ".zip").
Proof.
  intros Hne (Hf & Hw & Hadj & Hhead).
  assert (Hzip : forall c, In c (chars ".zip") ->
                 isForbidden c = false /\ Js.isWhiteSpace c = false).
  { simpl. intros c [<-|[<-|[<-|[<-|[]]]]]; done. }
  repeat split.
  - intros c. rewrite chars_app, in_app_iff. intros [H|H]; [by apply Hf|].
    by apply Hzip in H as [? _].
  - intros c. rewrite chars_app, in_app_iff. intros [H|H]; [by apply Hw|].
    apply Hzip in H as [_ H]. congruence.
  - apply noAdjacent_app; [done|]. intros c H. by apply Hzip in H as [_ ?].
  - destruct stem as [|a stem]; [done|]. rewrite append_cons.
    intros c rest [= <- _]. by eapply Hhead.
Qed.

(** C9. For every input string the name that [ensureZipFilename] produces is
    not empty and ends with [.zip]; it holds none of the forbidden
    characters, its only white space is single spaces with none in front.
    The sanitized name is the input with every run of forbidden characters
    replaced by a dash, then every run of white space replaced by one space,
    then trimmed at both ends, so that the characters that are neither
    forbidden nor white space nor dashes are those of the input in the same
    order.  An input that sanitizes to the empty string gives
    [downloaded-directory.zip], and a sanitized name that already ends with
    [.zip] gets no second suffix. *)
Theorem ensureZipFilename_spec (filename : string) :
  let cleaned := sanitizeFilename filename in
  let name := ensureZipFilename filename in
  name <> EmptyString
  /\ Js.endsWith name ".zip" = true
  /\ (forall c, In c (chars name) -> isForbidden c = false)
  /\ (forall c, In c (chars name) -> Js.isWhiteSpace c = true -> c = " "%char)
  /\ (forall pre post, name <> pre +:+ "  " +:+ post)
  /\ (forall c rest, name = String c rest -> Js.isWhiteSpace c = false)
  /\ (exists dashed spaced,
        Collapses isForbidden "-" filename dashed
        /\ Collapses Js.isWhiteSpace " " dashed spaced
        /\ Trimmed spaced cleaned)
  /\ keep isOrdinary cleaned = keep isOrdinary filename
  /\ name = (if Js.isEmpty cleaned then "downloaded-directory.zip"
             else if Js.endsWith cleaned ".zip" then cleaned
             else cleaned +:+ ".zip").
Proof.
  intros cleaned name.
  assert (Hname : name = (if Js.isEmpty cleaned then "downloaded-directory.zip"
                          else if Js.endsWith cleaned ".zip" then cleaned
                          else cleaned +:+ ".zip")).
  { subst name. unfold ensureZipFilename. fold cleaned.
    rewrite isEmpty_length. destruct (Js.isEmpty cleaned); done. }
  assert (Htidy : tidyName name /\ name <> EmptyString
                  /\ Js.endsWith name ".zip" = true).
  { rewrite Hname. destruct (Js.isEmpty cleaned) eqn:He.
    - split; [|done]. apply (tidyName_zip "downloaded-directory"); [done|].
      repeat split; try done.
      + intros c H. simpl in H.
        repeat (destruct H as [<-|H]; [done|]). done.
      + intros c H. simpl in H.
        repeat (destruct H as [<-|H]; [done|]). done.
      + by intros c rest [= <- _].
    - assert (Hne : cleaned <> EmptyString).
      { intros H. apply isEmpty_true in H. congruence. }
      destruct (Js.endsWith cleaned ".zip") eqn:Hz.
      + repeat split; try done. all: apply tidyName_sanitized.
      + split; [apply tidyName_zip; [done | apply tidyName_sanitized]|].
        split; [|apply endsWith_append].
        destruct cleaned; [done|]. by rewrite append_cons. }
  destruct Htidy as ((Hf & Hw & Hadj & Hhead) & Hne & Hz).
  repeat split; try done.
  - intros pre post E. rewrite E in Hadj.
    change (pre +:+ "  " +:+ post)
      with (pre +:+ String " " (String " " post)) in Hadj.
    by rewrite noAdjacent_pair in Hadj.
  - exists (Js.replaceRuns isForbidden "-" false filename),
      (Js.replaceRuns Js.isWhiteSpace " " false
         (Js.replaceRuns isForbidden "-" false filename)).
    split; [apply replaceRuns_Collapses|].
    split; [apply replaceRuns_Collapses | apply trim_Trimmed].
  - apply sanitizeFilename_ordinary.
Qed.

(** The theorem at the name [  my<>file:  name  ]. *)
Lemma ensureZipFilename_spec_witness :
  ensureZipFilename "  my<>file:  name  " = "my-file- name.zip"
  /\ ensureZipFilename "  my<>file:  name  " <> EmptyString.
Proof.
  split; [reflexivity|].
  exact (proj1 (ensureZipFilename_spec "  my<>file:  name  ")).
Defined.

(** ** The concurrency limit *)

Example parseInt_examples :
  Js.parseInt "20" = Some 20 /\ Js.parseInt "  7px" = Some 7
  /\ Js.parseInt "-5" = Some (-5) /\ Js.parseInt "+12.5" = Some 12
  /\ Js.parseInt "abc" = None /\ Js.parseInt EmptyString = None
  /\ Js.parseInt "-" = None /\ Js.parseInt "0x1f" = Some 0.
Proof. repeat split; reflexivity. Qed.

(** C4. Whatever the text of the concurrency field, the limit lies in
    [1,40]: a text that [parseInt] cannot read gives the default 20, a number
    below 1 gives 1, a number above 40 gives 40 and a number in [1,40] is
    used as it is; and that limit is the one handed to [pMap] in every pass
    of [downloadDirectory]. *)
Theorem safeConcurrency_spec (value : string) :
  1 <= safeConcurrency value <= 40
  /\ (Js.parseInt value = None -> safeConcurrency value = 20)
  /\ (forall c, Js.parseInt value = Some c -> c < 1 ->
      safeConcurrency value = 1)
  /\ (forall c, Js.parseInt value = Some c -> 40 < c ->
      safeConcurrency value = 40)
  /\ (forall c, Js.parseInt value = Some c -> 1 <= c <= 40 ->
      safeConcurrency value = c)
  /\ (forall opts form net s batch c,
        concurrencyField form = value ->
        In (batch, c) (passes (downloadDirectory opts form net s)) ->
        c = safeConcurrency value).
Proof.
  split; [|split; [|split; [|split; [|split]]]].
  - unfold safeConcurrency. destruct (Js.parseInt value); lia.
  - unfold safeConcurrency. by intros ->.
  - unfold safeConcurrency. intros c -> ?. lia.
  - unfold safeConcurrency. intros c -> ?. lia.
  - unfold safeConcurrency. intros c -> ?. lia.
  - intros opts form net s batch c <-. unfold downloadDirectory.
    destruct (listFiles net) as [files|e]; [|done].
    destruct (length files =? 0)%nat; [done|].
    destruct (length (filterFiles files (filter opts)) =? 0)%nat; [done|].
    destruct (existsb _ _); [done|]. cbv zeta.
    destruct (downloadBatch net (directory opts) 1 _ _) as [s1 rejected1].
    destruct rejected1.
    { simpl. intros [[= _ <-]|[]]. done. }
    destruct (0 <? length (failedFiles s1))%nat.
    + destruct (downloadBatch net (directory opts) 2 _ _) as [s2 rejected2].
      destruct rejected2; simpl; intros [[= _ <-]|[[= _ <-]|[]]]; done.
    + simpl. intros [[= _ <-]|[]]. done.
Qed.

(** The theorem at the texts [64], [0], [abc] and [8]. *)
Lemma safeConcurrency_spec_witness :
  safeConcurrency "64" = 40 /\ safeConcurrency "0" = 1
  /\ safeConcurrency "abc" = 20 /\ safeConcurrency "8" = 8.
Proof.
  split; [|split; [|split]].
  - apply (proj1 (proj2 (proj2 (proj2 (safeConcurrency_spec "64")))) 64);
      [reflexivity | lia].
  - apply (proj1 (proj2 (proj2 (safeConcurrency_spec "0"))) 0);
      [reflexivity | lia].
  - apply (proj1 (proj2 (safeConcurrency_spec "abc"))). reflexivity.
  - apply (proj1 (proj2 (proj2 (proj2 (proj2 (safeConcurrency_spec "8")))))
             8); [reflexivity | lia].
Defined.

(** Every option from 1 to 40, written in decimal, is used as it is. *)
Example safeConcurrency_options :
  forallb (fun c => safeConcurrency (pretty c) =? c) (seqZ 1 40) = true.
Proof. vm_compute. reflexivity. Qed.

(** ** The recent URL history *)

Lemma stringItems_strings (urls : list string) :
  stringItems (JString <$> urls) = urls.
Proof.
  induction urls as [|u urls IH]; [done|].
  rewrite fmap_cons. unfold stringItems in *. cbn. f_equal. exact IH.
Qed.

Lemma readRecentUrls_length (storage : gmap string StoredText) :
  (length (readRecentUrls storage) <= 7)%nat.
Proof.
  unfold readRecentUrls.
  destruct (default _ _) as [|[]]; simpl; try lia.
  rewrite length_take. lia.
Qed.

Lemma readRecentUrls_write urls (storage : gmap string StoredText) :
  readRecentUrls (writeRecentUrls urls storage) = take 7 urls.
Proof.
  unfold readRecentUrls, writeRecentUrls. rewrite lookup_insert_eq. simpl.
  rewrite stringItems_strings. apply take_take.
Qed.

Lemma storedRecent_write urls (storage : gmap string StoredText) :
  storedRecent (writeRecentUrls urls storage)
  = Some (JString <$> take 7 urls).
Proof. unfold storedRecent, writeRecentUrls. by rewrite lookup_insert_eq. Qed.

Lemma filter_other_not_in (url : string) (urls : list string) :
  ~ In url (List.filter (fun item => negb (String.eqb item url)) urls).
Proof.
  intros [_ H]%filter_In. by rewrite String.eqb_refl in H.
Qed.

(** C10. The history of recent URLs never holds more than 7 entries: what
    [readRecentUrls] returns has at most 7 entries whatever the storage
    holds, and what [writeRecentUrls] and [pushRecentUrl] store is an array of
    at most 7 strings; after [pushRecentUrl url] the history starts with [url]
    and holds it nowhere else, followed by the other entries it held, in
    their order. *)
Theorem recentUrls_invariants :
  (forall storage, (length (readRecentUrls storage) <= 7)%nat)
  /\ (forall urls storage,
        storedRecent (writeRecentUrls urls storage)
        = Some (JString <$> take 7 urls)
        /\ (length (take 7 urls) <= 7)%nat
        /\ readRecentUrls (writeRecentUrls urls storage) = take 7 urls)
  /\ (forall url storage,
        let others :=
          List.filter (fun item => negb (String.eqb item url))
            (readRecentUrls storage) in
        let rest := take 6 others in
        readRecentUrls (pushRecentUrl url storage) = url :: rest
        /\ storedRecent (pushRecentUrl url storage)
           = Some (JString <$> url :: rest)
        /\ ~ In url rest
        /\ (length (url :: rest) <= 7)%nat).
Proof.
  split; [apply readRecentUrls_length|]. split.
  - intros urls storage. split; [apply storedRecent_write|].
    split; [rewrite length_take; lia | apply readRecentUrls_write].
  - intros url storage others rest. unfold pushRecentUrl. fold others.
    rewrite readRecentUrls_write, storedRecent_write. simpl. fold rest.
    repeat split.
    + intros H. apply (filter_other_not_in url (readRecentUrls storage)).
      fold others. apply list_elem_of_In. apply list_elem_of_In in H.
      eapply elem_of_sublist; [exact H | apply sublist_take].
    + subst rest. rewrite length_take. lia.
Qed.

Example pushRecentUrl_example :
  readRecentUrls
    (pushRecentUrl "b" (writeRecentUrls ["a"; "b"; "c"] ∅))
  = ["b"; "a"; "c"].
Proof. vm_compute. reflexivity. Qed.

(** ** File selection *)

Lemma toLowerChar_idemp (c : ascii) :
  Js.toLowerChar (Js.toLowerChar c) = Js.toLowerChar c.
Proof. destruct c as [[] [] [] [] [] [] [] []]; reflexivity. Qed.

Lemma toLowerCase_idemp (s : string) :
  Js.toLowerCase (Js.toLowerCase s) = Js.toLowerCase s.
Proof.
  induction s as [|c s IH]; simpl; [done|].
  by rewrite toLowerChar_idemp, IH.
Qed.

Lemma toLowerCase_app (s t : string) :
  Js.toLowerCase (s +:+ t) = Js.toLowerCase s +:+ Js.toLowerCase t.
Proof. induction s as [|c s IH]; ssimpl; [done | by rewrite IH]. Qed.

(** A split of the lower-case form of a string comes from a split of the
    string. *)
Lemma toLowerCase_split (p x y : string) :
  Js.toLowerCase p = x +:+ y ->
  exists pre suf,
    p = pre +:+ suf /\ Js.toLowerCase pre = x /\ Js.toLowerCase suf = y.
Proof.
  revert p. induction x as [|a x IH]; intros p H.
  - exists EmptyString, p. by rewrite append_nil_l in H.
  - rewrite append_cons in H. destruct p as [|c p]; [done|].
    simpl in H. injection H as Ha H.
    destruct (IH _ H) as (pre & suf & -> & <- & <-).
    exists (String c pre), suf. rewrite append_cons. simpl. by rewrite Ha.
Qed.

(** For an extension in lower case, the test of [filterFiles] is the suffix
    match that ignores case. *)
Lemma endsWith_matchesSuffix (p e : string) :
  Js.toLowerCase e = e ->
  Js.endsWith (Js.toLowerCase p) e = true <-> matchesSuffix p e.
Proof.
  intros He. rewrite endsWith_spec. unfold matchesSuffix. split.
  - intros [x H]. apply toLowerCase_split in H as (pre & suf & -> & _ & H).
    exists pre, suf. by rewrite He.
  - intros (pre & suf & -> & H). exists (Js.toLowerCase pre).
    by rewrite toLowerCase_app, H, He.
Qed.

Lemma parseFilter_normalized (value : string) :
  Forall normalizedExtension (parseFilter value).
Proof.
  unfold parseFilter. apply Forall_fmap, Forall_forall.
  intros v Hv. apply list_elem_of_In, filter_In in Hv as [Hv _].
  apply list_elem_of_In, list_elem_of_fmap in Hv as (piece & -> & _).
  unfold normalizedExtension, compose. cbv beta.
  destruct (Js.startsWith (Js.toLowerCase (Js.trim piece)) ".") eqn:Hdot.
  - split; [apply toLowerCase_idemp | done].
  - split; [|apply startsWith_spec; eauto].
    rewrite toLowerCase_app, toLowerCase_idemp. done.
Qed.

Example parseFilter_example :
  parseFilter " TS, .Md ,,js " = [".ts"; ".md"; ".js"].
Proof. reflexivity. Qed.

Lemma filter_sublist {A} (f : A -> bool) (l : list A) :
  sublist (List.filter f l) l.
Proof.
  induction l as [|x l IH]; simpl; [constructor|].
  destruct (f x); by constructor.
Qed.

Lemma filter_idemp {A} (f : A -> bool) (l : list A) :
  List.filter f (List.filter f l) = List.filter f l.
Proof.
  induction l as [|x l IH]; simpl; [done|].
  destruct (f x) eqn:E; simpl; rewrite ?E, IH; done.
Qed.

(** C5. With a filter of extensions in lower case that start with a dot:
    the empty filter gives the list back; any other filter gives the files of
    the list whose path ends with one of the extensions when case is ignored,
    in the order of the list. *)
Theorem filterFiles_spec (files : list RepoFile)
    (extensions : list string) :
  Forall normalizedExtension extensions ->
  (extensions = [] -> filterFiles files extensions = files)
  /\ (extensions <> [] ->
      exists selected : RepoFile -> bool,
        (forall file,
           selected file = true <->
           exists e, In e extensions /\ matchesSuffix (path file) e)
        /\ filterFiles files extensions = List.filter selected files
        /\ sublist (filterFiles files extensions) files).
Proof.
  intros Hnorm. split; [by intros -> |]. intros Hne.
  exists (fun file =>
            existsb
              (fun extension =>
                 Js.endsWith (Js.toLowerCase (path file)) extension)
              extensions).
  split; [|split].
  - intros file. rewrite existsb_exists. split.
    + intros (e & He & H). exists e. split; [done|].
      apply endsWith_matchesSuffix; [|done].
      by eapply (proj1 (Forall_forall _ _) Hnorm), list_elem_of_In.
    + intros (e & He & H). exists e. split; [done|].
      apply endsWith_matchesSuffix; [|done].
      by eapply (proj1 (Forall_forall _ _) Hnorm), list_elem_of_In.
  - by destruct extensions.
  - destruct extensions; [done|]. apply filter_sublist.
Qed.

(** The theorem on two [.ts] and three [.md] files, filtered by [.ts]. *)
Lemma filterFiles_spec_witness :
  Forall normalizedExtension [".ts"]
  /\ length
       (filterFiles
          [ {| path := "src/a.ts"; size := Some 10; sha := "1" |};
            {| path := "README.md"; size := Some 20; sha := "2" |};
            {| path := "src/B.TS"; size := None; sha := "3" |};
            {| path := "docs/x.md"; size := Some 5; sha := "4" |};
            {| path := "docs/y.md"; size := Some 7; sha := "5" |} ]
          [".ts"]) = 2%nat
  /\ exists selected : RepoFile -> bool,
       filterFiles
         [ {| path := "src/a.ts"; size := Some 10; sha := "1" |};
           {| path := "README.md"; size := Some 20; sha := "2" |};
           {| path := "src/B.TS"; size := None; sha := "3" |};
           {| path := "docs/x.md"; size := Some 5; sha := "4" |};
           {| path := "docs/y.md"; size := Some 7; sha := "5" |} ]
         [".ts"]
       = List.filter selected
           [ {| path := "src/a.ts"; size := Some 10; sha := "1" |};
             {| path := "README.md"; size := Some 20; sha := "2" |};
             {| path := "src/B.TS"; size := None; sha := "3" |};
             {| path := "docs/x.md"; size := Some 5; sha := "4" |};
             {| path := "docs/y.md"; size := Some 7; sha := "5" |} ].
Proof.
  assert (H : Forall normalizedExtension [".ts"])
    by (constructor; [split; reflexivity | constructor]).
  split; [exact H|]. split; [reflexivity|].
  destruct (proj2 (filterFiles_spec
                     [ {| path := "src/a.ts"; size := Some 10; sha := "1" |};
                       {| path := "README.md"; size := Some 20; sha := "2" |};
                       {| path := "src/B.TS"; size := None; sha := "3" |};
                       {| path := "docs/x.md"; size := Some 5; sha := "4" |};
                       {| path := "docs/y.md"; size := Some 7; sha := "5" |} ]
                     [".ts"] H) ltac:(discriminate))
    as (selected & _ & E & _).
  exists selected. exact E.
Defined.

(** C6. Filtering is idempotent: filtering the filtered list again with the
    same filter changes nothing. *)
Theorem filterFiles_idempotent (files : list RepoFile)
    (extensions : list string) :
  filterFiles (filterFiles files extensions) extensions
  = filterFiles files extensions.
Proof. destruct extensions; [done|]. apply filter_idemp. Qed.

(** ** The size estimate *)

Lemma estimateBytes_from (files : list RepoFile) (start : Z) :
  fold_left
    (fun total file =>
       match size file with
       | Some n => total + n
       | None => total
       end)
    files start
  = start + sumOfSizes files.
Proof.
  revert start. induction files as [|f files IH]; intros start; simpl.
  - unfold sumOfSizes. simpl. lia.
  - rewrite IH. unfold sumOfSizes, reportedSize. rewrite fmap_cons. simpl.
    destruct (size f); simpl; lia.
Qed.

Lemma estimateBytes_sum (files : list RepoFile) :
  estimateBytes files = sumOfSizes files.
Proof. unfold estimateBytes. rewrite estimateBytes_from. lia. Qed.

(** ** One pass of the fetch executor *)

Lemma elem_of_filter_bool {A} (f : A -> bool) (l : list A) (x : A) :
  x ∈ List.filter f l <-> x ∈ l /\ f x = true.
Proof. rewrite !list_elem_of_In. apply filter_In. Qed.

Lemma filter_outcomes_length (net : Network) (pass : nat)
    (l : list RepoFile) :
  (length (List.filter (fun f => isFetched (fetch net pass f)) l)
   + length (List.filter (fun f => isFailed (fetch net pass f)) l)
   <= length l)%nat.
Proof.
  induction l as [|f l IH]; simpl; [lia|].
  destruct (fetch net pass f); simpl; lia.
Qed.

Section Settle.
Variables (net : Network) (dir : string) (pass : nat).

Lemma settleAll_cons (f : RepoFile) (l : list RepoFile) (s : Session) :
  settleAll net dir pass (f :: l) s
  = settleAll net dir pass l (settle dir s f (fetch net pass f)).
Proof. reflexivity. Qed.

Lemma settleAll_totalFiles (l : list RepoFile) (s : Session) :
  totalFiles (settleAll net dir pass l s) = totalFiles s.
Proof.
  revert s. induction l as [|f l IH]; intros s; [done|].
  rewrite settleAll_cons, IH. by destruct (fetch net pass f).
Qed.

Lemma settleAll_estimatedBytes (l : list RepoFile) (s : Session) :
  estimatedBytes (settleAll net dir pass l s) = estimatedBytes s.
Proof.
  revert s. induction l as [|f l IH]; intros s; [done|].
  rewrite settleAll_cons, IH. by destruct (fetch net pass f).
Qed.

Lemma settleAll_downloadedFiles (l : list RepoFile) (s : Session) :
  downloadedFiles (settleAll net dir pass l s)
  = downloadedFiles s
    + Z.of_nat
        (length (List.filter (fun f => isFetched (fetch net pass f)) l)).
Proof.
  revert s. induction l as [|f l IH]; intros s; [simpl; lia|].
  rewrite settleAll_cons, IH. simpl. destruct (fetch net pass f); simpl; lia.
Qed.

Lemma settleAll_failedFiles (l : list RepoFile) (s : Session) :
  failedFiles (settleAll net dir pass l s)
  = failedFiles s
    ++ (path <$> List.filter (fun f => isFailed (fetch net pass f)) l).
Proof.
  revert s. induction l as [|f l IH]; intros s.
  - simpl. by rewrite app_nil_r.
  - rewrite settleAll_cons, IH. simpl. destruct (fetch net pass f); simpl; [done| |done].
    by rewrite <- app_assoc.
Qed.

Lemma settleAll_zipFiles (l : list RepoFile) (s : Session) (name : string) :
  is_Some (zipFiles (settleAll net dir pass l s) !! name)
  <-> is_Some (zipFiles s !! name)
      \/ exists f, f ∈ l /\ relativePath dir f = name
                   /\ isFetched (fetch net pass f) = true.
Proof.
  revert s. induction l as [|f l IH]; intros s.
  - simpl. split; [by left|]. intros [?|(f & Hf & _)]; [done|].
    by apply elem_of_nil in Hf.
  - rewrite settleAll_cons, IH. clear IH. split.
    + intros [H|(g & Hg & ? & ?)].
      * destruct (fetch net pass f) as [blob| |] eqn:E; simpl in H; auto.
        destruct (decide (relativePath dir f = name)) as [Heq|Hne].
        -- right. exists f. rewrite E. split; [by left | done].
        -- rewrite lookup_insert_ne in H by done. auto.
      * right. exists g. split; [by right | done].
    + intros [H|(g & Hg & Hname & Hfetched)].
      * left. destruct (fetch net pass f) as [blob| |]; simpl; auto.
        destruct (decide (relativePath dir f = name)) as [->|Hne].
        -- rewrite lookup_insert_eq. eauto.
        -- by rewrite lookup_insert_ne.
      * apply elem_of_cons in Hg as [->|Hg].
        -- left. destruct (fetch net pass f) as [blob| |]; [|done|done].
           simpl. rewrite Hname, lookup_insert_eq. eauto.
        -- right. eauto.
Qed.

End Settle.

(** ** The passes of [downloadDirectory] *)

Lemma length_eqb_0 {A} (l : list A) :
  (length l =? 0)%nat = true <-> l = [].
Proof. destruct l; simpl; split; congruence. Qed.

Lemma length_ltb_0 {A} (l : list A) :
  (0 <? length l)%nat = true <-> l <> [].
Proof. destruct l; simpl; split; try congruence; done. Qed.

Lemma filterFiles_nil (extensions : list string) :
  filterFiles [] extensions = [].
Proof. by destruct extensions. Qed.

(** [downloadDirectory] once it has reached its passes. *)
Lemma downloadDirectory_passes (opts : Options) (form : Form)
    (net : Network) (s : Session) (filteredFiles : list RepoFile) :
  entersPasses opts net filteredFiles ->
  downloadDirectory opts form net s
  = let dir := directory opts in
    let concurrency := safeConcurrency (concurrencyField form) in
    let s1 := afterFirstPass net dir filteredFiles s in
    let first := (filteredFiles, concurrency) in
    if firstPassRejected net dir filteredFiles s then
      {| completion := Threw AbortError; session := s1;
         passes := [first]; saved := None |}
    else if (0 <? length (failedFiles s1))%nat then
      let targets := retryTargets filteredFiles s1 in
      let '(s2, rejected2) :=
        downloadBatch net dir 2 targets (clearFailed s1) in
      let second := (targets, concurrency) in
      if rejected2 then
        {| completion := Threw AbortError; session := s2;
           passes := [first; second]; saved := None |}
      else
        {| completion := Returned; session := s2;
           passes := [first; second];
           saved := Some (saveArchive opts form s2) |}
    else
      {| completion := Returned; session := s1;
         passes := [first];
         saved := Some (saveArchive opts form s1) |}.
Proof.
  intros (files & Hlist & Hfilt & Hne & Hblocked).
  unfold downloadDirectory. rewrite Hlist.
  destruct (length files =? 0)%nat eqn:E0.
  { apply length_eqb_0 in E0. subst files.
    rewrite filterFiles_nil in Hfilt. done. }
  rewrite <- Hfilt.
  destruct (length filteredFiles =? 0)%nat eqn:E1.
  { by apply length_eqb_0 in E1. }
  rewrite Hblocked. cbv zeta.
  unfold afterFirstPass, firstPassRejected.
  destruct (downloadBatch net (directory opts) 1 filteredFiles
              (startSession filteredFiles s)) as [s1 rejected1].
  reflexivity.
Qed.

Lemma afterFirstPass_eq net dir filteredFiles s :
  afterFirstPass net dir filteredFiles s
  = settleAll net dir 1 (settleOrder net 1 filteredFiles)
      (startSession filteredFiles s).
Proof. reflexivity. Qed.

Lemma afterFirstPass_last net dir filteredFiles s :
  afterFirstPass net dir filteredFiles s
  = firstPassState net dir filteredFiles s
      (length (settleOrder net 1 filteredFiles)).
Proof. unfold firstPassState. by rewrite firstn_all. Qed.

(** The session that [downloadDirectory] ends with is one of the sessions
    visited. *)
Lemma downloadDirectory_session_visited opts form net s filteredFiles :
  entersPasses opts net filteredFiles ->
  Visited net (directory opts) filteredFiles s
    (session (downloadDirectory opts form net s)).
Proof.
  intros H. rewrite (downloadDirectory_passes _ _ _ _ _ H). cbv zeta.
  destruct (firstPassRejected _ _ _ _) eqn:Hrej.
  { simpl. rewrite afterFirstPass_last. constructor. }
  destruct (0 <? length _)%nat eqn:Hfail.
  - destruct (downloadBatch net (directory opts) 2 _ _)
      as [s2 rejected2] eqn:E2.
    assert (Hs2 : s2 = retryPassState net (directory opts) filteredFiles s
                         (length (settleOrder net 2
                            (retryTargets filteredFiles
                               (afterFirstPass net (directory opts)
                                  filteredFiles s))))).
    { unfold retryPassState. cbv zeta. rewrite firstn_all.
      unfold downloadBatch in E2. by injection E2 as <- _. }
    assert (Hv : Visited net (directory opts) filteredFiles s s2).
    { rewrite Hs2. constructor; [done|]. by apply length_ltb_0. }
    by destruct rejected2.
  - simpl. rewrite afterFirstPass_last. constructor.
Qed.

(** ** The size estimate is static *)

(** C8. The estimate is the sum of the sizes the filtered descriptors report,
    a descriptor without size counting for 0; it is set when the totals are
    set and every session the job then goes through, whatever the fetches
    return, holds that same value, as does the session the job ends with. *)
Theorem estimatedBytes_static (opts : Options) (form : Form)
    (net : Network) (s : Session) (filteredFiles : list RepoFile) :
  entersPasses opts net filteredFiles ->
  estimateBytes filteredFiles = sumOfSizes filteredFiles
  /\ (forall v, Visited net (directory opts) filteredFiles s v ->
      estimatedBytes v = estimateBytes filteredFiles)
  /\ estimatedBytes (session (downloadDirectory opts form net s))
     = estimateBytes filteredFiles.
Proof.
  intros H.
  assert (Hv : forall v, Visited net (directory opts) filteredFiles s v ->
                         estimatedBytes v = estimateBytes filteredFiles).
  { intros v [n|n _ _].
    - unfold firstPassState. by rewrite settleAll_estimatedBytes.
    - unfold retryPassState. cbv zeta. rewrite settleAll_estimatedBytes.
      simpl. rewrite afterFirstPass_eq. by rewrite settleAll_estimatedBytes. }
  split; [apply estimateBytes_sum|]. split; [exact Hv|].
  by apply Hv, downloadDirectory_session_visited.
Qed.

(** The theorem on three files, one of them without size. *)
Lemma estimatedBytes_static_witness :
  estimateBytes [fileA; fileB; fileC] = 7
  /\ estimatedBytes
       (session
          (downloadDirectory plainOptions plainForm flakyNetwork
             resetSession))
     = estimateBytes [fileA; fileB; fileC].
Proof.
  assert (Henter : entersPasses plainOptions flakyNetwork
                     [fileA; fileB; fileC]).
  { exists [fileA; fileB; fileC]. repeat split; done. }
  split; [reflexivity|].
  apply (estimatedBytes_static plainOptions plainForm flakyNetwork
           resetSession [fileA; fileB; fileC] Henter).
Defined.

(** ** The progress invariant *)

Lemma includes_spec (l : list string) (p : string) :
  includes l p = true <-> p ∈ l.
Proof.
  unfold includes. rewrite existsb_exists, list_elem_of_In. split.
  - intros (x & Hx & E). apply String.eqb_eq in E. by subst.
  - intros H. exists p. by rewrite String.eqb_refl.
Qed.

Lemma retryTargets_sublist (filteredFiles : list RepoFile) (s : Session) :
  sublist (retryTargets filteredFiles s) filteredFiles.
Proof. apply filter_sublist. Qed.

Lemma retryTargets_NoDup (filteredFiles : list RepoFile) (s : Session) :
  NoDup (path <$> filteredFiles) ->
  NoDup (path <$> retryTargets filteredFiles s).
Proof.
  intros H. apply (sublist_NoDup _ _ H).
  apply fmap_sublist, retryTargets_sublist.
Qed.

(** With distinct paths there are no more files to retry than there are
    recorded failures. *)
Lemma retryTargets_length (filteredFiles : list RepoFile) (s : Session) :
  NoDup (path <$> filteredFiles) ->
  (length (retryTargets filteredFiles s) <= length (failedFiles s))%nat.
Proof.
  intros H. rewrite <- (length_fmap path).
  apply submseteq_length, NoDup_submseteq.
  - by apply retryTargets_NoDup.
  - intros p (f & -> & Hf)%list_elem_of_fmap.
    apply elem_of_filter_bool in Hf as [_ Hf]. by apply includes_spec.
Qed.

Lemma settleAll_progress net dir pass (l : list RepoFile) (s : Session) :
  downloadedFiles (settleAll net dir pass l s)
  + Z.of_nat (length (failedFiles (settleAll net dir pass l s)))
  <= downloadedFiles s + Z.of_nat (length (failedFiles s))
     + Z.of_nat (length l).
Proof.
  rewrite settleAll_downloadedFiles, settleAll_failedFiles.
  rewrite length_app, length_fmap.
  pose proof (filter_outcomes_length net pass l). lia.
Qed.

(** C3 (amended). For a job that runs alone, when the paths of the filtered
    descriptors are pairwise distinct and every mapper settles at most once,
    every session the job goes through in its first pass and in its retry
    pass satisfies [downloadedFiles + |failedFiles| <= totalFiles], and
    [totalFiles] stays the number of filtered descriptors; the session the
    job ends with is one of these sessions. *)
Theorem progress_within_total (opts : Options) (form : Form)
    (net : Network) (s : Session) (filteredFiles : list RepoFile) :
  entersPasses opts net filteredFiles ->
  NoDup (path <$> filteredFiles) ->
  (forall pass batch, settleOrder net pass batch ⊆+ batch) ->
  (forall v, Visited net (directory opts) filteredFiles s v ->
     withinTotal v /\ totalFiles v = Z.of_nat (length filteredFiles))
  /\ Visited net (directory opts) filteredFiles s
       (session (downloadDirectory opts form net s)).
Proof.
  intros Henter Hdup Horder.
  split; [|by apply downloadDirectory_session_visited].
  set (dir := directory opts).
  assert (Hfirst : forall n,
    withinTotal (firstPassState net dir filteredFiles s n)
    /\ totalFiles (firstPassState net dir filteredFiles s n)
       = Z.of_nat (length filteredFiles)).
  { intros n. unfold withinTotal, firstPassState.
    rewrite settleAll_totalFiles.
    pose proof (settleAll_progress net dir 1
                  (take n (settleOrder net 1 filteredFiles))
                  (startSession filteredFiles s)) as Hp.
    pose proof (submseteq_length _ _ (Horder 1%nat filteredFiles)) as Hlen.
    rewrite length_take in Hp. simpl in *. split; [lia | done]. }
  intros v [n|n _ _]; [apply Hfirst|].
  unfold withinTotal, retryPassState. cbv zeta.
  rewrite settleAll_totalFiles.
  set (s1 := afterFirstPass net dir filteredFiles s).
  destruct (Hfirst (length (settleOrder net 1 filteredFiles))) as [H1 H1t].
  rewrite <- afterFirstPass_last in H1, H1t. fold s1 in H1, H1t.
  pose proof (settleAll_progress net dir 2
                (take n (settleOrder net 2 (retryTargets filteredFiles s1)))
                (clearFailed s1)) as Hp.
  pose proof (submseteq_length _ _
                (Horder 2%nat (retryTargets filteredFiles s1))) as Hlen.
  pose proof (retryTargets_length filteredFiles s1 Hdup) as Htargets.
  rewrite length_take in Hp. unfold withinTotal in H1. simpl in *.
  split; [lia | done].
Qed.

(** The theorem on three files whose mappers settle in reverse order: the
    third and the second fail the first pass, both are retried, the third
    succeeds and the second fails again.  The invariant holds when two
    mappers of the first pass have settled, when one mapper of the retry
    pass has, and at the end, where it is an equality. *)
Lemma progress_within_total_witness :
  (failedFiles
     (afterFirstPass flakyNetwork "docs" [fileA; fileB; fileC] resetSession)
   = ["docs/sub/c.txt"; "docs/b.txt"]
   /\ passes
        (downloadDirectory plainOptions plainForm flakyNetwork resetSession)
      = [([fileA; fileB; fileC], 20); ([fileB; fileC], 20)])
  /\ withinTotal
       (firstPassState flakyNetwork "docs" [fileA; fileB; fileC] resetSession
          2)
  /\ withinTotal
       (retryPassState flakyNetwork "docs" [fileA; fileB; fileC] resetSession
          1)
  /\ withinTotal
       (session
          (downloadDirectory plainOptions plainForm flakyNetwork
             resetSession))
  /\ (downloadedFiles
        (session
           (downloadDirectory plainOptions plainForm flakyNetwork
              resetSession)) = 2
      /\ failedFiles
           (session
              (downloadDirectory plainOptions plainForm flakyNetwork
                 resetSession)) = ["docs/b.txt"]
      /\ totalFiles
           (session
              (downloadDirectory plainOptions plainForm flakyNetwork
                 resetSession)) = 3).
Proof.
  assert (Henter : entersPasses plainOptions flakyNetwork
                     [fileA; fileB; fileC]).
  { exists [fileA; fileB; fileC]. repeat split; done. }
  assert (Hdup : NoDup (path <$> [fileA; fileB; fileC])).
  { apply (bool_decide_unpack _). vm_compute. exact I. }
  assert (Horder : forall pass batch,
                     settleOrder flakyNetwork pass batch ⊆+ batch).
  { intros pass batch. simpl. apply Permutation_submseteq.
    apply reverse_Permutation. }
  assert (Hfailed :
    failedFiles
      (afterFirstPass flakyNetwork "docs" [fileA; fileB; fileC] resetSession)
    = ["docs/sub/c.txt"; "docs/b.txt"]) by (vm_compute; reflexivity).
  assert (Hrejected :
    firstPassRejected flakyNetwork "docs" [fileA; fileB; fileC] resetSession
    = false) by (vm_compute; reflexivity).
  assert (Hretry :
    failedFiles
      (afterFirstPass flakyNetwork "docs" [fileA; fileB; fileC] resetSession)
    <> []) by (rewrite Hfailed; discriminate).
  destruct (progress_within_total plainOptions plainForm flakyNetwork
              resetSession [fileA; fileB; fileC] Henter Hdup Horder)
    as [Hall Hfinal].
  split; [split; [exact Hfailed | vm_compute; reflexivity]|].
  split.
  { exact (proj1 (Hall _ (visited_first flakyNetwork "docs"
                            [fileA; fileB; fileC] resetSession 2))). }
  split.
  { exact (proj1 (Hall _ (visited_retry flakyNetwork "docs"
                            [fileA; fileB; fileC] resetSession 1
                            Hrejected Hretry))). }
  split; [exact (proj1 (Hall _ Hfinal))|].
  split; [vm_compute; reflexivity|]. split; vm_compute; reflexivity.
Defined.

(** C3 as stated fails on a listing that carries one path twice: the entry
    that failed the first pass and its twin that succeeded are both fetched
    again, and three downloads are counted for two files. *)
Lemma progress_within_total_counterexample :
  entersPasses plainOptions twinNetwork [twinA; twinB]
  /\ (forall pass batch, settleOrder twinNetwork pass batch = batch)
  /\ Visited twinNetwork "docs" [twinA; twinB] resetSession
       (session
          (downloadDirectory plainOptions plainForm twinNetwork
             resetSession))
  /\ downloadedFiles
       (session
          (downloadDirectory plainOptions plainForm twinNetwork
             resetSession)) = 3
  /\ totalFiles
       (session
          (downloadDirectory plainOptions plainForm twinNetwork
             resetSession)) = 2
  /\ ~ withinTotal
         (session
            (downloadDirectory plainOptions plainForm twinNetwork
               resetSession)).
Proof.
  assert (Henter : entersPasses plainOptions twinNetwork [twinA; twinB]).
  { exists [twinA; twinB]. repeat split; done. }
  split; [exact Henter|]. split; [done|].
  split; [apply (downloadDirectory_session_visited plainOptions plainForm
                   twinNetwork resetSession _ Henter)|].
  split; [reflexivity|]. split; [reflexivity|].
  unfold withinTotal. vm_compute. intros H. by apply H.
Qed.

(** ** The retry pass *)

Lemma path_inj (l : list RepoFile) (f g : RepoFile) :
  NoDup (path <$> l) -> f ∈ l -> g ∈ l -> path f = path g -> f = g.
Proof.
  induction l as [|x l IH]; intros Hdup Hf Hg E.
  - by apply elem_of_nil in Hf.
  - rewrite fmap_cons in Hdup. apply NoDup_cons in Hdup as [Hx Hdup].
    apply elem_of_cons in Hf as [->|Hf]; apply elem_of_cons in Hg as [->|Hg].
    + done.
    + exfalso. apply Hx. rewrite E. by apply list_elem_of_fmap_2.
    + exfalso. apply Hx. rewrite <- E. by apply list_elem_of_fmap_2.
    + by apply IH.
Qed.

Lemma never_aborted_not_rejected (net : Network) (pass : nat)
    (l : list RepoFile) :
  (forall file, fetch net pass file <> Aborted) ->
  existsb (fun file => isAborted (fetch net pass file)) l = false.
Proof.
  intros H. induction l as [|f l IH]; simpl; [done|].
  rewrite IH, orb_false_r. specialize (H f). by destruct (fetch net pass f).
Qed.

Lemma isFailed_true (o : FetchOutcome) : isFailed o = true <-> o = Failed.
Proof. destruct o; simpl; split; congruence. Qed.

Section Retry.
Variables (net : Network) (dir : string) (filteredFiles : list RepoFile)
  (s : Session).
Hypothesis paths_distinct : NoDup (path <$> filteredFiles).
Hypothesis settles_all : forall pass batch, settleOrder net pass batch ≡ₚ batch.

Let s1 := afterFirstPass net dir filteredFiles s.
Let failedFirst :=
  List.filter (fun file => isFailed (fetch net 1 file)) filteredFiles.

(** The failure record captured after the first pass. *)
Lemma captured_failures :
  failedFiles s1
  = path <$> List.filter (fun file => isFailed (fetch net 1 file))
               (settleOrder net 1 filteredFiles).
Proof.
  subst s1. rewrite afterFirstPass_eq, settleAll_failedFiles. done.
Qed.

Lemma captured_failures_elem (file : RepoFile) :
  file ∈ filteredFiles ->
  path file ∈ failedFiles s1 <-> fetch net 1 file = Failed.
Proof.
  intros Hin. rewrite captured_failures, list_elem_of_fmap. split.
  - intros (g & E & Hg). apply elem_of_filter_bool in Hg as [Hg Hfail].
    rewrite settles_all in Hg.
    rewrite (path_inj filteredFiles file g); try done.
    by apply isFailed_true.
  - intros Hfail. exists file. split; [done|].
    apply elem_of_filter_bool. rewrite settles_all.
    split; [done | by apply isFailed_true].
Qed.

(** The files retried are the files that failed the first pass, in the order
    of the listing. *)
Lemma retryTargets_failedFirst :
  retryTargets filteredFiles s1 = failedFirst.
Proof.
  unfold retryTargets. subst failedFirst. apply filter_ext_in.
  intros file Hin. apply list_elem_of_In in Hin.
  apply eq_true_iff_eq. rewrite includes_spec, isFailed_true.
  by apply captured_failures_elem.
Qed.

Lemma captured_nil : failedFiles s1 = [] <-> failedFirst = [].
Proof.
  split; intros H.
  - destruct failedFirst as [|file l] eqn:E; [done|]. exfalso.
    assert (Hin : file ∈ failedFirst) by (rewrite E; left).
    subst failedFirst. apply elem_of_filter_bool in Hin as [Hin Hfail].
    apply isFailed_true, captured_failures_elem in Hfail; [|done].
    rewrite H in Hfail. by apply elem_of_nil in Hfail.
  - destruct (failedFiles s1) as [|p l] eqn:E; [done|]. exfalso.
    assert (Hp : p ∈ failedFiles s1) by (rewrite E; left).
    rewrite captured_failures in Hp.
    apply list_elem_of_fmap in Hp as (g & -> & Hg).
    apply elem_of_filter_bool in Hg as [Hg Hfail]. rewrite settles_all in Hg.
    assert (Hin : g ∈ failedFirst)
      by (subst failedFirst; by apply elem_of_filter_bool).
    rewrite H in Hin. by apply elem_of_nil in Hin.
Qed.

(** The order in which the retried files settle. *)
Let order2 := settleOrder net 2 (retryTargets filteredFiles s1).
Let s2 := settleAll net dir 2 order2 (clearFailed s1).

Lemma order2_elem (file : RepoFile) :
  file ∈ order2 <-> file ∈ filteredFiles /\ fetch net 1 file = Failed.
Proof.
  subst order2. rewrite settles_all, retryTargets_failedFirst.
  subst failedFirst. rewrite elem_of_filter_bool, isFailed_true. done.
Qed.

Lemma retried_failures :
  failedFiles s2
  = path <$> List.filter (fun file => isFailed (fetch net 2 file)) order2.
Proof. subst s2. by rewrite settleAll_failedFiles. Qed.

Lemma retried_failures_NoDup : NoDup (failedFiles s2).
Proof.
  rewrite retried_failures.
  assert (H : NoDup (path <$> order2)).
  { subst order2. rewrite settles_all. by apply retryTargets_NoDup. }
  apply (sublist_NoDup _ _ H), fmap_sublist, filter_sublist.
Qed.

Lemma retried_failures_elem (p : string) :
  p ∈ failedFiles s2
  <-> exists file, file ∈ filteredFiles /\ path file = p
                   /\ fetch net 1 file = Failed /\ fetch net 2 file = Failed.
Proof.
  rewrite retried_failures, list_elem_of_fmap. split.
  - intros (file & -> & H). apply elem_of_filter_bool in H as [H H2].
    apply order2_elem in H as [Hin H1]. apply isFailed_true in H2.
    by exists file.
  - intros (file & Hin & <- & H1 & H2). exists file. split; [done|].
    apply elem_of_filter_bool. split; [by apply order2_elem|].
    by apply isFailed_true.
Qed.

Lemma first_pass_entries (entry : string) :
  is_Some (zipFiles s1 !! entry)
  <-> exists file, file ∈ filteredFiles /\ relativePath dir file = entry
                   /\ isFetched (fetch net 1 file) = true.
Proof.
  subst s1. rewrite afterFirstPass_eq, settleAll_zipFiles. simpl.
  rewrite lookup_empty. split.
  - intros [[? ?]|(file & Hin & ? & ?)]; [done|].
    rewrite settles_all in Hin. eauto.
  - intros (file & Hin & ? & ?). right. exists file.
    rewrite settles_all. eauto.
Qed.

Lemma retried_entries (entry : string) :
  is_Some (zipFiles s2 !! entry)
  <-> exists file,
        file ∈ filteredFiles /\ relativePath dir file = entry
        /\ (isFetched (fetch net 1 file) = true
            \/ fetch net 1 file = Failed
               /\ isFetched (fetch net 2 file) = true).
Proof.
  subst s2. rewrite settleAll_zipFiles.
  change (zipFiles (clearFailed s1)) with (zipFiles s1).
  rewrite first_pass_entries. split.
  - intros [(file & ? & ? & ?)|(file & Hin & ? & ?)].
    + exists file. auto.
    + apply order2_elem in Hin as [? ?]. exists file. auto.
  - intros (file & Hin & ? & [?|[? ?]]).
    + left. eauto.
    + right. exists file. split; [by apply order2_elem | done].
Qed.

End Retry.

(** C1 (amended). For a filtered list whose paths are pairwise distinct, when
    every mapper settles and none is aborted: the first pass runs over the
    whole list; if it recorded failures, the record is emptied and one retry
    pass runs, with the same concurrency limit, over exactly the files whose
    path was recorded, which are the files that failed the first pass; no
    other pass runs.  At the end the failure record holds no path twice and
    holds exactly the paths of the files that failed both passes, so it is
    empty when every file that failed the first pass succeeded in the retry;
    the job returns normally and saves the zip, whose entries are the
    relative paths of the files fetched in either pass. *)
Theorem retry_once (opts : Options) (form : Form) (net : Network)
    (s : Session) (filteredFiles : list RepoFile) :
  entersPasses opts net filteredFiles ->
  NoDup (path <$> filteredFiles) ->
  (forall pass batch, settleOrder net pass batch ≡ₚ batch) ->
  (forall pass file, fetch net pass file <> Aborted) ->
  let dir := directory opts in
  let out := downloadDirectory opts form net s in
  let limit := safeConcurrency (concurrencyField form) in
  let captured := failedFiles (afterFirstPass net dir filteredFiles s) in
  let targets :=
    List.filter (fun file => includes captured (path file)) filteredFiles in
  passes out
  = (filteredFiles, limit)
    :: (if decide (captured = []) then [] else [(targets, limit)])
  /\ failedFiles (retryPassState net dir filteredFiles s 0) = []
  /\ targets
     = List.filter (fun file => isFailed (fetch net 1 file)) filteredFiles
  /\ NoDup (failedFiles (session out))
  /\ (forall p,
        p ∈ failedFiles (session out)
        <-> exists file,
              file ∈ filteredFiles /\ path file = p
              /\ fetch net 1 file = Failed /\ fetch net 2 file = Failed)
  /\ ((forall file,
         file ∈ filteredFiles -> fetch net 1 file = Failed ->
         isFetched (fetch net 2 file) = true) ->
      failedFiles (session out) = [])
  /\ completion out = Returned
  /\ (exists name, saved out = Some (name, zipFiles (session out)))
  /\ (forall entry,
        is_Some (zipFiles (session out) !! entry)
        <-> exists file,
              file ∈ filteredFiles /\ relativePath dir file = entry
              /\ (isFetched (fetch net 1 file) = true
                  \/ fetch net 1 file = Failed
                     /\ isFetched (fetch net 2 file) = true)).
Proof.
  intros Henter Hdup Horder Hnoabort dir out limit captured targets.
  assert (Htargets : targets
            = List.filter (fun file => isFailed (fetch net 1 file))
                filteredFiles)
    by apply (retryTargets_failedFirst net dir filteredFiles s Hdup Horder).
  assert (Hmem : forall p,
            (exists file, file ∈ filteredFiles /\ path file = p
                          /\ fetch net 1 file = Failed
                          /\ fetch net 2 file = Failed) ->
            captured <> []).
  { intros p (file & Hin & _ & H1 & _) Hnil.
    apply (captured_failures_elem net dir filteredFiles s Hdup Horder)
      in H1; [|done].
    fold dir captured in H1. rewrite Hnil in H1. by apply elem_of_nil in H1. }
  assert (Hout : out
            = if decide (captured = []) then
                {| completion := Returned;
                   session := afterFirstPass net dir filteredFiles s;
                   passes := [(filteredFiles, limit)];
                   saved :=
                     Some (saveArchive opts form
                             (afterFirstPass net dir filteredFiles s)) |}
              else
                let s2 :=
                  settleAll net dir 2
                    (settleOrder net 2
                       (retryTargets filteredFiles
                          (afterFirstPass net dir filteredFiles s)))
                    (clearFailed (afterFirstPass net dir filteredFiles s)) in
                {| completion := Returned; session := s2;
                   passes := [(filteredFiles, limit); (targets, limit)];
                   saved := Some (saveArchive opts form s2) |}).
  { subst out. rewrite (downloadDirectory_passes _ _ _ _ _ Henter).
    cbv zeta. fold dir limit captured.
    unfold firstPassRejected, downloadBatch. cbn [snd].
    rewrite never_aborted_not_rejected by apply Hnoabort.
    destruct (decide (captured = [])) as [Hnil|Hsome].
    - rewrite Hnil. reflexivity.
    - assert (Hlt : (0 <? length captured)%nat = true)
        by by apply length_ltb_0.
      rewrite Hlt. rewrite never_aborted_not_rejected by apply Hnoabort.
      reflexivity. }
  rewrite Hout. clear Hout.
  split; [by destruct (decide (captured = []))|].
  split; [done|]. split; [exact Htargets|].
  destruct (decide (captured = [])) as [Hnil|Hsome]; cbn [session completion saved].
  - fold captured. rewrite Hnil.
    split; [constructor|]. split.
    { intros p. split; [by intros ?%elem_of_nil|].
      intros H. by apply Hmem in H. }
    split; [done|]. split; [done|]. split; [eauto|].
    intros entry.
    rewrite (first_pass_entries net dir filteredFiles s Horder). split.
    + intros (file & ? & ? & ?). exists file. auto.
    + intros (file & Hin & ? & [?|[H1 _]]); [eauto|]. exfalso.
      apply (captured_failures_elem net dir filteredFiles s Hdup Horder)
        in H1; [|done].
      fold dir captured in H1. rewrite Hnil in H1.
      by apply elem_of_nil in H1.
  - cbv zeta. cbn [session completion saved].
    split; [apply (retried_failures_NoDup net dir filteredFiles s Hdup Horder)|].
    split; [apply (retried_failures_elem net dir filteredFiles s Hdup Horder)|].
    split.
    { intros Hall.
      destruct (failedFiles (settleAll net dir 2 _ _)) as [|p l] eqn:E;
        [done|]. exfalso.
      assert (Hp : p ∈ p :: l) by left. rewrite <- E in Hp.
      apply (retried_failures_elem net dir filteredFiles s Hdup Horder) in Hp
        as (file & Hin & _ & H1 & H2).
      specialize (Hall file Hin H1). by rewrite H2 in Hall. }
    split; [done|]. split; [eauto|].
    apply (retried_entries net dir filteredFiles s Hdup Horder).
Qed.

(** The theorem on three files, of which the second fails twice and the third
    once, the mappers settling in reverse order. *)
Lemma retry_once_witness :
  completion
    (downloadDirectory plainOptions plainForm flakyNetwork resetSession)
  = Returned
  /\ failedFiles
       (session
          (downloadDirectory plainOptions plainForm flakyNetwork
             resetSession))
     = ["docs/b.txt"]
  /\ passes
       (downloadDirectory plainOptions plainForm flakyNetwork resetSession)
     = [([fileA; fileB; fileC], 20); ([fileB; fileC], 20)].
Proof.
  assert (Henter : entersPasses plainOptions flakyNetwork
                     [fileA; fileB; fileC]).
  { exists [fileA; fileB; fileC]. repeat split; done. }
  assert (Hdup : NoDup (path <$> [fileA; fileB; fileC])).
  { apply (bool_decide_unpack _). vm_compute. exact I. }
  assert (Horder : forall pass batch,
                     settleOrder flakyNetwork pass batch ≡ₚ batch).
  { intros pass batch. simpl. apply reverse_Permutation. }
  assert (Hnoabort : forall pass file,
                       fetch flakyNetwork pass file <> Aborted).
  { intros pass file. simpl.
    destruct (String.eqb (sha file) "bbbb"); [done|].
    destruct (String.eqb (sha file) "cccc" && (pass =? 1)%nat); done. }
  destruct (retry_once plainOptions plainForm flakyNetwork resetSession
              [fileA; fileB; fileC] Henter Hdup Horder Hnoabort)
    as (_ & _ & _ & _ & _ & _ & Hc & _).
  split; [exact Hc|]. split; reflexivity.
Defined.

(** C1 as stated fails on a listing that carries one path twice: both entries
    are retried, both fail again, and the path stands twice in the final
    failure record. *)
Lemma retry_once_counterexample :
  entersPasses plainOptions deadNetwork [twinA; twinB]
  /\ (forall pass batch, settleOrder deadNetwork pass batch ≡ₚ batch)
  /\ (forall pass file, fetch deadNetwork pass file <> Aborted)
  /\ fetch deadNetwork 1 twinA = Failed
  /\ fetch deadNetwork 2 twinA = Failed
  /\ completion
       (downloadDirectory plainOptions plainForm deadNetwork resetSession)
     = Returned
  /\ failedFiles
       (session
          (downloadDirectory plainOptions plainForm deadNetwork
             resetSession))
     = [path twinA; path twinA]
  /\ ~ NoDup
         (failedFiles
            (session
               (downloadDirectory plainOptions plainForm deadNetwork
                  resetSession))).
Proof.
  split. { exists [twinA; twinB]. repeat split; done. }
  split; [done|]. split; [done|].
  split; [done|]. split; [done|]. split; [reflexivity|].
  split; [reflexivity|].
  change (~ NoDup [path twinA; path twinA]).
  intros H. apply NoDup_cons in H as [H _]. apply H. left.
Qed.

(** ** Blocked names *)

Lemma startsWithFold_spec (s w : string) :
  Js.startsWithFold s w = true
  <-> exists mid post, s = mid +:+ post /\ foldCase mid = w.
Proof.
  revert s. induction w as [|b w IH]; intros s.
  - split; [|done]. intros _. by exists EmptyString, s.
  - destruct s as [|a s]; simpl.
    + split; [done|]. intros (mid & post & E & H).
      destruct mid; [done|]. by rewrite append_cons in E.
    + rewrite andb_true_iff, IH, Ascii.eqb_eq. split.
      * intros [<- (mid & post & -> & <-)].
        exists (String a mid), post. by rewrite append_cons.
      * intros (mid & post & E & H). destruct mid as [|c mid]; [done|].
        rewrite append_cons in E. simpl in H.
        injection E as -> ->. injection H as H1 H2. eauto.
Qed.

(** [includesFold s w]: the word stands somewhere in [s], case apart. *)
Lemma includesFold_spec (s w : string) :
  Js.includesFold s w = true
  <-> exists pre mid post, s = pre +:+ mid +:+ post /\ foldCase mid = w.
Proof.
  induction s as [|a s IH].
  - simpl. rewrite orb_false_r, startsWithFold_spec. split.
    + intros (mid & post & E & H). by exists EmptyString, mid, post.
    + intros (pre & mid & post & E & H). destruct pre; [|done].
      rewrite append_nil_l in E. eauto.
  - change (Js.includesFold (String a s) w)
      with (Js.startsWithFold (String a s) w || Js.includesFold s w).
    rewrite orb_true_iff, startsWithFold_spec, IH. split.
    + intros [(mid & post & E & H)|(pre & mid & post & E & H)].
      * by exists EmptyString, mid, post.
      * exists (String a pre), mid, post. by rewrite append_cons, E.
    + intros (pre & mid & post & E & H). destruct pre as [|c pre].
      * left. rewrite append_nil_l in E. eauto.
      * right. rewrite append_cons in E. injection E as -> ->. eauto.
Qed.

Example blockedWords_examples :
  blockedWords_test "tools/AntiVirus/readme.md" = true
  /\ blockedWords_test "src/TROJAN.js" = true
  /\ blockedWords_test "src/index.ts" = false.
Proof. repeat split; reflexivity. Qed.

(** C7. When a path of the filtered list matches the blocked words, the job
    throws its error before the first pass: no [pMap] call is made, hence no
    file is fetched, nothing is saved and the session is as it was. *)
Theorem blocked_before_fetch (opts : Options) (form : Form) (net : Network)
    (s : Session) (files : list RepoFile) :
  listFiles net = Listed files ->
  existsb (fun file => blockedWords_test (path file))
    (filterFiles files (filter opts)) = true ->
  let out := downloadDirectory opts form net s in
  completion out
  = Threw (Error "Suspicious filename found. Download canceled.")
  /\ passes out = []
  /\ saved out = None
  /\ session out = s.
Proof.
  intros Hlist Hblocked out. subst out. unfold downloadDirectory.
  rewrite Hlist.
  destruct (length files =? 0)%nat eqn:E0.
  { apply length_eqb_0 in E0. subst files.
    by rewrite filterFiles_nil in Hblocked. }
  destruct (length (filterFiles files (filter opts)) =? 0)%nat eqn:E1.
  { apply length_eqb_0 in E1. by rewrite E1 in Hblocked. }
  rewrite Hblocked. done.
Qed.

(** The theorem on a listing with one blocked name among the files kept. *)
Lemma blocked_before_fetch_witness :
  passes
    (downloadDirectory plainOptions plainForm
       {| listFiles :=
            Listed [fileA;
                    {| path := "docs/Malware.bin"; size := Some 9;
                       sha := "dddd" |}];
          fetch := fun _ _ => Fetched "data";
          settleOrder := fun _ batch => batch |}
       resetSession)
  = [].
Proof.
  apply (blocked_before_fetch plainOptions plainForm _ resetSession
           [fileA;
            {| path := "docs/Malware.bin"; size := Some 9; sha := "dddd" |}]).
  - reflexivity.
  - reflexivity.
Defined.

(** ** The queue *)

Lemma deliver_history (events : list UiEvent) (app : App) :
  history (deliver events app) = history app.
Proof.
  revert app. induction events as [|e events IH]; intros app; [done|].
  unfold deliver in *. simpl. rewrite IH. by destruct e.
Qed.

(** Escape leaves the queue alone. *)
Lemma deliver_escape_queue (events : list UiEvent) (app : App) :
  Forall (eq PressEscape) events -> queue (deliver events app) = queue app.
Proof.
  intros H. revert app. induction H as [|e events <- _ IH]; intros app.
  - done.
  - unfold deliver in *. simpl. by rewrite IH.
Qed.

(** Without pushes, the queue is emptied by [clearAll] and stays empty. *)
Lemma deliver_cleared_queue (events : list UiEvent) (app : App) :
  forallb (fun e => negb (isEnqueue e)) events = true ->
  queue app = [] -> queue (deliver events app) = [].
Proof.
  revert app. induction events as [|e events IH]; intros app He Hq; [done|].
  simpl in He. apply andb_true_iff in He as [He1 He2].
  unfold deliver in *. simpl. apply IH; [done|].
  destruct e; simpl; try done.
Qed.

Lemma deliver_cancel_queue (events : list UiEvent) (app : App) :
  forallb (fun e => negb (isEnqueue e)) events = true ->
  In ClickCancel events -> queue (deliver events app) = [].
Proof.
  revert app. induction events as [|e events IH]; intros app He Hin; [done|].
  simpl in He. apply andb_true_iff in He as [He1 He2].
  destruct Hin as [->|Hin].
  - by apply (deliver_cleared_queue events (clearAll app)).
  - unfold deliver in *. simpl. by apply IH.
Qed.

Lemma tryBlock_history w url item app :
  history (fst (tryBlock w url item app)) = history app.
Proof.
  unfold tryBlock. destruct (resolution w) as [[error|u r g p d|u r g d p]|e];
    try done.
  - destruct (p && negb _); [done|]. unfold downloadFullRepository.
    destruct p; [|by destruct (item_filename item) as [[]|]].
    destruct (archiveFetch w); by destruct (item_filename item) as [[]|].
  - destruct (p && negb _); [done|].
    by destruct (item_filename item) as [[]|].
Qed.

Lemma tryBlock_queue w url item app :
  queue (fst (tryBlock w url item app)) = queue app.
Proof.
  unfold tryBlock. destruct (resolution w) as [[error|u r g p d|u r g d p]|e];
    try done.
  - destruct (p && negb _); [done|]. unfold downloadFullRepository.
    destruct p; [|by destruct (item_filename item) as [[]|]].
    destruct (archiveFetch w); by destruct (item_filename item) as [[]|].
  - destruct (p && negb _); [done|].
    by destruct (item_filename item) as [[]|].
Qed.

Lemma tryBlock_done w url item app e a :
  snd (tryBlock w url item app) = Done e a -> e <> Canceled.
Proof.
  unfold tryBlock. destruct (resolution w) as [[error|u r g p d|u r g d p]|?];
    try done.
  - simpl. by intros [= <- _].
  - destruct (p && negb _); [by intros [= <- _]|].
    unfold downloadFullRepository.
    destruct p; [|by intros [= <- _]].
    destruct (archiveFetch w); simpl; try done. by intros [= <- _].
  - destruct (p && negb _); [by intros [= <- _]|]. simpl.
    destruct (completion _); [|done]. by intros [= <- _].
Qed.

(** A job that ends cancelled went through its [try] block, which raised;
    the call has added one record, without artifact, and left the queue as
    the handlers that ran in the meantime made it. *)
Lemma runDownload_canceled w item app r :
  last (history (runDownload w item app)) = Some r ->
  ending r = Canceled ->
  history (runDownload w item app) = history app ++ [r]
  /\ job r = item
  /\ artifact r = None
  /\ queue (runDownload w item app)
     = queue (deliver (interrupts w) app).
Proof.
  unfold runDownload.
  destruct (normalizedUrl w) as [url|].
  2: { simpl. rewrite last_snoc. by intros [= <-]. }
  destruct (blockedWords_test url).
  { simpl. rewrite last_snoc. by intros [= <-]. }
  destruct (negb (onLine w)).
  { simpl. rewrite last_snoc. by intros [= <-]. }
  pose proof (tryBlock_history w url item (setController (Some false) app))
    as Hh.
  pose proof (tryBlock_queue w url item (setController (Some false) app))
    as Hq.
  pose proof (tryBlock_done w url item (setController (Some false) app))
    as Hd.
  destruct (tryBlock w url item (setController (Some false) app))
    as [app1 result].
  simpl in *. rewrite deliver_history, Hh, last_snoc.
  intros [= <-] Hend. destruct result as [e a|e]; simpl in *.
  - by destruct (Hd e a eq_refl).
  - repeat split; try done. clear -Hq.
    revert app app1 Hq. induction (interrupts w) as [|ev evs IH];
      intros app app1 Hq; [done|].
    unfold deliver in *. simpl. apply IH. by destruct ev; simpl; rewrite ?Hq.
Qed.

Lemma runDownload_history w item app :
  exists r, history (runDownload w item app) = history app ++ [r]
            /\ job r = item.
Proof.
  unfold runDownload.
  destruct (normalizedUrl w) as [url|]; [|by eexists].
  destruct (blockedWords_test url); [by eexists|].
  destruct (negb (onLine w)); [by eexists|].
  pose proof (tryBlock_history w url item (setController (Some false) app))
    as Hh.
  destruct (tryBlock w url item (setController (Some false) app))
    as [app1 result].
  simpl in *. rewrite deliver_history, Hh. by destruct result; eexists.
Qed.

Lemma processLoop_step w worlds item rest app :
  queue app = item :: rest ->
  processLoop (w :: worlds) app
  = processLoop worlds (runDownload w item (setQueue rest app)).
Proof. intros H. simpl. by rewrite H. Qed.

Lemma processLoop_idle worlds app :
  queue app = [] -> processLoop worlds app = setProcessing false app.
Proof. intros H. destruct worlds; simpl; by rewrite H. Qed.

Lemma processLoop_history worlds app :
  exists tail, history (processLoop worlds app) = history app ++ tail.
Proof.
  revert app. induction worlds as [|w worlds IH]; intros app.
  - exists []. simpl. rewrite app_nil_r. by destruct (queue app).
  - simpl. destruct (queue app) as [|item rest] eqn:E.
    + exists []. by rewrite app_nil_r.
    + destruct (IH (runDownload w item (setQueue rest app))) as [tail ->].
      destruct (runDownload_history w item (setQueue rest app))
        as (r & -> & _).
      exists (r :: tail). simpl. by rewrite <- app_assoc.
Qed.

(** C2 (amended). When the job at the head of the queue ends cancelled, it
    has saved no archive, and the loop of the queue goes on from the state
    that job left.  If the cancellation came from the Escape key alone, the
    entries behind the cancelled job are untouched and the loop starts the
    next of them without any action of the caller.  If it came from the
    Cancel button, and nothing was pushed meanwhile, the queue has been
    emptied and the loop ends without starting another job. *)
Theorem cancel_and_queue (w : JobWorld) (worlds : list JobWorld)
    (item : QueueItem) (rest : list QueueItem) (app : App) (r : JobRecord) :
  queue app = item :: rest ->
  let after := runDownload w item (setQueue rest app) in
  last (history after) = Some r ->
  ending r = Canceled ->
  (history after = history app ++ [r] /\ job r = item /\ artifact r = None)
  /\ processLoop (w :: worlds) app = processLoop worlds after
  /\ (Forall (eq PressEscape) (interrupts w) ->
      queue after = rest
      /\ forall next rest' w' worlds',
           rest = next :: rest' -> worlds = w' :: worlds' ->
           exists r' tail,
             history (processLoop (w :: worlds) app)
             = history app ++ r :: r' :: tail
             /\ job r' = next)
  /\ (In ClickCancel (interrupts w) ->
      forallb (fun e => negb (isEnqueue e)) (interrupts w) = true ->
      queue after = []
      /\ processLoop (w :: worlds) app = setProcessing false after).
Proof.
  intros Hq after Hlast Hend.
  destruct (runDownload_canceled w item (setQueue rest app) r Hlast Hend)
    as (Hhist & Hjob & Hart & Hqueue).
  fold after in Hhist, Hqueue.
  assert (Hstep : processLoop (w :: worlds) app = processLoop worlds after)
    by by apply processLoop_step.
  split; [done|]. split; [done|]. split.
  - intros Hesc.
    assert (Hrest : queue after = rest).
    { rewrite Hqueue. by rewrite deliver_escape_queue. }
    split; [done|]. intros next rest' w' worlds' -> ->.
    rewrite Hstep, (processLoop_step w' worlds' next rest' after Hrest).
    destruct (processLoop_history worlds'
                (runDownload w' next (setQueue rest' after))) as [tail ->].
    destruct (runDownload_history w' next (setQueue rest' after))
      as (r' & -> & Hjob').
    exists r', tail. split; [|done]. simpl. rewrite Hhist.
    by rewrite <- !app_assoc.
  - intros Hin Hne.
    assert (Hnil : queue after = []).
    { rewrite Hqueue. by apply deliver_cancel_queue. }
    split; [done|]. rewrite Hstep. by apply processLoop_idle.
Qed.

(** The theorem on two queued jobs, the first cancelled with Escape. *)
Lemma cancel_and_queue_witness :
  processLoop [escapeWorld; calmWorld] idleApp
  = processLoop [calmWorld]
      (runDownload escapeWorld jobOne (setQueue [jobTwo] idleApp)).
Proof.
  apply (cancel_and_queue escapeWorld [calmWorld] jobOne [jobTwo] idleApp
           {| job := jobOne; ending := Canceled; artifact := None |}).
  - reflexivity.
  - vm_compute. reflexivity.
  - reflexivity.
Defined.

(** C2 as stated fails: with two jobs queued and the first cancelled with
    the Escape key while its files are fetched, the first ends cancelled
    without archive, and the loop starts the second job just the same, which
    runs to its end and saves its archive. *)
Lemma cancel_and_queue_counterexample :
  ending <$> history (processQueue [escapeWorld; calmWorld] idleApp)
  = [Canceled; Finished]
  /\ started (processQueue [escapeWorld; calmWorld] idleApp)
     = [jobOne; jobTwo]
  /\ hasArtifact <$> history (processQueue [escapeWorld; calmWorld] idleApp)
     = [false; true]
  /\ started (processQueue [escapeWorld; calmWorld] idleApp) <> [jobOne].
Proof.
  assert (H : started (processQueue [escapeWorld; calmWorld] idleApp)
              = [jobOne; jobTwo]) by (vm_compute; reflexivity).
  split; [vm_compute; reflexivity|]. split; [exact H|].
  split; [|by rewrite H].
  vm_compute. reflexivity.
Qed.

Example cancel_button_example :
  started (processQueue [cancelWorld; calmWorld] idleApp) = [jobOne]
  /\ queue (processQueue [cancelWorld; calmWorld] idleApp) = []
  /\ isProcessingQueue (processQueue [cancelWorld; calmWorld] idleApp)
     = false.
Proof. repeat split; vm_compute; reflexivity. Qed.

(** ** Scenarios *)

(** Three files, one failing in both passes: the job completes, two files are
    in the archive under their paths relative to the directory, the third is
    reported. *)
Example scenario_partial_failure :
  let out :=
    downloadDirectory plainOptions plainForm flakyNetwork resetSession in
  completion out = Returned
  /\ totalFiles (session out) = 3
  /\ downloadedFiles (session out) = 2
  /\ failedFiles (session out) = ["docs/b.txt"]
  /\ fst <$> saved out = Some "octo-demo-main-docs.zip"
  /\ base.size (zipFiles (session out)) = 2%nat
  /\ zipFiles (session out) !! "a.txt" = Some "data"
  /\ zipFiles (session out) !! "sub/c.txt" = Some "data".
Proof. vm_compute. repeat split; reflexivity. Qed.

(** The first job of [escapeWorld]: every fetch aborted, the call leaves with
    the abort and saves nothing. *)
Example scenario_cancelled :
  let out :=
    downloadDirectory plainOptions plainForm (network escapeWorld)
      resetSession in
  completion out = Threw AbortError /\ saved out = None.
Proof. vm_compute. split; reflexivity. Qed.

(** A filter that comes with the queue item is split at the commas and used
    as it is, where the filter read from the form is normalized. *)
Example jobFilter_example :
  jobFilter (Some "TS, md") idleApp = ["TS"; " md"]
  /\ jobFilter None
       {| controller := None; stats := resetSession; queue := [];
          isProcessingQueue := false; filenameInput := EmptyString;
          filterInput := "TS, md"; concurrencyInput := "20";
          localStorage := ∅; history := [] |}
     = [".ts"; ".md"].
Proof. split; reflexivity. Qed.

(* ===================================================================== *)
(** * Part IV: further properties of the code                            *)
(* ===================================================================== *)

(** ** Names are stable under sanitizing *)

Lemma replaceRuns_none class r b s :
  (forall c, In c (chars s) -> class c = false) ->
  Js.replaceRuns class r b s = s.
Proof.
  revert b. induction s as [|c s IH]; simpl; intros b H; [done|].
  rewrite (H c) by (by left). f_equal. apply IH. intros a Ha. apply H.
  by right.
Qed.

(** A string whose runs of the class are single occurrences of [r] already
    is left as it is. *)
Lemma replaceRuns_fixed class r b s :
  noAdjacent class b s = true ->
  (forall c, In c (chars s) -> class c = true -> c = r) ->
  Js.replaceRuns class r b s = s.
Proof.
  revert b. induction s as [|c s IH]; simpl; intros b Hadj Hr; [done|].
  assert (Hs : forall a, In a (chars s) -> class a = true -> a = r)
    by (intros a Ha; apply Hr; by right).
  destruct (class c) eqn:Hc.
  - apply andb_true_iff in Hadj as [Hb Hadj]. destruct b; [done|].
    assert (Hcr : c = r) by (apply Hr; [by left | done]). subst c.
    f_equal. by apply IH.
  - f_equal. by apply IH.
Qed.

Lemma trimStart_fixed s :
  (forall c rest, s = String c rest -> Js.isWhiteSpace c = false) ->
  Js.trimStart s = s.
Proof.
  destruct s as [|c s]; simpl; [done|]. intros H.
  by rewrite (H c s eq_refl).
Qed.

Lemma trimEnd_fixed s :
  (forall front c,
     s = front +:+ String c EmptyString -> Js.isWhiteSpace c = false) ->
  Js.trimEnd s = s.
Proof.
  induction s as [|a s IH]; simpl; intros H; [done|].
  rewrite IH.
  - destruct s as [|b s]; simpl.
    + by rewrite (H EmptyString a eq_refl).
    + by rewrite andb_false_r.
  - intros front c ->. apply (H (String a front) c). by rewrite append_cons.
Qed.

(** A name that is tidy at both ends is a fixed point of
    [sanitizeFilename]. *)
Lemma sanitizeFilename_fixed (name : string) :
  tidyName name ->
  (forall front c,
     name = front +:+ String c EmptyString -> Js.isWhiteSpace c = false) ->
  sanitizeFilename name = name.
Proof.
  intros (Hf & Hw & Hadj & Hhead) Hlast. unfold sanitizeFilename, Js.trim.
  rewrite (replaceRuns_none isForbidden) by done.
  rewrite (replaceRuns_fixed Js.isWhiteSpace) by done.
  rewrite trimStart_fixed by done. by apply trimEnd_fixed.
Qed.

(** X1. [sanitizeFilename] is idempotent: a sanitized name is left as it is
    when it is sanitized again. *)
Theorem sanitizeFilename_idempotent (filename : string) :
  sanitizeFilename (sanitizeFilename filename) = sanitizeFilename filename.
Proof.
  apply sanitizeFilename_fixed; [apply tidyName_sanitized|].
  destruct (trim_Trimmed
              (Js.replaceRuns Js.isWhiteSpace " " false
                 (Js.replaceRuns isForbidden "-" false filename)))
    as (pre & post & _ & _ & _ & _ & Hlast).
  exact Hlast.
Qed.

Lemma append_assoc_s (s t u : string) : (s +:+ t) +:+ u = s +:+ (t +:+ u).
Proof.
  induction s as [|c s IH]; [done|]. by rewrite !append_cons, IH.
Qed.

Lemma last_char_unique (front front' : string) (c c' : ascii) :
  front +:+ String c EmptyString = front' +:+ String c' EmptyString ->
  c = c'.
Proof.
  intros E. apply (f_equal chars) in E. rewrite !chars_app in E. simpl in E.
  apply (f_equal last) in E. rewrite !last_snoc in E. congruence.
Qed.

(** The name that [ensureZipFilename] produces is tidy, not empty and ends
    with [.zip]. *)
Lemma ensureZipFilename_tidy (filename : string) :
  tidyName (ensureZipFilename filename)
  /\ ensureZipFilename filename <> EmptyString
  /\ exists stem, ensureZipFilename filename = stem +:+ ".zip".
Proof.
  unfold ensureZipFilename. rewrite isEmpty_length.
  destruct (Js.isEmpty (sanitizeFilename filename)) eqn:He; simpl.
  - split; [|split; [done | by exists "downloaded-directory"]].
    apply (tidyName_zip "downloaded-directory"); [done|].
    repeat split; try done.
    + intros c H. simpl in H. repeat (destruct H as [<-|H]; [done|]). done.
    + intros c H. simpl in H. repeat (destruct H as [<-|H]; [done|]). done.
    + by intros c rest [= <- _].
  - assert (Hne : sanitizeFilename filename <> EmptyString).
    { intros H. apply isEmpty_true in H. congruence. }
    destruct (Js.endsWith (sanitizeFilename filename) ".zip") eqn:Hz.
    + split; [apply tidyName_sanitized|]. split; [done|].
      by apply endsWith_spec.
    + split; [apply tidyName_zip; [done | apply tidyName_sanitized]|].
      split; [|by eexists].
      destruct (sanitizeFilename filename); [done|]. by rewrite append_cons.
Qed.

(** X2. [ensureZipFilename] is idempotent: the name of an archive, given
    again as a file name, comes back unchanged (no second sanitizing effect,
    no second suffix). *)
Theorem ensureZipFilename_idempotent (filename : string) :
  ensureZipFilename (ensureZipFilename filename)
  = ensureZipFilename filename.
Proof.
  destruct (ensureZipFilename_tidy filename) as (Htidy & Hne & stem & Hzip).
  set (name := ensureZipFilename filename) in *.
  assert (Hfix : sanitizeFilename name = name).
  { apply sanitizeFilename_fixed; [done|]. intros front c E.
    rewrite Hzip in E.
    change (stem +:+ ".zip")
      with (stem +:+ (".zi" +:+ String "p" EmptyString)) in E.
    rewrite <- append_assoc_s in E.
    by rewrite <- (last_char_unique _ _ _ _ E). }
  unfold ensureZipFilename at 1. rewrite Hfix, isEmpty_length.
  destruct (Js.isEmpty name) eqn:He.
  { apply isEmpty_true in He. done. }
  simpl. assert (Hends : Js.endsWith name ".zip" = true)
    by (apply endsWith_spec; eauto).
  by rewrite Hends.
Qed.

(** ** Shortened URLs *)

Lemma append_length (s t : string) :
  String.length (s +:+ t) = (String.length s + String.length t)%nat.
Proof.
  induction s as [|c s IH]; [done|]. rewrite append_cons. simpl. by rewrite IH.
Qed.

Lemma substring_0_length (n : nat) (s : string) :
  String.length (String.substring 0 n s) = Nat.min n (String.length s).
Proof.
  revert s. induction n as [|n IH]; intros [|c s]; simpl; try done.
  by rewrite IH.
Qed.

Lemma substring_0_prefix (n : nat) (s : string) :
  exists rest, s = String.substring 0 n s +:+ rest.
Proof.
  revert s. induction n as [|n IH]; intros [|c s]; simpl.
  - by exists EmptyString.
  - by exists (String c s).
  - by exists EmptyString.
  - destruct (IH s) as [rest E]. exists rest. by rewrite append_cons, <- E.
Qed.

(** X3. A shortened URL never has more than 72 characters: a URL of at most
    72 characters is shown as it is, a longer one as its first 69 characters
    followed by three dots. *)
Theorem shortenUrl_spec (value : string) :
  (String.length (shortenUrl value) <= 72)%nat
  /\ ((String.length value <= 72)%nat -> shortenUrl value = value)
  /\ ((72 < String.length value)%nat ->
      exists front rest,
        value = front +:+ rest
        /\ String.length front = 69%nat
        /\ shortenUrl value = front +:+ "...").
Proof.
  unfold shortenUrl.
  destruct (72 <? String.length value)%nat eqn:E.
  - apply Nat.ltb_lt in E. split; [|split; [intros; lia|]].
    + rewrite append_length, substring_0_length.
      change (String.length "...") with 3%nat. lia.
    + intros _. destruct (substring_0_prefix 69 value) as [rest Hrest].
      exists (String.substring 0 69 value), rest.
      split; [done|]. split; [|done]. rewrite substring_0_length. lia.
  - apply Nat.ltb_ge in E. split; [done|]. split; [done | intros; lia].
Qed.

(** The theorem on a URL of 80 characters. *)
Lemma shortenUrl_spec_witness :
  String.length
    (shortenUrl
       "https://github.com/octo/demo/tree/main/a/very/long/path/that/goes/on/and/on/and/on")
  = 72%nat.
Proof.
  destruct (proj2 (proj2 (shortenUrl_spec
    "https://github.com/octo/demo/tree/main/a/very/long/path/that/goes/on/and/on/and/on")))
    as (front & rest & _ & Hlen & ->).
  - vm_compute. lia.
  - rewrite append_length, Hlen. reflexivity.
Defined.

(** ** Decimal numerals *)

Lemma digitOf_pretty_N_char (d : N) :
  (d < 10)%N -> Js.digitOf (pretty_N_char d) = Some (Z.of_N d).
Proof.
  intros H.
  assert (d = 0 \/ d = 1 \/ d = 2 \/ d = 3 \/ d = 4 \/ d = 5 \/ d = 6
          \/ d = 7 \/ d = 8 \/ d = 9)%N as Hd by lia.
  repeat (destruct Hd as [->|Hd]; [reflexivity|]). by subst.
Qed.

(** Reading the digits that [pretty_N_go] writes in front of [s]. *)
Lemma readDigits_pretty_N_go (x : N) (acc : option Z) (s : string) :
  default 0 acc = 0 ->
  Js.readDigits acc (pretty_N_go x s)
  = Js.readDigits (if (x =? 0)%N then acc else Some (Z.of_N x)) s.
Proof.
  revert acc s. induction (N.lt_wf_0 x) as [x _ IH]; intros acc s Hacc.
  destruct (x =? 0)%N eqn:E.
  - apply N.eqb_eq in E. subst. by rewrite pretty_N_go_0.
  - apply N.eqb_neq in E. rewrite pretty_N_go_step by lia.
    rewrite (IH (x `div` 10)%N) by (done || apply N.div_lt; lia).
    simpl. rewrite digitOf_pretty_N_char by (apply N.mod_lt; lia).
    f_equal. f_equal.
    pose proof (N.div_mod x 10 ltac:(lia)) as Hdm.
    set (q := (x `div` 10)%N) in *. set (d := (x `mod` 10)%N) in *.
    clearbody q d. clear IH.
    destruct (q =? 0)%N eqn:E'.
    + apply N.eqb_eq in E'. rewrite Hacc. lia.
    + simpl. lia.
Qed.

Lemma pretty_N_go_head (x : N) (s : string) :
  (0 < x)%N ->
  exists d rest, (d < 10)%N /\ pretty_N_go x s = String (pretty_N_char d) rest.
Proof.
  revert s. induction (N.lt_wf_0 x) as [x _ IH]; intros s Hx.
  rewrite pretty_N_go_step by done.
  destruct (decide (x `div` 10 = 0)%N) as [E|E].
  - rewrite E, pretty_N_go_0. exists (x `mod` 10)%N, s.
    split; [apply N.mod_lt; lia | done].
  - apply IH; [apply N.div_lt; lia | by apply N.neq_0_lt_0].
Qed.

Lemma pretty_N_char_plain (d : N) :
  (d < 10)%N ->
  Js.isWhiteSpace (pretty_N_char d) = false
  /\ pretty_N_char d <> "-"%char /\ pretty_N_char d <> "+"%char.
Proof.
  intros H.
  assert (d = 0 \/ d = 1 \/ d = 2 \/ d = 3 \/ d = 4 \/ d = 5 \/ d = 6
          \/ d = 7 \/ d = 8 \/ d = 9)%N as Hd by lia.
  repeat (destruct Hd as [->|Hd]; [done|]). by subst.
Qed.

(** What [parseInt] reads in a string that starts with a digit. *)
Lemma parseInt_digit_first (c : ascii) (rest : string) :
  Js.isWhiteSpace c = false -> c <> "-"%char -> c <> "+"%char ->
  Js.parseInt (String c rest) = Js.readDigits None (String c rest).
Proof.
  intros Hw Hm Hp. unfold Js.parseInt. cbn [Js.trimStart]. rewrite Hw.
  destruct c as [[] [] [] [] [] [] [] []]; try done.
Qed.

Lemma parseInt_pretty_pos (p : positive) :
  Js.parseInt (pretty (Z.pos p)) = Some (Z.pos p).
Proof.
  change (pretty (Z.pos p)) with (pretty_N_go (N.pos p) EmptyString).
  destruct (pretty_N_go_head (N.pos p) EmptyString ltac:(lia))
    as (d & rest & Hd & E).
  destruct (pretty_N_char_plain d Hd) as (Hw & Hm & Hp).
  rewrite E, parseInt_digit_first, <- E by done.
  by rewrite readDigits_pretty_N_go.
Qed.

(** [parseInt] reads back the decimal numeral of every integer. *)
Lemma parseInt_pretty (n : Z) : Js.parseInt (pretty n) = Some n.
Proof.
  destruct n as [|p|p]; [done | apply parseInt_pretty_pos|].
  change (pretty (Z.neg p))
    with (String "-" (pretty_N_go (N.pos p) EmptyString)).
  unfold Js.parseInt. cbn [Js.trimStart].
  change (Js.isWhiteSpace "-") with false. cbv iota.
  by rewrite readDigits_pretty_N_go.
Qed.

(** X5. The concurrency limit of a field that holds the decimal numeral of an
    integer [n] is [n] clamped to [1,40], whatever the size and the sign of
    [n]. *)
Theorem safeConcurrency_numeral (n : Z) :
  safeConcurrency (pretty n) = Z.max 1 (Z.min 40 n).
Proof. unfold safeConcurrency. by rewrite parseInt_pretty. Qed.

(** ** The elapsed time *)

Lemma replicateChar_length (n : nat) (c : ascii) :
  String.length (replicateChar n c) = n.
Proof. induction n as [|n IH]; simpl; [done | by rewrite IH]. Qed.

Lemma padStart_length (len : nat) (fill : ascii) (s : string) :
  String.length (padStart len fill s) = Nat.max len (String.length s).
Proof. unfold padStart. rewrite append_length, replicateChar_length. lia. Qed.

Lemma readDigits_zeros (k : nat) (s : string) :
  Js.readDigits (Some 0) (replicateChar k "0" +:+ s)
  = Js.readDigits (Some 0) s.
Proof.
  induction k as [|k IH]; [done|].
  cbn [replicateChar]. rewrite append_cons. cbn [Js.readDigits]. exact IH.
Qed.

(** [parseInt] reads a numeral through the zeros put in front of it. *)
Lemma parseInt_padStart (len : nat) (n : Z) :
  0 <= n -> Js.parseInt (padStart len "0" (pretty n)) = Some n.
Proof.
  intros Hn. unfold padStart.
  destruct (len - String.length (pretty n))%nat as [|k];
    [apply parseInt_pretty|].
  cbn [replicateChar]. rewrite append_cons, parseInt_digit_first by done.
  cbn [Js.readDigits]. change (Js.digitOf "0") with (Some 0).
  cbv iota. change (Some (10 * default 0 None + 0)) with (Some 0).
  rewrite readDigits_zeros. destruct n as [|p|p]; [done| |lia].
  change (pretty (Z.pos p)) with (pretty_N_go (N.pos p) EmptyString).
  by rewrite readDigits_pretty_N_go.
Qed.

Lemma two_digits_length (n : Z) :
  0 <= n < 60 -> String.length (padStart 2 "0" (pretty n)) = 2%nat.
Proof.
  intros Hn.
  assert (H : forallb
                (fun n => Nat.eqb (String.length (padStart 2 "0" (pretty n))) 2)
                (seqZ 0 60) = true) by (vm_compute; reflexivity).
  rewrite forallb_forall in H. apply Nat.eqb_eq, H, list_elem_of_In.
  apply elem_of_seqZ. lia.
Qed.

Lemma isDigit_pretty_N_char (d : N) :
  (d < 10)%N -> isDigit (pretty_N_char d) = true.
Proof.
  intros H.
  assert (d = 0 \/ d = 1 \/ d = 2 \/ d = 3 \/ d = 4 \/ d = 5 \/ d = 6
          \/ d = 7 \/ d = 8 \/ d = 9)%N as Hd by lia.
  repeat (destruct Hd as [->|Hd]; [reflexivity|]). by subst.
Qed.

Lemma allDigits_pretty_N_go (x : N) (s : string) :
  allDigits s = true -> allDigits (pretty_N_go x s) = true.
Proof.
  revert s. induction (N.lt_wf_0 x) as [x _ IH]; intros s Hs.
  destruct (decide (x = 0)%N) as [->|Hx]; [by rewrite pretty_N_go_0|].
  rewrite pretty_N_go_step by lia.
  apply IH; [apply N.div_lt; lia|].
  unfold allDigits. cbn [list_ascii_of_string forallb].
  rewrite isDigit_pretty_N_char by (apply N.mod_lt; lia). exact Hs.
Qed.

(** The decimal numeral of a natural number is made of digits, and so is
    the numeral with zeros in front. *)
Lemma allDigits_padStart (len : nat) (n : Z) :
  0 <= n -> allDigits (padStart len "0" (pretty n)) = true.
Proof.
  intros Hn. unfold padStart.
  assert (Hp : allDigits (pretty n) = true).
  { destruct n as [|p|p]; [done| |lia].
    change (pretty (Z.pos p)) with (pretty_N_go (N.pos p) EmptyString).
    by apply allDigits_pretty_N_go. }
  induction (len - String.length (pretty n))%nat as [|k IH]; [done|].
  cbn [replicateChar]. rewrite append_cons. exact IH.
Qed.

(** X4. The clock shown for a running job is exact: for an elapsed time of
    a whole number of milliseconds from 0 to below [2^53], the text is
    [MM:SS] below one hour and [HH:MM:SS] from one hour on; minutes and
    seconds are below 60 and written with exactly two decimal digits each,
    hours with at least two decimal digits and nothing else; and hours,
    minutes and seconds add up to the whole seconds elapsed. *)
Theorem formatElapsed_spec (ms : Z) :
  0 <= ms < 9007199254740992 ->
  let total := ms / 1000 in
  let h := total / 3600 in
  let m := Z.rem (total / 60) 60 in
  let sec := Z.rem total 60 in
  0 <= m < 60
  /\ 0 <= sec < 60
  /\ h * 3600 + m * 60 + sec = total
  /\ exists hh mm ss,
       (allDigits hh = true /\ Js.parseInt hh = Some h
        /\ (2 <= String.length hh)%nat)
       /\ (allDigits mm = true /\ Js.parseInt mm = Some m
           /\ String.length mm = 2%nat)
       /\ (allDigits ss = true /\ Js.parseInt ss = Some sec
           /\ String.length ss = 2%nat)
       /\ formatElapsed ms
          = if 0 <? h then hh +:+ ":" +:+ mm +:+ ":" +:+ ss
            else mm +:+ ":" +:+ ss.
Proof.
  intros [Hms _] total h m sec.
  assert (Ht : 0 <= total) by (subst total; apply Z.div_pos; lia).
  assert (Hh : 0 <= h) by (subst h; apply Z.div_pos; lia).
  assert (Hm : m = (total / 60) mod 60).
  { subst m. apply Z.rem_mod_nonneg; [apply Z.div_pos|]; lia. }
  assert (Hs : sec = total mod 60)
    by (subst sec; apply Z.rem_mod_nonneg; lia).
  assert (Hmr : 0 <= m < 60) by (rewrite Hm; apply Z.mod_pos_bound; lia).
  assert (Hsr : 0 <= sec < 60) by (rewrite Hs; apply Z.mod_pos_bound; lia).
  split; [done|]. split; [done|]. split.
  { rewrite Hm, Hs. subst h. clear -Ht.
    pose proof (Z.div_mod total 60 ltac:(lia)).
    pose proof (Z.div_mod (total / 60) 60 ltac:(lia)).
    replace (total / 3600) with (total / 60 / 60)
      by (rewrite Z.div_div; [done | lia | lia]).
    lia. }
  exists (padStart 2 "0" (pretty h)), (padStart 2 "0" (pretty m)),
    (padStart 2 "0" (pretty sec)).
  rewrite !parseInt_padStart, !allDigits_padStart by lia.
  rewrite (two_digits_length m), (two_digits_length sec) by done.
  split; [|done]. split; [done|]. split; [done|].
  rewrite padStart_length. lia.
Qed.

(** The theorem at one hour, two minutes and three seconds and a half. *)
Lemma formatElapsed_spec_witness :
  formatElapsed 3723500 = "01:02:03" /\ 0 <= Z.rem (3723500 / 1000) 60 < 60.
Proof.
  split; [vm_compute; reflexivity|].
  apply (formatElapsed_spec 3723500). lia.
Defined.

Example formatElapsed_examples :
  formatElapsed 0 = "00:00" /\ formatElapsed 59999 = "00:59"
  /\ formatElapsed 60000 = "01:00" /\ formatElapsed 3599999 = "59:59"
  /\ formatElapsed 3600000 = "01:00:00"
  /\ formatElapsed 360000000 = "100:00:00".
Proof. vm_compute. repeat split; reflexivity. Qed.

(** ** The filter text *)

Lemma splitOn_chars (sep : ascii) (s piece : string) (c : ascii) :
  In piece (Js.splitOn sep s) -> In c (chars piece) ->
  In c (chars s) /\ c <> sep.
Proof.
  revert piece. induction s as [|a s IH]; simpl; intros piece Hp Hc.
  - destruct Hp as [<-|[]]. done.
  - destruct (Ascii.eqb a sep) eqn:E.
    + destruct Hp as [<-|Hp]; [done|].
      destruct (IH piece Hp Hc). auto.
    + apply Ascii.eqb_neq in E.
      destruct (Js.splitOn sep s) as [|p ps] eqn:Es.
      * destruct Hp as [<-|[]]. simpl in Hc. destruct Hc as [<-|[]]. auto.
      * destruct Hp as [<-|Hp].
        -- simpl in Hc. destruct Hc as [<-|Hc]; [auto|].
           destruct (IH p (or_introl eq_refl) Hc). auto.
        -- destruct (IH piece (or_intror Hp) Hc). auto.
Qed.

Lemma trimStart_blank (s : string) :
  (forall c, In c (chars s) -> Js.isWhiteSpace c = true) ->
  Js.trimStart s = EmptyString.
Proof.
  induction s as [|a s IH]; simpl; intros H; [done|].
  rewrite (H a) by (by left). apply IH. intros c Hc. apply H. by right.
Qed.

Lemma filter_none {A} (f : A -> bool) (l : list A) :
  (forall x, In x l -> f x = false) -> List.filter f l = [].
Proof.
  induction l as [|x l IH]; simpl; intros H; [done|].
  rewrite (H x) by (by left). apply IH. intros y Hy. apply H. by right.
Qed.

Lemma parseFilter_nonempty (value e : string) :
  In e (parseFilter value) -> e <> EmptyString.
Proof.
  intros He. apply list_elem_of_In in He.
  pose proof (proj1 (Forall_forall _ _) (parseFilter_normalized value) e He)
    as [_ Hdot].
  intros ->. done.
Qed.

(** X6. The filter read from the field is normalized: every extension that
    [parseFilter] returns is in lower case, starts with a dot, hence is not
    empty; and a field that holds only white space and commas gives the empty
    filter, which selects every file. *)
Theorem parseFilter_spec (value : string) :
  Forall normalizedExtension (parseFilter value)
  /\ (forall e, In e (parseFilter value) -> e <> EmptyString)
  /\ ((forall c, In c (chars value) -> isBlankOrComma c = true) ->
      parseFilter value = []
      /\ forall files, filterFiles files (parseFilter value) = files).
Proof.
  split; [apply parseFilter_normalized|].
  split; [apply parseFilter_nonempty|].
  intros Hblank.
  assert (E : parseFilter value = []); [|by rewrite E].
  unfold parseFilter.
  replace (List.filter _ _) with (@nil string); [done|].
  symmetry. apply filter_none.
  intros v Hv. rewrite negb_false_iff. apply list_elem_of_In in Hv.
  apply list_elem_of_fmap in Hv as (piece & -> & Hp).
  apply list_elem_of_In in Hp. unfold Js.trim.
  rewrite trimStart_blank; [done|].
  intros c Hc. destruct (splitOn_chars _ _ _ _ Hp Hc) as [Hin Hne].
  specialize (Hblank c Hin). unfold isBlankOrComma in Hblank.
  apply orb_true_iff in Hblank as [?|E]; [done|].
  by apply Ascii.eqb_eq in E.
Qed.

(** The theorem on a field of blanks and commas. *)
Lemma parseFilter_spec_witness : parseFilter " , ,, " = [].
Proof.
  apply (parseFilter_spec " , ,, ").
  intros c H. simpl in H. repeat (destruct H as [<-|H]; [done|]). done.
Defined.

(** ** Blocked words *)

(** X8. The test of the blocked words holds exactly for the texts in which
    [malware], [virus] or [trojan] stands somewhere, whatever the case of its
    ASCII letters; hence a blocked text stays blocked whatever is written
    before and after it. *)
Theorem blockedWords_test_spec (s : string) :
  (blockedWords_test s = true <->
   exists pre mid post,
     s = pre +:+ mid +:+ post
     /\ (foldCase mid = "malware" \/ foldCase mid = "virus"
         \/ foldCase mid = "trojan"))
  /\ (blockedWords_test s = true ->
      forall before after,
        blockedWords_test (before +:+ s +:+ after) = true).
Proof.
  assert (Hiff : forall t,
    blockedWords_test t = true <->
    exists pre mid post,
      t = pre +:+ mid +:+ post
      /\ (foldCase mid = "malware" \/ foldCase mid = "virus"
          \/ foldCase mid = "trojan")).
  { intros t. unfold blockedWords_test.
    rewrite !orb_true_iff, !includesFold_spec. split.
    - intros [[H|H]|H]; destruct H as (pre & mid & post & E & H);
        exists pre, mid, post; auto.
    - intros (pre & mid & post & E & [H|[H|H]]); [left; left|left; right|right];
        by exists pre, mid, post. }
  split; [apply Hiff|]. intros H before after.
  apply Hiff in H as (pre & mid & post & -> & H). apply Hiff.
  exists (before +:+ pre), mid, (post +:+ after).
  by rewrite !append_assoc_s.
Qed.

(** The theorem on a path that holds a blocked word in capitals. *)
Lemma blockedWords_test_spec_witness :
  blockedWords_test "https://github.com/octo/demo/tree/main/TROJAN-kit"
  = true.
Proof.
  apply (proj2 (blockedWords_test_spec "TROJAN") eq_refl
           "https://github.com/octo/demo/tree/main/" "-kit").
Defined.

(** ** Relative paths *)

Lemma stripPrefix_app (p rest : string) :
  Js.stripPrefix p (p +:+ rest) = Some rest.
Proof.
  induction p as [|c p IH]; [done|].
  rewrite append_cons. simpl. by rewrite Ascii.eqb_refl.
Qed.

Lemma removeFirst_prefix (p rest : string) :
  Js.removeFirst p (p +:+ rest) = rest.
Proof.
  destruct (p +:+ rest) as [|c s] eqn:E; simpl; rewrite <- E;
    by rewrite stripPrefix_app.
Qed.

(** X9. For a path that lies under the directory of the job, the name of the
    entry in the archive is the path without the directory and its slash; so
    two files under the directory with different paths get different
    entries.  With the empty directory the entry is the path. *)
Theorem relativePath_under (dir : string) (file file' : RepoFile)
    (rest rest' : string) :
  dir <> EmptyString ->
  path file = dir +:+ "/" +:+ rest ->
  path file' = dir +:+ "/" +:+ rest' ->
  relativePath dir file = rest
  /\ (path file <> path file' ->
      relativePath dir file <> relativePath dir file')
  /\ relativePath EmptyString file = path file.
Proof.
  intros Hdir Hp Hp'.
  assert (Hrel : forall f r, path f = dir +:+ "/" +:+ r ->
                             relativePath dir f = r).
  { intros f r E. unfold relativePath.
    destruct (Js.isEmpty dir) eqn:He; [by apply isEmpty_true in He|].
    by rewrite E, <- append_assoc_s, removeFirst_prefix. }
  split; [by apply Hrel|]. split; [|done].
  rewrite (Hrel _ _ Hp), (Hrel _ _ Hp'), Hp, Hp'. congruence.
Qed.

(** The theorem on a file of the directory [docs]. *)
Lemma relativePath_under_witness : relativePath "docs" fileC = "sub/c.txt".
Proof.
  apply (relativePath_under "docs" fileC fileA "sub/c.txt" "a.txt");
    done.
Defined.

(** ** The estimate and the filter *)

Lemma sumOfSizes_app (l k : list RepoFile) :
  sumOfSizes (l ++ k) = sumOfSizes l + sumOfSizes k.
Proof.
  unfold sumOfSizes. induction l as [|f l IH]; [simpl; lia|].
  rewrite <- app_comm_cons, !fmap_cons. simpl. rewrite IH. lia.
Qed.

Lemma sumOfSizes_filter (keep : RepoFile -> bool) (files : list RepoFile) :
  Forall (fun f => 0 <= reportedSize f) files ->
  0 <= sumOfSizes (List.filter keep files) <= sumOfSizes files.
Proof.
  unfold sumOfSizes. induction 1 as [|f files Hf _ IH]; [simpl; lia|].
  cbn [List.filter]. destruct (keep f); rewrite ?fmap_cons;
    cbn [fold_right]; lia.
Qed.

(** X10. The estimate is additive over lists, and when no descriptor reports
    a negative size, filtering never raises it: the estimate of the filtered
    list lies between 0 and the estimate of the whole list. *)
Theorem estimateBytes_filtered (files more : list RepoFile)
    (extensions : list string) :
  Forall (fun f => 0 <= reportedSize f) files ->
  estimateBytes (files ++ more) = estimateBytes files + estimateBytes more
  /\ 0 <= estimateBytes (filterFiles files extensions)
       <= estimateBytes files.
Proof.
  intros H. rewrite !estimateBytes_sum. split; [apply sumOfSizes_app|].
  destruct extensions as [|e es].
  - simpl. pose proof (sumOfSizes_filter (fun _ => true) files H) as Hall.
    assert (E : List.filter (fun _ : RepoFile => true) files = files).
    { clear. induction files as [|f l IH]; simpl; [done | by rewrite IH]. }
    rewrite E in Hall. lia.
  - by apply sumOfSizes_filter.
Qed.

(** The theorem on the three sample files filtered by [.txt]. *)
Lemma estimateBytes_filtered_witness :
  0 <= estimateBytes (filterFiles [fileA; fileB; fileC] [".txt"])
    <= estimateBytes [fileA; fileB; fileC].
Proof.
  apply (estimateBytes_filtered [fileA; fileB; fileC] [] [".txt"]).
  repeat constructor; done.
Defined.

(** ** The filter text, written back *)

Lemma splitOn_plain (sep : ascii) (p : string) :
  (forall c, In c (chars p) -> c <> sep) -> Js.splitOn sep p = [p].
Proof.
  induction p as [|c p IH]; simpl; intros H; [done|].
  assert (E : Ascii.eqb c sep = false) by (apply Ascii.eqb_neq, H; by left).
  rewrite E, IH; [done|]. intros a Ha. apply H. by right.
Qed.

Lemma splitOn_app_sep (sep : ascii) (p s : string) :
  (forall c, In c (chars p) -> c <> sep) ->
  Js.splitOn sep (p +:+ String sep s) = p :: Js.splitOn sep s.
Proof.
  induction p as [|c p IH]; intros H.
  - rewrite append_nil_l. simpl. by rewrite Ascii.eqb_refl.
  - rewrite append_cons. simpl.
    assert (E : Ascii.eqb c sep = false) by (apply Ascii.eqb_neq, H; by left).
    rewrite E, IH; [done|]. intros a Ha. apply H. by right.
Qed.

(** Splitting undoes joining, for pieces that do not hold the separator. *)
Lemma splitOn_join (sep : ascii) (l : list string) :
  l <> [] ->
  (forall p, In p l -> forall c, In c (chars p) -> c <> sep) ->
  Js.splitOn sep (join (String sep EmptyString) l) = l.
Proof.
  induction l as [|p l IH]; intros Hne H; [done|].
  destruct l as [|q l].
  - simpl. apply splitOn_plain, H. by left.
  - change (join (String sep EmptyString) (p :: q :: l))
      with (p +:+ String sep EmptyString
              +:+ join (String sep EmptyString) (q :: l)).
    rewrite append_cons, append_nil_l, splitOn_app_sep by (apply H; by left).
    rewrite IH; [done | done |]. intros r Hr. apply H. by right.
Qed.

Lemma toLowerChar_class (c : ascii) :
  Js.isWhiteSpace (Js.toLowerChar c) = Js.isWhiteSpace c
  /\ (Js.toLowerChar c = ","%char -> c = ","%char).
Proof. destruct c as [[] [] [] [] [] [] [] []]; split; done. Qed.

Lemma toLowerCase_chars (s : string) (c : ascii) :
  In c (chars (Js.toLowerCase s)) ->
  exists a, In a (chars s) /\ c = Js.toLowerChar a.
Proof.
  induction s as [|b s IH]; simpl; [done|].
  intros [<-|H]; [by exists b; auto|].
  destruct (IH H) as (a & Ha & ->). exists a. auto.
Qed.

(** The text of an extension of the filter: no comma in it, no white space at
    its ends. *)
Lemma parseFilter_shape (value e : string) :
  In e (parseFilter value) ->
  (forall c, In c (chars e) -> c <> ","%char)
  /\ (forall c rest, e = String c rest -> Js.isWhiteSpace c = false)
  /\ (forall front c,
        e = front +:+ String c EmptyString -> Js.isWhiteSpace c = false).
Proof.
  unfold parseFilter. intros He. apply list_elem_of_In in He.
  apply list_elem_of_fmap in He as (v & -> & Hv).
  apply elem_of_filter_bool in Hv as [Hv Hne].
  apply list_elem_of_fmap in Hv as (piece & -> & Hp).
  apply list_elem_of_In in Hp.
  set (t := Js.trim piece) in *.
  assert (Hcomma : forall c, In c (chars (Js.toLowerCase t)) -> c <> ","%char).
  { intros c Hc ->. apply toLowerCase_chars in Hc as (a & Ha & E).
    symmetry in E. apply toLowerChar_class in E. subst a.
    apply trim_chars in Ha. by destruct (splitOn_chars _ _ _ _ Hp Ha). }
  assert (Hhead : forall c rest, Js.toLowerCase t = String c rest ->
                                 Js.isWhiteSpace c = false).
  { intros c rest E. destruct t as [|a t'] eqn:Et; [done|].
    simpl in E. injection E as <- _.
    rewrite (proj1 (toLowerChar_class a)). by eapply trim_head. }
  assert (Hlast : forall front c,
            Js.toLowerCase t = front +:+ String c EmptyString ->
            Js.isWhiteSpace c = false).
  { intros front c E.
    apply toLowerCase_split in E as (pre & suf & Et & _ & Hsuf).
    destruct suf as [|a [|b suf]]; try done. simpl in Hsuf.
    injection Hsuf as <-. rewrite (proj1 (toLowerChar_class a)).
    subst t. unfold Js.trim in Et. by eapply trimEnd_last. }
  cbv beta.
  destruct (Js.startsWith (Js.toLowerCase t) ".") eqn:Hdot; [done|].
  split; [|split].
  - intros c Hc. rewrite chars_app in Hc. apply in_app_iff in Hc as [Hc|Hc].
    + simpl in Hc. destruct Hc as [<-|[]]. done.
    + by apply Hcomma.
  - rewrite append_cons. by intros c rest [= <- _].
  - intros front c E. rewrite append_cons, append_nil_l in E.
    destruct front as [|d front].
    + rewrite append_nil_l in E. injection E as _ E.
      rewrite E in Hne. done.
    + rewrite append_cons in E. injection E as _ E. by eapply Hlast.
Qed.

Lemma fmap_fixed {A} (f : A -> A) (l : list A) :
  (forall x, In x l -> f x = x) -> f <$> l = l.
Proof.
  induction l as [|x l IH]; intros H; [done|].
  rewrite fmap_cons, (H x) by (by left). f_equal. apply IH.
  intros y Hy. apply H. by right.
Qed.

Lemma filter_all {A} (f : A -> bool) (l : list A) :
  (forall x, In x l -> f x = true) -> List.filter f l = l.
Proof.
  induction l as [|x l IH]; simpl; intros H; [done|].
  rewrite (H x) by (by left). f_equal. apply IH.
  intros y Hy. apply H. by right.
Qed.

(** X7. The filter survives being written back: the extensions that
    [parseFilter] returns, joined with commas and parsed again, are the same
    extensions in the same order. *)
Theorem parseFilter_join (value : string) :
  parseFilter (join "," (parseFilter value)) = parseFilter value.
Proof.
  set (l := parseFilter value).
  destruct l as [|e l'] eqn:El; [done|]. rewrite <- El.
  assert (Hshape : forall e, In e l ->
            (forall c, In c (chars e) -> c <> ","%char)
            /\ (forall c rest, e = String c rest -> Js.isWhiteSpace c = false)
            /\ (forall front c, e = front +:+ String c EmptyString ->
                                Js.isWhiteSpace c = false))
    by (intros; by apply (parseFilter_shape value)).
  assert (Hnorm : forall e, In e l -> normalizedExtension e).
  { intros x Hx. apply list_elem_of_In in Hx.
    by apply (proj1 (Forall_forall _ _) (parseFilter_normalized value)). }
  unfold parseFilter at 1.
  rewrite splitOn_join; [|by rewrite El|intros p Hp; by apply Hshape].
  rewrite (fmap_fixed (fun v => Js.toLowerCase (Js.trim v)) l).
  2: { intros x Hx. destruct (Hshape x Hx) as (_ & Hhead & Hlast).
       unfold Js.trim. rewrite trimStart_fixed, trimEnd_fixed by done.
       by apply Hnorm. }
  rewrite filter_all.
  2: { intros x Hx. apply negb_true_iff.
       destruct (Js.isEmpty x) eqn:E; [|done]. apply isEmpty_true in E.
       subst x. by destruct (Hnorm _ Hx). }
  apply fmap_fixed. intros x Hx. by rewrite (proj2 (Hnorm x Hx)).
Qed.

(** ** What a job never does *)

Lemma safeConcurrency_range (value : string) :
  1 <= safeConcurrency value <= 40.
Proof. unfold safeConcurrency. destruct (Js.parseInt value); lia. Qed.

Lemma existsb_false_Forall {A} (f : A -> bool) (l : list A) :
  existsb f l = false -> Forall (fun x => f x = false) l.
Proof.
  induction l as [|x l IH]; simpl; [constructor|].
  intros [? ?]%orb_false_iff. constructor; auto.
Qed.

Lemma Forall_sublist_of {A} (P : A -> Prop) (l k : list A) :
  sublist l k -> Forall P k -> Forall P l.
Proof.
  intros Hsub Hk. apply Forall_forall. intros x Hx.
  apply (proj1 (Forall_forall P k) Hk). by eapply elem_of_sublist.
Qed.

Lemma saveArchive_name (opts : Options) (form : Form) (s : Session) :
  snd (saveArchive opts form s) = zipFiles s
  /\ tidyName (fst (saveArchive opts form s))
  /\ exists stem, fst (saveArchive opts form s) = stem +:+ ".zip".
Proof.
  unfold saveArchive. cbv zeta. cbn [fst snd]. split; [done|].
  match goal with
  | |- context [ensureZipFilename ?x] =>
      destruct (ensureZipFilename_tidy x) as (? & _ & ?)
  end.
  done.
Qed.

(** X11. Whatever the listing and the fetches do, a call of
    [downloadDirectory] makes at most two [pMap] calls; each of them runs with
    the concurrency of the form clamped to 1..40, over files that the filter
    kept and whose path matches no blocked word.  A call that throws saves
    nothing; a call that saves has made a pass, saves the entries of its zip,
    and saves them under a sanitized name that ends with [.zip]. *)
Theorem downloadDirectory_outcome (opts : Options) (form : Form)
    (net : Network) (s : Session) :
  let out := downloadDirectory opts form net s in
  (length (passes out) <= 2)%nat
  /\ (forall batch limit,
        (batch, limit) ∈ passes out ->
        limit = safeConcurrency (concurrencyField form)
        /\ 1 <= limit <= 40
        /\ Forall (fun file => blockedWords_test (path file) = false) batch
        /\ exists files,
             listFiles net = Listed files
             /\ sublist batch (filterFiles files (filter opts)))
  /\ (forall e, completion out = Threw e -> saved out = None)
  /\ (forall name entries,
        saved out = Some (name, entries) ->
        passes out <> []
        /\ entries = zipFiles (session out)
        /\ tidyName name
        /\ exists stem, name = stem +:+ ".zip").
Proof.
  intros out. subst out. unfold downloadDirectory.
  destruct (listFiles net) as [files|e] eqn:Hlist.
  2: { cbn. split; [lia|]. split; [by intros ? ? ?%elem_of_nil|]. done. }
  destruct (length files =? 0)%nat.
  { cbn. split; [lia|]. split; [by intros ? ? ?%elem_of_nil|]. done. }
  set (filteredFiles := filterFiles files (filter opts)).
  destruct (length filteredFiles =? 0)%nat.
  { cbn. split; [lia|]. split; [by intros ? ? ?%elem_of_nil|]. done. }
  destruct (existsb _ filteredFiles) eqn:Hblocked.
  { cbn. split; [lia|]. split; [by intros ? ? ?%elem_of_nil|]. done. }
  apply existsb_false_Forall in Hblocked. cbv zeta.
  set (limit := safeConcurrency (concurrencyField form)).
  assert (Hbatch : forall batch,
            sublist batch filteredFiles ->
            limit = limit /\ 1 <= limit <= 40
            /\ Forall (fun file => blockedWords_test (path file) = false)
                 batch
            /\ exists files0,
                 Listed files = Listed files0
                 /\ sublist batch (filterFiles files0 (filter opts))).
  { intros batch Hsub. split; [done|].
    split; [apply safeConcurrency_range|].
    split; [by apply (Forall_sublist_of _ _ filteredFiles)|].
    by exists files. }
  assert (Hsaved : forall s' name entries,
            Some (saveArchive opts form s') = Some (name, entries) ->
            entries = zipFiles s' /\ tidyName name
            /\ exists stem, name = stem +:+ ".zip").
  { intros s' name entries E. apply (inj Some) in E.
    destruct (saveArchive_name opts form s') as (H1 & H2 & H3).
    rewrite E in H1, H2, H3. done. }
  destruct (downloadBatch net _ 1 filteredFiles _) as [s1 rejected1].
  destruct rejected1.
  { cbn. split; [lia|]. split; [|done].
    intros batch l [= -> ->]%list_elem_of_singleton. by apply Hbatch. }
  destruct (0 <? length (failedFiles s1))%nat.
  - destruct (downloadBatch net _ 2 _ _) as [s2 rejected2].
    assert (Hpasses : forall batch l,
              (batch, l) ∈ [(filteredFiles, limit);
                            (retryTargets filteredFiles s1, limit)] ->
              l = limit /\ sublist batch filteredFiles).
    { intros batch l [[= -> ->]|[= -> ->]%list_elem_of_singleton]%elem_of_cons.
      - done.
      - split; [done | apply retryTargets_sublist]. }
    destruct rejected2; cbn.
    + split; [lia|]. split; [|done].
      intros batch l [-> Hsub]%Hpasses. by apply Hbatch.
    + split; [lia|]. split; [|split; [done|]].
      * intros batch l [-> Hsub]%Hpasses. by apply Hbatch.
      * intros name entries E. split; [done|]. by apply Hsaved.
  - cbn. split; [lia|]. split; [|split; [done|]].
    + intros batch l [= -> ->]%list_elem_of_singleton. by apply Hbatch.
    + intros name entries E. split; [done|]. by apply Hsaved.
Qed.

(** ** Every file is accounted for *)

Lemma filter_outcomes_exact (net : Network) (pass : nat)
    (l : list RepoFile) :
  (forall file, fetch net pass file <> Aborted) ->
  (length (List.filter (fun f => isFetched (fetch net pass f)) l)
   + length (List.filter (fun f => isFailed (fetch net pass f)) l)
   = length l)%nat.
Proof.
  intros H. induction l as [|f l IH]; simpl; [done|].
  specialize (H f). destruct (fetch net pass f); simpl; try lia. done.
Qed.

Lemma filter_Permutation_bool {A} (f : A -> bool) (l k : list A) :
  l ≡ₚ k -> List.filter f l ≡ₚ List.filter f k.
Proof.
  induction 1 as [|x l k _ IH|x y l|l k m _ IH1 _ IH2]; simpl.
  - done.
  - destruct (f x); [by constructor | done].
  - destruct (f x), (f y); try done. apply perm_swap.
  - by etrans.
Qed.

(** [downloadDirectory] when no mapper is aborted: one pass, or two when the
    first recorded a failure, and the archive is saved. *)
Lemma downloadDirectory_unaborted (opts : Options) (form : Form)
    (net : Network) (s : Session) (filteredFiles : list RepoFile) :
  entersPasses opts net filteredFiles ->
  (forall pass file, fetch net pass file <> Aborted) ->
  let dir := directory opts in
  let limit := safeConcurrency (concurrencyField form) in
  let s1 := afterFirstPass net dir filteredFiles s in
  let targets := retryTargets filteredFiles s1 in
  let s2 :=
    settleAll net dir 2 (settleOrder net 2 targets) (clearFailed s1) in
  downloadDirectory opts form net s
  = if decide (failedFiles s1 = []) then
      {| completion := Returned; session := s1;
         passes := [(filteredFiles, limit)];
         saved := Some (saveArchive opts form s1) |}
    else
      {| completion := Returned; session := s2;
         passes := [(filteredFiles, limit); (targets, limit)];
         saved := Some (saveArchive opts form s2) |}.
Proof.
  intros Henter Hnoabort dir limit s1 targets s2.
  rewrite (downloadDirectory_passes _ _ _ _ _ Henter). cbv zeta.
  fold dir limit s1 targets.
  unfold firstPassRejected, downloadBatch. cbn [snd].
  rewrite never_aborted_not_rejected by apply Hnoabort.
  destruct (decide (failedFiles s1 = [])) as [Hnil|Hsome].
  - rewrite Hnil. reflexivity.
  - assert (Hlt : (0 <? length (failedFiles s1))%nat = true)
      by by apply length_ltb_0.
    rewrite Hlt. rewrite never_aborted_not_rejected by apply Hnoabort.
    reflexivity.
Qed.

(** X12. For a filtered list with pairwise distinct paths, when every mapper
    settles and none is aborted, the job ends with every file accounted for:
    the total is the number of filtered files, and each of them is either
    counted as downloaded or listed as failed. *)
Theorem downloadDirectory_accounts (opts : Options) (form : Form)
    (net : Network) (s : Session) (filteredFiles : list RepoFile) :
  entersPasses opts net filteredFiles ->
  NoDup (path <$> filteredFiles) ->
  (forall pass batch, settleOrder net pass batch ≡ₚ batch) ->
  (forall pass file, fetch net pass file <> Aborted) ->
  let final := session (downloadDirectory opts form net s) in
  totalFiles final = Z.of_nat (length filteredFiles)
  /\ downloadedFiles final + Z.of_nat (length (failedFiles final))
     = totalFiles final.
Proof.
  intros Henter Hdup Horder Hnoabort final. subst final.
  rewrite (downloadDirectory_unaborted _ _ _ _ _ Henter Hnoabort). cbv zeta.
  set (dir := directory opts).
  set (s1 := afterFirstPass net dir filteredFiles s).
  set (order1 := settleOrder net 1 filteredFiles).
  assert (Ht1 : totalFiles s1 = Z.of_nat (length filteredFiles)).
  { subst s1. by rewrite afterFirstPass_eq, settleAll_totalFiles. }
  assert (Hd1 : downloadedFiles s1
                = Z.of_nat
                    (length (List.filter
                               (fun f => isFetched (fetch net 1 f)) order1))).
  { subst s1. by rewrite afterFirstPass_eq, settleAll_downloadedFiles. }
  assert (Hf1 : length (failedFiles s1)
                = length (List.filter
                            (fun f => isFailed (fetch net 1 f)) order1)).
  { subst s1. rewrite afterFirstPass_eq, settleAll_failedFiles. simpl.
    by rewrite length_fmap. }
  pose proof (filter_outcomes_exact net 1 order1 (Hnoabort 1%nat)) as Hex1.
  assert (Hlen1 : length order1 = length filteredFiles)
    by (subst order1; by rewrite Horder).
  destruct (decide (failedFiles s1 = [])) as [Hnil|Hsome]; cbn [session].
  - split; [done|]. rewrite Hnil in *. simpl in *. lia.
  - set (targets := retryTargets filteredFiles s1).
    set (order2 := settleOrder net 2 targets).
    rewrite settleAll_totalFiles, settleAll_downloadedFiles,
      settleAll_failedFiles.
    split; [done|]. simpl. rewrite length_fmap.
    pose proof (filter_outcomes_exact net 2 order2 (Hnoabort 2%nat)) as Hex2.
    assert (Hlen2 : length order2
                    = length (List.filter
                                (fun f => isFailed (fetch net 1 f)) order1)).
    { subst order2 targets s1. rewrite Horder.
      rewrite (retryTargets_failedFirst net dir filteredFiles s Hdup Horder).
      apply Permutation_length, filter_Permutation_bool.
      subst order1. by rewrite Horder. }
    lia.
Qed.

(** The theorem on three files, of which the second fails twice and the third
    once. *)
Lemma downloadDirectory_accounts_witness :
  let final :=
    session
      (downloadDirectory plainOptions plainForm flakyNetwork resetSession) in
  totalFiles final = 3
  /\ downloadedFiles final + Z.of_nat (length (failedFiles final))
     = totalFiles final.
Proof.
  assert (Henter : entersPasses plainOptions flakyNetwork
                     [fileA; fileB; fileC]).
  { exists [fileA; fileB; fileC]. repeat split; done. }
  assert (Hdup : NoDup (path <$> [fileA; fileB; fileC])).
  { apply (bool_decide_unpack _). vm_compute. exact I. }
  assert (Horder : forall pass batch,
                     settleOrder flakyNetwork pass batch ≡ₚ batch).
  { intros pass batch. simpl. apply reverse_Permutation. }
  assert (Hnoabort : forall pass file,
                       fetch flakyNetwork pass file <> Aborted).
  { intros pass file. simpl.
    destruct (String.eqb (sha file) "bbbb"); [done|].
    destruct (String.eqb (sha file) "cccc" && (pass =? 1)%nat); done. }
  apply (downloadDirectory_accounts plainOptions plainForm flakyNetwork
           resetSession [fileA; fileB; fileC] Henter Hdup Horder Hnoabort).
Defined.

(** ** The files added to the zip *)

Lemma fmap_NoDup_inj {A B} (h : A -> B) (l : list A) (x y : A) :
  NoDup (h <$> l) -> x ∈ l -> y ∈ l -> h x = h y -> x = y.
Proof.
  induction l as [|z l IH]; intros Hdup Hx Hy E.
  - by apply elem_of_nil in Hx.
  - rewrite fmap_cons in Hdup. apply NoDup_cons in Hdup as [Hz Hdup].
    apply elem_of_cons in Hx as [->|Hx]; apply elem_of_cons in Hy as [->|Hy].
    + done.
    + exfalso. apply Hz. rewrite E. by apply list_elem_of_fmap_2.
    + exfalso. apply Hz. rewrite <- E. by apply list_elem_of_fmap_2.
    + by apply IH.
Qed.

(** Files with distinct relative paths have distinct paths. *)
Lemma relativePath_NoDup_path (dir : string) (l : list RepoFile) :
  NoDup (relativePath dir <$> l) -> NoDup (path <$> l).
Proof.
  intros H.
  assert (E : relativePath dir <$> l
              = (fun p => if Js.isEmpty dir then p
                          else Js.removeFirst (dir +:+ "/") p)
                  <$> (path <$> l)).
  { rewrite <- list_fmap_compose. done. }
  rewrite E in H. by apply NoDup_fmap_1 in H.
Qed.

(** The entry under a name once the mappers of a batch with distinct
    relative paths have settled. *)
Lemma settleAll_lookup (net : Network) (dir : string) (pass : nat)
    (l : list RepoFile) (s : Session) (name : string) (blob : Blob) :
  NoDup (relativePath dir <$> l) ->
  zipFiles (settleAll net dir pass l s) !! name = Some blob
  <-> (exists f, f ∈ l /\ relativePath dir f = name
                 /\ fetch net pass f = Fetched blob)
      \/ ((forall f, f ∈ l -> relativePath dir f = name ->
                     isFetched (fetch net pass f) = false)
          /\ zipFiles s !! name = Some blob).
Proof.
  revert s. induction l as [|f l IH]; intros s Hdup.
  - simpl. split.
    + intros H. right. split; [by intros ? ?%elem_of_nil | done].
    + intros [(f & Hf & _)|[_ H]]; [by apply elem_of_nil in Hf | done].
  - rewrite fmap_cons in Hdup. apply NoDup_cons in Hdup as [Hf Hdup].
    rewrite settleAll_cons, (IH _ Hdup). clear IH.
    assert (Hother : forall g, g ∈ l ->
                               relativePath dir g <> relativePath dir f).
    { intros g Hg E. apply Hf. rewrite <- E. by apply list_elem_of_fmap_2. }
    assert (Hkeep : forall o, isFetched o = false ->
                fetch net pass f = o ->
                zipFiles (settle dir s f o) = zipFiles s).
    { by intros [] ? ?. }
    destruct (fetch net pass f) as [b| |] eqn:E.
    + cbn [settle zipFiles].
      destruct (decide (relativePath dir f = name)) as [Hn|Hn].
      * rewrite Hn, lookup_insert_eq. split.
        -- intros [(g & Hg & Hgn & _)|[_ [= ->]]].
           ++ exfalso. apply (Hother g Hg). congruence.
           ++ left. exists f. split; [by left | done].
        -- intros [(g & Hg & Hgn & Hfetch)|[Hall _]].
           ++ apply elem_of_cons in Hg as [->|Hg].
              ** right. split; [|congruence].
                 intros g Hg Hgn'. exfalso. apply (Hother g Hg). congruence.
              ** exfalso. apply (Hother g Hg). congruence.
           ++ assert (Hin : f ∈ f :: l) by left.
              specialize (Hall f Hin Hn). by rewrite E in Hall.
      * rewrite lookup_insert_ne by done. split.
        -- intros [(g & Hg & ? & ?)|[Hall H]].
           ++ left. exists g. split; [by right | done].
           ++ right. split; [|done].
              intros g [->|Hg]%elem_of_cons; [done | by apply Hall].
        -- intros [(g & Hg & Hgn & Hfetch)|[Hall H]].
           ++ apply elem_of_cons in Hg as [->|Hg]; [done|]. left. eauto.
           ++ right. split; [|done]. intros g Hg. apply Hall. by right.
    + rewrite (Hkeep Failed) by done. split.
      * intros [(g & Hg & ? & ?)|[Hall H]].
        -- left. exists g. split; [by right | done].
        -- right. split; [|done].
           intros g [->|Hg]%elem_of_cons; [by rewrite E | by apply Hall].
      * intros [(g & Hg & Hgn & Hfetch)|[Hall H]].
        -- apply elem_of_cons in Hg as [->|Hg]; [congruence|]. left. eauto.
        -- right. split; [|done]. intros g Hg. apply Hall. by right.
    + rewrite (Hkeep Aborted) by done. split.
      * intros [(g & Hg & ? & ?)|[Hall H]].
        -- left. exists g. split; [by right | done].
        -- right. split; [|done].
           intros g [->|Hg]%elem_of_cons; [by rewrite E | by apply Hall].
      * intros [(g & Hg & Hgn & Hfetch)|[Hall H]].
        -- apply elem_of_cons in Hg as [->|Hg]; [congruence|]. left. eauto.
        -- right. split; [|done]. intros g Hg. apply Hall. by right.
Qed.

(** Each mapper that fetches adds one entry, when the relative paths of the
    batch are distinct and not yet in the zip. *)
Lemma settleAll_size (net : Network) (dir : string) (pass : nat)
    (l : list RepoFile) (s : Session) :
  NoDup (relativePath dir <$> l) ->
  (forall f, f ∈ l -> zipFiles s !! relativePath dir f = None) ->
  base.size (zipFiles (settleAll net dir pass l s))
  = (base.size (zipFiles s)
     + length (List.filter (fun f => isFetched (fetch net pass f)) l))%nat.
Proof.
  revert s. induction l as [|f l IH]; intros s Hdup Hnew.
  - simpl. lia.
  - rewrite fmap_cons in Hdup. apply NoDup_cons in Hdup as [Hf Hdup].
    rewrite settleAll_cons. cbn [List.filter].
    assert (Hrest : forall g, g ∈ l -> zipFiles s !! relativePath dir g = None).
    { intros g Hg. apply Hnew. by right. }
    destruct (fetch net pass f) as [b| |] eqn:E; cbn [isFetched length].
    + rewrite IH; [|done|].
      * cbn [settle zipFiles].
        rewrite map_size_insert_None by (apply Hnew; left). lia.
      * intros g Hg. cbn [settle zipFiles].
        rewrite lookup_insert_ne; [by apply Hrest|].
        intros Heq. apply Hf. rewrite Heq. by apply list_elem_of_fmap_2.
    + by rewrite IH.
    + by rewrite IH.
Qed.

(** X13. For a filtered list whose paths relative to the directory are
    pairwise distinct, when every mapper settles and none is aborted: the
    names under which a file has been added to the zip with [zip.file] are as
    many as the files counted as downloaded, and a blob has been added under
    a name exactly when it was fetched for the file of that relative path,
    in the first pass or, after a failure in the first pass, in the retry.
    The folder entries that the library adds for parent directories are not
    files added, and are not counted. *)
Theorem files_added_to_zip (opts : Options) (form : Form) (net : Network)
    (s : Session) (filteredFiles : list RepoFile) :
  entersPasses opts net filteredFiles ->
  NoDup (relativePath (directory opts) <$> filteredFiles) ->
  (forall pass batch, settleOrder net pass batch ≡ₚ batch) ->
  (forall pass file, fetch net pass file <> Aborted) ->
  let dir := directory opts in
  let out := downloadDirectory opts form net s in
  Z.of_nat (base.size (zipFiles (session out))) = downloadedFiles (session out)
  /\ (forall entry blob,
        zipFiles (session out) !! entry = Some blob
        <-> exists file,
              file ∈ filteredFiles /\ relativePath dir file = entry
              /\ (fetch net 1 file = Fetched blob
                  \/ fetch net 1 file = Failed
                     /\ fetch net 2 file = Fetched blob)).
Proof.
  intros Henter Hrel Horder Hnoabort dir out. subst out.
  pose proof (relativePath_NoDup_path _ _ Hrel) as Hdup.
  rewrite (downloadDirectory_unaborted _ _ _ _ _ Henter Hnoabort). cbv zeta.
  fold dir in Hrel |- *.
  set (s1 := afterFirstPass net dir filteredFiles s).
  set (order1 := settleOrder net 1 filteredFiles).
  assert (Hrel1 : NoDup (relativePath dir <$> order1))
    by (subst order1; by rewrite Horder).
  assert (Hsize1 : Z.of_nat (base.size (zipFiles s1)) = downloadedFiles s1).
  { subst s1. rewrite afterFirstPass_eq, settleAll_downloadedFiles.
    fold order1. rewrite settleAll_size; [|done|].
    - change (zipFiles (startSession filteredFiles s))
        with (∅ : gmap string Blob).
      rewrite map_size_empty.
      change (downloadedFiles (startSession filteredFiles s)) with 0. lia.
    - intros f _. apply lookup_empty. }
  assert (Hzip1 : forall entry blob,
            zipFiles s1 !! entry = Some blob
            <-> exists file, file ∈ filteredFiles
                  /\ relativePath dir file = entry
                  /\ fetch net 1 file = Fetched blob).
  { intros entry blob. subst s1. rewrite afterFirstPass_eq. fold order1.
    rewrite (settleAll_lookup net dir 1 order1 _ entry blob Hrel1).
    simpl. rewrite lookup_empty. split.
    - intros [(f & Hf & ? & ?)|[_ ?]]; [|done]. exists f.
      subst order1. rewrite Horder in Hf. done.
    - intros (f & Hf & ? & ?). left. exists f. subst order1.
      rewrite Horder. done. }
  destruct (decide (failedFiles s1 = [])) as [Hnil|Hsome];
    cbn [session saved].
  - split; [exact Hsize1|]. intros entry blob. rewrite Hzip1. split.
    + intros (file & ? & ? & ?). exists file. auto.
    + intros (file & Hin & ? & [?|[H1 _]]); [eauto|]. exfalso.
      apply (captured_failures_elem net dir filteredFiles s Hdup Horder)
        in H1; [|done].
      fold s1 in H1. rewrite Hnil in H1. by apply elem_of_nil in H1.
  - set (targets := retryTargets filteredFiles s1).
    set (order2 := settleOrder net 2 targets).
    assert (Hin2 : forall file,
              file ∈ order2
              <-> file ∈ filteredFiles /\ fetch net 1 file = Failed)
      by apply (order2_elem net dir filteredFiles s Hdup Horder).
    assert (Hrel2 : NoDup (relativePath dir <$> order2)).
    { subst order2. rewrite Horder.
      apply (sublist_NoDup _ _ Hrel), fmap_sublist, retryTargets_sublist. }
    assert (Hsame : forall f g, f ∈ filteredFiles -> g ∈ filteredFiles ->
                      relativePath dir f = relativePath dir g -> f = g)
      by (intros f g; by apply fmap_NoDup_inj).
    split.
    + rewrite settleAll_size, settleAll_downloadedFiles; [|done|].
      * change (zipFiles (clearFailed s1)) with (zipFiles s1).
        change (downloadedFiles (clearFailed s1)) with (downloadedFiles s1).
        lia.
      * intros g [Hg H1]%Hin2.
        change (zipFiles (clearFailed s1)) with (zipFiles s1).
        destruct (zipFiles s1 !! relativePath dir g) as [b|] eqn:Eb; [|done].
        apply Hzip1 in Eb as (f & Hf & Hfg & Hfetch).
        rewrite (Hsame f g Hf Hg Hfg) in Hfetch. congruence.
    + intros entry blob.
      rewrite (settleAll_lookup net dir 2 order2 _ entry blob Hrel2).
      change (zipFiles (clearFailed s1)) with (zipFiles s1).
      rewrite Hzip1. split.
      * intros [(g & [Hg H1]%Hin2 & ? & ?)|[_ (f & ? & ? & ?)]].
        -- exists g. auto.
        -- exists f. auto.
      * intros (file & Hin & Hname & [H1|[H1 H2]]).
        -- right. split; [|by exists file].
           intros g [Hg Hg1]%Hin2 Hgn.
           rewrite (Hsame g file Hg Hin) in Hg1 by congruence. congruence.
        -- left. exists file. split; [by apply Hin2 | done].
Qed.

(** The theorem on three files, of which the second fails twice and the third
    once: the first and the third have been added. *)
Lemma files_added_to_zip_witness :
  Z.of_nat
    (base.size
       (zipFiles
          (session
             (downloadDirectory plainOptions plainForm flakyNetwork
                resetSession))))
  = 2
  /\ zipFiles
       (session
          (downloadDirectory plainOptions plainForm flakyNetwork
             resetSession))
       !! "sub/c.txt"
     = Some "data".
Proof.
  assert (Henter : entersPasses plainOptions flakyNetwork
                     [fileA; fileB; fileC]).
  { exists [fileA; fileB; fileC]. repeat split; done. }
  assert (Hrel : NoDup (relativePath (directory plainOptions)
                          <$> [fileA; fileB; fileC])).
  { apply (bool_decide_unpack _). vm_compute. exact I. }
  assert (Horder : forall pass batch,
                     settleOrder flakyNetwork pass batch ≡ₚ batch).
  { intros pass batch. simpl. apply reverse_Permutation. }
  assert (Hnoabort : forall pass file,
                       fetch flakyNetwork pass file <> Aborted).
  { intros pass file. simpl.
    destruct (String.eqb (sha file) "bbbb"); [done|].
    destruct (String.eqb (sha file) "cccc" && (pass =? 1)%nat); done. }
  pose proof (files_added_to_zip plainOptions plainForm flakyNetwork
                resetSession [fileA; fileB; fileC] Henter Hrel Horder
                Hnoabort) as H.
  cbv zeta in H. destruct H as [Hsize Hadded].
  split.
  - etransitivity; [exact Hsize|]. vm_compute. reflexivity.
  - apply (proj2 (Hadded "sub/c.txt" "data")).
    exists fileC. split; [apply list_elem_of_In; simpl; auto|].
    split; [reflexivity|]. right. split; reflexivity.
Defined.

(** ** The order in which the fetches complete *)

Lemma existsb_Permutation {A} (f : A -> bool) (l k : list A) :
  l ≡ₚ k -> existsb f l = existsb f k.
Proof.
  induction 1 as [|x l k _ IH|x y l|l k m _ IH1 _ IH2]; simpl.
  - done.
  - by rewrite IH.
  - by destruct (f x), (f y).
  - by etrans.
Qed.

Lemma sameButOrder_refl (s : Session) : sameButOrder s s.
Proof. by repeat split. Qed.

Lemma settleAll_sameButOrder (net : Network) (dir : string) (pass : nat)
    (l l' : list RepoFile) (s s' : Session) :
  l' ≡ₚ l -> sameButOrder s s' ->
  sameButOrder (settleAll net dir pass l s) (settleAll net dir pass l' s').
Proof.
  intros Hp (Ht & Hd & He & Hf & Hz). unfold sameButOrder.
  rewrite !settleAll_totalFiles, !settleAll_downloadedFiles,
    !settleAll_estimatedBytes, !settleAll_failedFiles.
  split; [done|]. split.
  { rewrite Hd. do 2 f_equal.
    by apply Permutation_length, filter_Permutation_bool. }
  split; [done|]. split.
  { apply Permutation_app; [done|].
    by apply fmap_Permutation, filter_Permutation_bool. }
  intros entry. rewrite !settleAll_zipFiles, Hz.
  split; (intros [?|(f & Hin & ? & ?)]; [by left|]); right; exists f.
  - by rewrite <- Hp.
  - by rewrite Hp.
Qed.

Lemma settleAll_zip_eq (net : Network) (dir : string) (pass : nat)
    (l l' : list RepoFile) (s s' : Session) :
  NoDup (relativePath dir <$> l) -> l' ≡ₚ l -> zipFiles s' = zipFiles s ->
  zipFiles (settleAll net dir pass l' s') = zipFiles (settleAll net dir pass l s).
Proof.
  intros Hdup Hp Hz. apply map_eq. intros entry. apply option_eq.
  intros blob.
  assert (Hdup' : NoDup (relativePath dir <$> l')) by by rewrite Hp.
  rewrite (settleAll_lookup net dir pass l s entry blob Hdup).
  rewrite (settleAll_lookup net dir pass l' s' entry blob Hdup').
  rewrite Hz. split.
  - intros [(f & Hin & ? & ?)|[Hall ?]].
    + left. exists f. by rewrite <- Hp.
    + right. split; [|done]. intros f Hin. apply Hall. by rewrite Hp.
  - intros [(f & Hin & ? & ?)|[Hall ?]].
    + left. exists f. by rewrite Hp.
    + right. split; [|done]. intros f Hin. apply Hall. by rewrite <- Hp.
Qed.

Lemma retryTargets_Permutation (filteredFiles : list RepoFile)
    (s s' : Session) :
  failedFiles s' ≡ₚ failedFiles s ->
  retryTargets filteredFiles s' = retryTargets filteredFiles s.
Proof.
  intros Hp. unfold retryTargets. apply filter_ext. intros file.
  apply eq_true_iff_eq. rewrite !includes_spec. by rewrite Hp.
Qed.

(** X14. The order in which the fetches of a pass complete does not change
    what [downloadDirectory] comes to: with the same listing and the same
    result for each fetch, two runs whose mappers settle in different orders
    complete alike, make the same [pMap] calls, save under the same name and
    end with the same counters, the same failed paths up to their order and
    the same entry names in the zip; when the relative paths of the filtered
    files are pairwise distinct the two archives are equal. *)
Theorem completion_order_immaterial (opts : Options) (form : Form)
    (net : Network) (s : Session)
    (order' : nat -> list RepoFile -> list RepoFile) :
  (forall pass batch, settleOrder net pass batch ≡ₚ batch) ->
  (forall pass batch, order' pass batch ≡ₚ batch) ->
  let out := downloadDirectory opts form net s in
  let out' := downloadDirectory opts form (withOrder net order') s in
  completion out' = completion out
  /\ passes out' = passes out
  /\ fst <$> saved out' = fst <$> saved out
  /\ sameButOrder (session out) (session out')
  /\ (forall files,
        listFiles net = Listed files ->
        NoDup (relativePath (directory opts)
                 <$> filterFiles files (filter opts)) ->
        saved out' = saved out
        /\ zipFiles (session out') = zipFiles (session out)).
Proof.
  intros Horder Horder' out out'. subst out out'. unfold downloadDirectory.
  change (listFiles (withOrder net order')) with (listFiles net).
  destruct (listFiles net) as [files|e] eqn:Hlist.
  2: { cbn. by repeat split. }
  destruct (length files =? 0)%nat.
  { cbn. by repeat split. }
  set (filteredFiles := filterFiles files (filter opts)).
  destruct (length filteredFiles =? 0)%nat.
  { cbn. by repeat split. }
  destruct (existsb _ filteredFiles).
  { cbn. by repeat split. }
  cbv zeta. unfold downloadBatch.
  change (settleAll (withOrder net order')) with (settleAll net).
  change (fetch (withOrder net order')) with (fetch net).
  change (settleOrder (withOrder net order')) with order'.
  set (dir := directory opts).
  set (limit := safeConcurrency (concurrencyField form)).
  set (s0 := startSession filteredFiles s).
  set (o1 := settleOrder net 1 filteredFiles).
  set (o1' := order' 1%nat filteredFiles).
  assert (Hp1 : o1' ≡ₚ o1) by (subst o1 o1'; by rewrite Horder, Horder').
  set (s1 := settleAll net dir 1 o1 s0).
  set (s1' := settleAll net dir 1 o1' s0).
  assert (Hs1 : sameButOrder s1 s1')
    by (apply settleAll_sameButOrder; [done | apply sameButOrder_refl]).
  assert (Hz1 : NoDup (relativePath dir <$> filteredFiles) ->
                zipFiles s1' = zipFiles s1).
  { intros Hrel. apply settleAll_zip_eq; [|done..].
    subst o1. by rewrite Horder. }
  rewrite (existsb_Permutation _ _ _ Hp1).
  destruct (existsb _ o1).
  { cbn. split; [done|]. split; [done|]. split; [done|]. split; [done|].
    intros files0 [= <-] Hrel. split; [done | by apply Hz1]. }
  assert (Hlen : length (failedFiles s1') = length (failedFiles s1))
    by apply Permutation_length, Hs1.
  rewrite Hlen.
  rewrite (retryTargets_Permutation filteredFiles s1 s1') by apply Hs1.
  destruct (0 <? length (failedFiles s1))%nat.
  - set (targets := retryTargets filteredFiles s1).
    set (o2 := settleOrder net 2 targets).
    set (o2' := order' 2%nat targets).
    assert (Hp2 : o2' ≡ₚ o2) by (subst o2 o2'; by rewrite Horder, Horder').
    set (s2 := settleAll net dir 2 o2 (clearFailed s1)).
    set (s2' := settleAll net dir 2 o2' (clearFailed s1')).
    assert (Hs2 : sameButOrder s2 s2').
    { apply settleAll_sameButOrder; [done|].
      destruct Hs1 as (Ht & Hd & He & _ & Hz). unfold sameButOrder.
      cbn [clearFailed totalFiles downloadedFiles estimatedBytes failedFiles
           zipFiles].
      split; [done|]. split; [done|]. split; [done|].
      split; [done | exact Hz]. }
    assert (Hz2 : NoDup (relativePath dir <$> filteredFiles) ->
                  zipFiles s2' = zipFiles s2).
    { intros Hrel. apply settleAll_zip_eq; [|done|by apply Hz1].
      subst o2. rewrite Horder.
      apply (sublist_NoDup _ _ Hrel), fmap_sublist, retryTargets_sublist. }
    rewrite (existsb_Permutation _ _ _ Hp2).
    destruct (existsb _ o2); cbn.
    + split; [done|]. split; [done|]. split; [done|]. split; [done|].
      intros files0 [= <-] Hrel. split; [done | by apply Hz2].
    + split; [done|]. split; [done|]. split; [done|]. split; [done|].
      intros files0 [= <-] Hrel. unfold saveArchive.
      rewrite (Hz2 Hrel). done.
  - cbn. split; [done|]. split; [done|]. split; [done|]. split; [done|].
    intros files0 [= <-] Hrel. unfold saveArchive.
    rewrite (Hz1 Hrel). done.
Qed.

(** The theorem on three files whose mappers settle in the order of the
    listing instead of the reverse order. *)
Lemma completion_order_immaterial_witness :
  passes
    (downloadDirectory plainOptions plainForm
       (withOrder flakyNetwork (fun _ batch => batch)) resetSession)
  = passes
      (downloadDirectory plainOptions plainForm flakyNetwork resetSession).
Proof.
  assert (Horder : forall pass batch,
                     settleOrder flakyNetwork pass batch ≡ₚ batch).
  { intros pass batch. simpl. apply reverse_Permutation. }
  assert (Horder' : forall (pass : nat) (batch : list RepoFile),
                      batch ≡ₚ batch) by done.
  apply (completion_order_immaterial plainOptions plainForm flakyNetwork
           resetSession (fun _ batch => batch) Horder Horder').
Defined.

(** ** One call of [runDownload] *)

Lemma deliver_cons (e : UiEvent) (events : list UiEvent) (app : App) :
  deliver (e :: events) app = deliver events (handleEvent app e).
Proof. reflexivity. Qed.

Lemma deliver_queue_congr (events : list UiEvent) (app app' : App) :
  queue app' = queue app ->
  queue (deliver events app') = queue (deliver events app).
Proof.
  revert app app'. induction events as [|e events IH]; intros app app' H;
    [done|].
  rewrite !deliver_cons. apply IH. destruct e; simpl; by rewrite ?H.
Qed.

Lemma tryBlock_artifact w url item app e a :
  snd (tryBlock w url item app) = Done e (Some a) -> e = Finished.
Proof.
  unfold tryBlock. destruct (resolution w) as [[error|u r g p d|u r g d p]|?];
    try done.
  - destruct (p && negb _); [done|].
    unfold downloadFullRepository.
    destruct p; [|by intros [= <- _]].
    destruct (archiveFetch w); simpl; try done. by intros [= <- _].
  - destruct (p && negb _); [done|]. simpl.
    destruct (completion _); [|done]. by intros [= <- _].
Qed.




(** ** The recent URLs after a job *)

Lemma pushRecentUrl_other (url key : string)
    (storage : gmap string StoredText) :
  key <> recentStorageKey ->
  pushRecentUrl url storage !! key = storage !! key.
Proof.
  intros H. unfold pushRecentUrl, writeRecentUrls. cbv zeta.
  by rewrite lookup_insert_ne.
Qed.

Lemma tokenStored_push (url : string) (storage : gmap string StoredText) :
  tokenStored (pushRecentUrl url storage) = tokenStored storage.
Proof. unfold tokenStored. by rewrite pushRecentUrl_other. Qed.

Lemma readRecentUrls_push (url : string) (storage : gmap string StoredText) :
  readRecentUrls (pushRecentUrl url storage)
  = url :: take 6 (List.filter (fun item => negb (String.eqb item url))
                     (readRecentUrls storage)).
Proof. unfold pushRecentUrl. cbv zeta. by rewrite readRecentUrls_write. Qed.

Lemma tryBlock_storage w url item app :
  localStorage (fst (tryBlock w url item app))
  = if resolves w then pushRecentUrl url (localStorage app)
    else localStorage app.
Proof.
  unfold tryBlock, resolves.
  destruct (resolution w) as [[error|u r g p d|u r g d p]|e]; try done.
  - destruct (p && negb _); [done|]. unfold downloadFullRepository.
    destruct p; [|by destruct (item_filename item) as [[]|]].
    destruct (archiveFetch w); by destruct (item_filename item) as [[]|].
  - destruct (p && negb _); [done|].
    by destruct (item_filename item) as [[]|].
Qed.




(** ** The queue is served first in, first out *)

Lemma deliver_pushed (events : list UiEvent) (app : App) :
  forallb keepsQueue events = true ->
  queue (deliver events app) = queue app ++ pushedItems events.
Proof.
  revert app. induction events as [|e events IH]; intros app H.
  - simpl. by rewrite app_nil_r.
  - simpl in H. apply andb_true_iff in H as [He H].
    rewrite deliver_cons, IH by done.
    destruct e; simpl; try done. by rewrite <- app_assoc.
Qed.

Lemma runDownload_queue (w : JobWorld) (item : QueueItem) (app : App) :
  forallb keepsQueue (interrupts w) = true ->
  queue (runDownload w item app) = queue app ++ pushedDuring w.
Proof.
  intros Hkeep. unfold runDownload, pushedDuring, suspends.
  destruct (normalizedUrl w) as [url|]; [|by rewrite app_nil_r].
  destruct (blockedWords_test url); [by rewrite app_nil_r|].
  destruct (onLine w); cbn [negb andb]; [|by rewrite app_nil_r].
  pose proof (tryBlock_queue w url item (setController (Some false) app))
    as Hq.
  destruct (tryBlock w url item (setController (Some false) app))
    as [app1 result].
  cbn [fst] in Hq. cbn [setController addRecord queue].
  rewrite (deliver_queue_congr _ app app1) by done.
  by apply deliver_pushed.
Qed.

(** The loop of the queue, as long as no handler empties the queue. *)
Lemma processLoop_fifo (worlds : list JobWorld) (app : App) :
  Forall (fun w => forallb keepsQueue (interrupts w) = true) worlds ->
  exists k,
    (k <= length worlds)%nat
    /\ started (processLoop worlds app) ++ queue (processLoop worlds app)
       = started app ++ queue app
         ++ concat (pushedDuring <$> take k worlds)
    /\ length (started (processLoop worlds app))
       = (length (started app) + k)%nat
    /\ (queue (processLoop worlds app) = [] ->
        isProcessingQueue (processLoop worlds app) = false)
    /\ (queue (processLoop worlds app) <> [] -> k = length worlds).
Proof.
  intros Hok. revert app.
  induction Hok as [|w worlds Hw _ IH]; intros app.
  - exists 0%nat. simpl. destruct (queue app) as [|item rest] eqn:E.
    + change (started (setProcessing false app)) with (started app).
      change (queue (setProcessing false app)) with (queue app).
      rewrite E, !app_nil_r, Nat.add_0_r. done.
    + rewrite E, !app_nil_r, Nat.add_0_r. done.
  - simpl. destruct (queue app) as [|item rest] eqn:E.
    + exists 0%nat.
      change (started (setProcessing false app)) with (started app).
      change (queue (setProcessing false app)) with (queue app).
      simpl. rewrite E, !app_nil_r, Nat.add_0_r. split; [lia|]. done.
    + set (app' := runDownload w item (setQueue rest app)).
      destruct (IH app') as (k & Hk & Hfifo & Hlen & Hidle & Hbusy).
      destruct (runDownload_history w item (setQueue rest app))
        as (r & Hhist & Hjob).
      assert (Hstarted : started app' = started app ++ [item]).
      { unfold started. subst app'. rewrite Hhist, fmap_app. simpl.
        by rewrite Hjob. }
      assert (Hqueue : queue app' = rest ++ pushedDuring w).
      { subst app'. by rewrite runDownload_queue. }
      exists (S k). split; [simpl; lia|]. split.
      { rewrite Hfifo, Hstarted, Hqueue. simpl.
        by rewrite <- !app_assoc. }
      split.
      { rewrite Hlen, Hstarted, length_app. simpl. lia. }
      split; [done|]. intros H. simpl. f_equal. by apply Hbusy.
Qed.

(** The loop of the queue when nothing is pushed and nothing empties the
    queue: every waiting item is started, in the order of the queue. *)
Lemma processLoop_serves (worlds : list JobWorld) (app : App) :
  Forall (fun w => forallb keepsQueue (interrupts w) = true) worlds ->
  Forall (fun w => pushedDuring w = []) worlds ->
  (length (queue app) <= length worlds)%nat ->
  started (processLoop worlds app) = started app ++ queue app
  /\ queue (processLoop worlds app) = []
  /\ isProcessingQueue (processLoop worlds app) = false.
Proof.
  intros Hok Hquiet Henough.
  destruct (processLoop_fifo worlds app Hok)
    as (k & Hk & Hfifo & Hlen & Hidle & Hbusy).
  set (final := processLoop worlds app) in *.
  assert (Hnone : concat (pushedDuring <$> take k worlds) = []).
  { clear -Hquiet. revert k.
    induction Hquiet as [|w worlds Hw _ IH]; intros k.
    - by rewrite take_nil.
    - destruct k as [|k]; [done|]. simpl. by rewrite Hw, IH. }
  rewrite Hnone, app_nil_r in Hfifo.
  assert (Hempty : queue final = []).
  { destruct (queue final) as [|x q] eqn:E; [done|]. exfalso.
    assert (Hkw : k = length worlds) by by apply Hbusy.
    apply (f_equal length) in Hfifo. rewrite !length_app in Hfifo.
    simpl in Hfifo. lia. }
  rewrite Hempty, app_nil_r in Hfifo. auto.
Qed.

(** X17. The queue is served first in, first out.  As long as no handler
    empties the queue, a call of [processQueue] on a page whose loop is not
    running starts the waiting items in their order, then the items pushed
    while jobs were suspended, in the order of the pushes; no item is skipped
    and none is started twice, whatever the way the jobs end.  When nothing
    is pushed, every waiting item has been started once the loop ends, and
    the loop is marked as not running.  A call on a page whose loop is
    running does nothing. *)
Theorem processQueue_fifo (worlds : list JobWorld) (app : App) :
  Forall (fun w => forallb keepsQueue (interrupts w) = true) worlds ->
  let final := processQueue worlds app in
  (isProcessingQueue app = true -> final = app)
  /\ (isProcessingQueue app = false ->
      (exists k,
         (k <= length worlds)%nat
         /\ started final ++ queue final
            = started app ++ queue app
              ++ concat (pushedDuring <$> take k worlds)
         /\ length (started final) = (length (started app) + k)%nat
         /\ (queue final <> [] -> k = length worlds))
      /\ (Forall (fun w => pushedDuring w = []) worlds ->
          (length (queue app) <= length worlds)%nat ->
          started final = started app ++ queue app
          /\ queue final = []
          /\ isProcessingQueue final = false)).
Proof.
  intros Hok final. subst final. unfold processQueue.
  destruct (isProcessingQueue app); [done|]. split; [done|]. intros _.
  split.
  - destruct (processLoop_fifo worlds (setProcessing true app) Hok)
      as (k & Hk & Hfifo & Hlen & _ & Hbusy).
    by exists k.
  - intros Hquiet Henough.
    by apply (processLoop_serves worlds (setProcessing true app)).
Qed.

(** The theorem on two queued jobs, the first cancelled with Escape. *)
Lemma processQueue_fifo_witness :
  started (processQueue [escapeWorld; calmWorld] idleApp) = [jobOne; jobTwo]
  /\ queue (processQueue [escapeWorld; calmWorld] idleApp) = []
  /\ isProcessingQueue (processQueue [escapeWorld; calmWorld] idleApp)
     = false.
Proof.
  assert (Hok : Forall (fun w => forallb keepsQueue (interrupts w) = true)
                  [escapeWorld; calmWorld]).
  { repeat constructor. }
  assert (Hquiet : Forall (fun w => pushedDuring w = [])
                     [escapeWorld; calmWorld]).
  { repeat constructor. }
  apply (proj2 (processQueue_fifo [escapeWorld; calmWorld] idleApp Hok)
           eq_refl);
    [exact Hquiet | simpl; lia].
Defined.

(** ** Clearing everything *)

(** X18. [clearAll], which the Cancel and the Clear-all buttons run, forgets
    the controller, empties the queue, the session and the two fields of the
    form, removes the stored token and empties the list of recent URLs; the
    other items of the storage and the record of the jobs stay.  Running it a
    second time changes nothing. *)
Theorem clearAll_spec (app : App) :
  let after := clearAll app in
  (controller after = None /\ queue after = []
   /\ stats after = resetSession
   /\ filenameInput after = EmptyString /\ filterInput after = EmptyString)
  /\ tokenStored (localStorage after) = false
  /\ localStorage after !! tokenStorageKey = None
  /\ readRecentUrls (localStorage after) = []
  /\ (forall key,
        key <> tokenStorageKey -> key <> recentStorageKey ->
        localStorage after !! key = localStorage app !! key)
  /\ history after = history app
  /\ clearAll after = after
  /\ handleEvent app ClickCancel = after.
Proof.
  intros after. subst after. split; [done|].
  assert (Hst : localStorage (clearAll app)
                = writeRecentUrls [] (delete tokenStorageKey (localStorage app)))
    by done.
  assert (Htoken : localStorage (clearAll app) !! tokenStorageKey = None).
  { rewrite Hst. unfold writeRecentUrls.
    rewrite lookup_insert_ne by done. apply lookup_delete_eq. }
  split; [unfold tokenStored; by rewrite Htoken|]. split; [done|].
  split; [rewrite Hst; by rewrite readRecentUrls_write|]. split.
  { intros key H1 H2. rewrite Hst. unfold writeRecentUrls.
    rewrite lookup_insert_ne by done. by rewrite lookup_delete_ne. }
  split; [done|]. split; [|done].
  unfold clearAll at 1 3. rewrite Hst.
  cbn [isProcessingQueue concurrencyInput history localStorage].
  f_equal. unfold writeRecentUrls.
  rewrite delete_insert_ne by done.
  rewrite delete_delete_eq. apply insert_insert_eq.
Qed.

(** ** Pushing a URL twice *)

Lemma filter_other_fixed (url : string) (l : list string) :
  ~ In url l ->
  List.filter (fun item => negb (String.eqb item url)) l = l.
Proof.
  intros H. apply filter_all. intros x Hx. apply negb_true_iff.
  apply String.eqb_neq. intros ->. by apply H.
Qed.

(** X19. Pushing the URL that already stands first in the list of recent
    URLs changes nothing, so a URL that is downloaded again and again takes
    one place in the list; and [pushRecentUrl] writes no item of the storage
    but the list: the stored token stays. *)
Theorem pushRecentUrl_idempotent (url : string)
    (storage : gmap string StoredText) :
  pushRecentUrl url (pushRecentUrl url storage) = pushRecentUrl url storage
  /\ tokenStored (pushRecentUrl url storage) = tokenStored storage
  /\ forall key,
       key <> recentStorageKey ->
       pushRecentUrl url storage !! key = storage !! key.
Proof.
  split; [|split; [apply tokenStored_push|]].
  2: { intros key H. by apply pushRecentUrl_other. }
  unfold pushRecentUrl at 1. cbv zeta. rewrite readRecentUrls_push.
  set (others := List.filter (fun item => negb (String.eqb item url))
                   (readRecentUrls storage)).
  assert (Hnot : ~ In url (take 6 others)).
  { intros H. apply list_elem_of_In in H.
    assert (Hin : url ∈ others)
      by (eapply elem_of_sublist; [exact H | apply sublist_take]).
    subst others. apply elem_of_filter_bool in Hin as [_ Hin].
    by rewrite String.eqb_refl in Hin. }
  cbn [List.filter]. rewrite String.eqb_refl. cbn [negb].
  rewrite (filter_other_fixed url _ Hnot).
  unfold pushRecentUrl, writeRecentUrls. cbv zeta. fold others.
  rewrite insert_insert_eq. do 4 f_equal.
  change (take 7 (url :: take 6 others)) with (url :: take 6 (take 6 others)).
  change (take 7 (url :: others)) with (url :: take 6 others).
  by rewrite take_take.
Qed.

(** ** The list of URLs *)

Lemma splitUrls_cons (b : bool) (s : string) :
  exists piece pieces, splitUrls b s = piece :: pieces.
Proof.
  revert b. induction s as [|c rest IH]; intros b; [by eexists _, _|].
  cbn [splitUrls].
  destruct (b && Js.isWhiteSpace c); [apply IH|].
  destruct (Ascii.eqb c "010"); [by eexists _, _|].
  destruct (Ascii.eqb c ","); [by eexists _, _|].
  destruct (Ascii.eqb c "013").
  { destruct rest as [|d rest']; [by eexists _, _|].
    destruct (Ascii.eqb d "010"); by eexists _, _. }
  destruct (Js.isWhiteSpace c); [by eexists _, _|].
  destruct (IH false) as (p & ps & ->). by eexists _, _.
Qed.

Lemma fields_cons (class : ascii -> bool) (s : string) :
  exists piece pieces, fields class s = piece :: pieces.
Proof.
  induction s as [|c rest (p & ps & IH)]; [by eexists _, _|].
  simpl. rewrite IH. destruct (class c); by eexists _, _.
Qed.

Lemma splitUrls_leave (c : ascii) (rest : string) :
  Js.isWhiteSpace c = false ->
  splitUrls true (String c rest) = splitUrls false (String c rest).
Proof. intros H. cbn [splitUrls]. by rewrite H. Qed.

(** The pieces that the regular expression cuts are, the empty ones apart,
    the pieces between white space and commas. *)
Lemma splitUrls_fields (s : string) :
  (hd EmptyString (splitUrls false s)
   = hd EmptyString (fields isBlankOrComma s)
   /\ List.filter (fun piece => negb (Js.isEmpty piece))
        (tl (splitUrls false s))
      = List.filter (fun piece => negb (Js.isEmpty piece))
          (tl (fields isBlankOrComma s)))
  /\ List.filter (fun piece => negb (Js.isEmpty piece)) (splitUrls true s)
     = List.filter (fun piece => negb (Js.isEmpty piece))
         (fields isBlankOrComma s).
Proof.
  induction s as [|c rest [[IHh IHt] IHs]]; [done|].
  assert (IHw : List.filter (fun piece => negb (Js.isEmpty piece))
                  (splitUrls false rest)
                = List.filter (fun piece => negb (Js.isEmpty piece))
                    (fields isBlankOrComma rest)).
  { destruct (splitUrls_cons false rest) as (p & ps & E).
    destruct (fields_cons isBlankOrComma rest) as (q & qs & F).
    rewrite E, F in *. simpl in IHh, IHt. simpl. by rewrite IHh, IHt. }
  assert (Hfalse :
    hd EmptyString (splitUrls false (String c rest))
    = hd EmptyString (fields isBlankOrComma (String c rest))
    /\ List.filter (fun piece => negb (Js.isEmpty piece))
         (tl (splitUrls false (String c rest)))
       = List.filter (fun piece => negb (Js.isEmpty piece))
           (tl (fields isBlankOrComma (String c rest)))).
  { assert (Hcls : isBlankOrComma c = Js.isWhiteSpace c || Ascii.eqb c ",")
      by done.
    cbn [splitUrls fields andb]. rewrite !Hcls.
    destruct (Ascii.eqb c "010") eqn:ELF.
    { apply Ascii.eqb_eq in ELF. subst c. done. }
    destruct (Ascii.eqb c ",") eqn:EC.
    { apply Ascii.eqb_eq in EC. subst c. done. }
    destruct (Ascii.eqb c "013") eqn:ECR.
    { apply Ascii.eqb_eq in ECR. subst c.
      change (Js.isWhiteSpace "013" || false) with true. cbv iota.
      destruct rest as [|d rest']; [done|].
      destruct (Ascii.eqb d "010") eqn:ED; [|done].
      apply Ascii.eqb_eq in ED. subst d. split; [done|].
      cbn [tl]. rewrite <- IHw. done. }
    rewrite orb_false_r. destruct (Js.isWhiteSpace c) eqn:EW; [done|].
    destruct (splitUrls_cons false rest) as (p & ps & E).
    destruct (fields_cons isBlankOrComma rest) as (q & qs & F).
    rewrite E, F in *. simpl in IHh, IHt. simpl. by rewrite IHh. }
  split; [exact Hfalse|].
  destruct (Js.isWhiteSpace c) eqn:EW.
  - cbn [splitUrls fields andb].
    change (isBlankOrComma c) with (Js.isWhiteSpace c || Ascii.eqb c ",").
    rewrite EW. exact IHs.
  - rewrite (splitUrls_leave c rest EW). destruct Hfalse as [Hh Ht].
    destruct (splitUrls_cons false (String c rest)) as (p & ps & E).
    destruct (fields_cons isBlankOrComma (String c rest)) as (q & qs & F).
    rewrite E, F in *. simpl in Hh, Ht. simpl. by rewrite Hh, Ht.
Qed.

Lemma splitUrls_plain (s : string) (b : bool) (piece : string) (c : ascii) :
  In piece (splitUrls b s) -> In c (chars piece) ->
  isBlankOrComma c = false.
Proof.
  revert b piece. induction s as [|a rest IH]; intros b piece Hp Hc.
  - destruct Hp as [<-|[]]. done.
  - cbn [splitUrls] in Hp.
    destruct (b && Js.isWhiteSpace a); [by eapply IH|].
    assert (Hsep : forall b',
              In piece (EmptyString :: splitUrls b' rest) ->
              isBlankOrComma c = false).
    { intros b' [<-|H]; [done | by eapply IH]. }
    destruct (Ascii.eqb a "010"); [by eapply Hsep|].
    destruct (Ascii.eqb a ",") eqn:EC; [by eapply Hsep|].
    destruct (Ascii.eqb a "013").
    { destruct rest as [|d rest']; [by eapply Hsep|].
      destruct (Ascii.eqb d "010") eqn:ED; [|by eapply Hsep].
      destruct Hp as [<-|Hp]; [done|].
      apply (IH false piece); [|done].
      cbn [splitUrls andb]. rewrite ED. by right. }
    destruct (Js.isWhiteSpace a) eqn:EW; [by eapply Hsep|].
    destruct (splitUrls_cons false rest) as (p & ps & E). rewrite E in Hp.
    destruct Hp as [<-|Hp].
    + destruct Hc as [<-|Hc].
      * unfold isBlankOrComma. by rewrite EW, EC.
      * apply (IH false p); [rewrite E; by left | done].
    + apply (IH false piece); [rewrite E; by right | done].
Qed.

Lemma trim_plain (p : string) :
  (forall c, In c (chars p) -> Js.isWhiteSpace c = false) -> Js.trim p = p.
Proof.
  intros H. unfold Js.trim. rewrite trimStart_fixed.
  - apply trimEnd_fixed. intros front c ->. apply H.
    rewrite chars_app, in_app_iff. right. by left.
  - intros c rest ->. apply H. by left.
Qed.

Lemma splitUrls_words (s : string) :
  List.filter (fun piece => negb (Js.isEmpty piece)) (splitUrls false s)
  = words s.
Proof.
  unfold words. destruct (splitUrls_fields s) as [[Hh Ht] _].
  destruct (splitUrls_cons false s) as (p & ps & E).
  destruct (fields_cons isBlankOrComma s) as (q & qs & F).
  rewrite E, F in *. simpl in Hh, Ht. simpl. by rewrite Hh, Ht.
Qed.

(** A word holds neither white space nor a comma, and is not empty. *)
Lemma words_plain (s word : string) :
  word ∈ words s ->
  word <> EmptyString
  /\ forall c, In c (chars word) -> isBlankOrComma c = false.
Proof.
  rewrite <- splitUrls_words. intros [Hin Hne]%elem_of_filter_bool.
  split; [by intros ->|]. intros c Hc.
  apply list_elem_of_In in Hin. by eapply splitUrls_plain.
Qed.

Lemma isBlankOrComma_space (c : ascii) :
  isBlankOrComma c = false -> Js.isWhiteSpace c = false.
Proof. unfold isBlankOrComma. by intros [? _]%orb_false_iff. Qed.

(** [parseUrlList] reads the words of its text. *)
Lemma parseUrlList_words (URL : string -> option ParsedUrl)
    (rawValue : string) :
  parseUrlList URL rawValue
  = omap id
      (List.filter isNonEmptyString
         (parseGithubUrl URL <$> words rawValue)).
Proof.
  unfold parseUrlList. do 3 f_equal.
  rewrite (fmap_fixed Js.trim).
  - rewrite <- splitUrls_words. apply filter_ext. by intros [|? ?].
  - intros piece Hp. apply trim_plain. intros c Hc.
    by eapply isBlankOrComma_space, splitUrls_plain.
Qed.

(** The words on both sides of a separator. *)
Lemma fields_sep (a b : string) (c : ascii) :
  isBlankOrComma c = true ->
  hd EmptyString (fields isBlankOrComma (a +:+ String c b))
  = hd EmptyString (fields isBlankOrComma a)
  /\ List.filter (fun piece => negb (Js.isEmpty piece))
       (tl (fields isBlankOrComma (a +:+ String c b)))
     = List.filter (fun piece => negb (Js.isEmpty piece))
         (tl (fields isBlankOrComma a))
       ++ words b.
Proof.
  intros Hc. induction a as [|d a [IHh IHt]].
  - rewrite append_nil_l. simpl. by rewrite Hc.
  - rewrite append_cons. cbn [fields].
    destruct (fields_cons isBlankOrComma (a +:+ String c b))
      as (p & ps & E).
    destruct (fields_cons isBlankOrComma a) as (q & qs & F).
    rewrite E, F in *. simpl in IHh, IHt.
    destruct (isBlankOrComma d); simpl; [|by subst p].
    split; [done|]. rewrite IHh, IHt. by destruct (Js.isEmpty q).
Qed.

Lemma words_sep_char (a b : string) (c : ascii) :
  isBlankOrComma c = true ->
  words (a +:+ String c b) = words a ++ words b.
Proof.
  intros Hc. destruct (fields_sep a b c Hc) as [Hh Ht]. unfold words in *.
  destruct (fields_cons isBlankOrComma (a +:+ String c b)) as (p & ps & E).
  destruct (fields_cons isBlankOrComma a) as (q & qs & F).
  rewrite E, F in *. simpl in Hh, Ht. simpl. rewrite Hh, Ht.
  by destruct (Js.isEmpty q).
Qed.

Lemma words_skip (sep b : string) :
  (forall c, In c (chars sep) -> isBlankOrComma c = true) ->
  words (sep +:+ b) = words b.
Proof.
  induction sep as [|c sep IH]; intros H; [by rewrite append_nil_l|].
  rewrite append_cons.
  change (String c (sep +:+ b)) with (EmptyString +:+ String c (sep +:+ b)).
  rewrite words_sep_char by (apply H; by left).
  apply IH. intros d Hd. apply H. by right.
Qed.

Lemma words_sep (a sep b : string) :
  sep <> EmptyString ->
  (forall c, In c (chars sep) -> isBlankOrComma c = true) ->
  words (a +:+ sep +:+ b) = words a ++ words b.
Proof.
  intros Hne H. destruct sep as [|c sep]; [done|].
  rewrite append_cons, words_sep_char by (apply H; by left).
  f_equal. apply words_skip. intros d Hd. apply H. by right.
Qed.

Lemma wholeFold (host w : string) :
  Js.startsWithFold host w && (String.length host =? String.length w)%nat
  = true
  <-> foldCase host = w.
Proof.
  revert host. induction w as [|b w IH]; intros [|a host]; simpl;
    try (split; congruence).
  rewrite <- andb_assoc, andb_true_iff, IH, Ascii.eqb_eq. split.
  - by intros [-> ->].
  - by intros [= -> ->].
Qed.

Lemma isGithubHost_spec (host : string) :
  isGithubHost host = true
  <-> foldCase host = "github.com" \/ foldCase host = "www.github.com".
Proof.
  unfold isGithubHost. cbv zeta. by rewrite orb_true_iff, !wholeFold.
Qed.

(** [parseGithubUrl] on a word. *)
Lemma parseGithubUrl_word (URL : string -> option ParsedUrl) (s word : string) :
  word ∈ words s ->
  parseGithubUrl URL word
  = match URL (withProtocol word) with
    | Some parsed =>
        if isGithubHost (hostname parsed) then Some (withoutHash parsed)
        else None
    | None => None
    end.
Proof.
  intros [Hne Hplain]%words_plain. unfold parseGithubUrl. cbv zeta.
  rewrite trim_plain by (intros c Hc; by apply isBlankOrComma_space, Hplain).
  by destruct word.
Qed.

(** X20. [parseUrlList] takes the words of the text, that is its maximal
    runs of characters that are neither white space nor commas, and keeps,
    in their order, what [parseGithubUrl] returns for the words it accepts:
    a URL is in the list exactly when it is the non-empty text that the
    [URL] constructor gives, without its hash, for a word that is given the
    prefix [https://] unless it starts with [http://] or [https://], and
    whose host is [github.com] or [www.github.com], case apart.  The list of
    a text cut by a separator made of white space and commas is the list of
    the part before followed by the list of the part after. *)
Theorem parseUrlList_spec (URL : string -> option ParsedUrl)
    (rawValue : string) :
  (forall word,
     word ∈ words rawValue ->
     word <> EmptyString
     /\ forall c, In c (chars word) -> isBlankOrComma c = false)
  /\ parseUrlList URL rawValue
     = omap id
         (List.filter isNonEmptyString
            (parseGithubUrl URL <$> words rawValue))
  /\ (forall u,
        u ∈ parseUrlList URL rawValue
        <-> exists word parsed,
              word ∈ words rawValue
              /\ URL (withProtocol word) = Some parsed
              /\ (foldCase (hostname parsed) = "github.com"
                  \/ foldCase (hostname parsed) = "www.github.com")
              /\ withoutHash parsed = u
              /\ u <> EmptyString)
  /\ (forall before sep after,
        rawValue = before +:+ sep +:+ after ->
        sep <> EmptyString ->
        (forall c, In c (chars sep) -> isBlankOrComma c = true) ->
        parseUrlList URL rawValue
        = parseUrlList URL before ++ parseUrlList URL after).
Proof.
  split; [apply words_plain|]. split; [apply parseUrlList_words|]. split.
  - intros u. rewrite parseUrlList_words, list_elem_of_omap. split.
    + intros (v & [Hv Hsome]%elem_of_filter_bool & E). simpl in E. subst v.
      apply list_elem_of_fmap in Hv as (word & Hu & Hword).
      rewrite (parseGithubUrl_word URL rawValue word Hword) in Hu.
      destruct (URL (withProtocol word)) as [parsed|] eqn:Eurl; [|done].
      destruct (isGithubHost (hostname parsed)) eqn:Ehost; [|done].
      injection Hu as Hu. exists word, parsed.
      split; [done|]. split; [done|].
      split; [by apply isGithubHost_spec|]. split; [done|].
      intros ->. done.
    + intros (word & parsed & Hword & Eurl & Ehost & <- & Hne).
      exists (Some (withoutHash parsed)). split; [|done].
      apply elem_of_filter_bool. split.
      * apply list_elem_of_fmap. exists word. split; [|done].
        rewrite (parseGithubUrl_word URL rawValue word Hword), Eurl.
        apply isGithubHost_spec in Ehost. by rewrite Ehost.
      * simpl. by destruct (withoutHash parsed).
  - intros before sep after -> Hne Hsep.
    rewrite !parseUrlList_words, words_sep by done.
    by rewrite fmap_app, List.filter_app, omap_app.
Qed.

Example parseUrlList_example :
  parseUrlList sampleURL
    (String "010"
       ("https://github.com/octo/demo, github.com/octo/docs"
        +:+ String "013" (String "010" "  ftp://example.org/x")))
  = ["https://github.com/octo/demo"; "https://github.com/octo/docs"].
Proof. vm_compute. reflexivity. Qed.

(** ** The filter of a queued job *)

Lemma string_snoc (s : string) :
  s <> EmptyString -> exists front c, s = front +:+ String c EmptyString.
Proof.
  induction s as [|a s IH]; [done|]. intros _. destruct s as [|b s].
  - by exists EmptyString, a.
  - destruct IH as (front & c & E); [done|].
    exists (String a front), c. by rewrite append_cons, <- E.
Qed.

(** Joined extensions start and end as extensions do. *)
Lemma join_ends (l : list string) :
  l <> [] ->
  (forall e, In e l ->
     e <> EmptyString
     /\ (forall c rest, e = String c rest -> Js.isWhiteSpace c = false)
     /\ (forall front c, e = front +:+ String c EmptyString ->
                         Js.isWhiteSpace c = false)) ->
  join "," l <> EmptyString
  /\ (forall c rest, join "," l = String c rest -> Js.isWhiteSpace c = false)
  /\ (forall front c, join "," l = front +:+ String c EmptyString ->
                      Js.isWhiteSpace c = false).
Proof.
  induction l as [|e l IH]; intros Hne H; [done|].
  destruct (H e) as (He & Hhead & Hlast); [by left|].
  destruct l as [|e' l]; [done|].
  destruct IH as (HJ & _ & HJlast); [done | intros x Hx; apply H; by right|].
  set (J := join "," (e' :: l)) in *.
  change (join "," (e :: e' :: l)) with (e +:+ "," +:+ J).
  rewrite append_cons, append_nil_l.
  destruct e as [|c0 r0]; [done|]. rewrite append_cons.
  split; [done|]. split.
  - intros c rest [= <- _]. by eapply Hhead.
  - intros front c E.
    destruct (string_snoc J HJ) as (front' & c' & EJ).
    rewrite EJ in E.
    change (String c0 (r0 +:+ String "," (front' +:+ String c' EmptyString)))
      with (String c0 r0 +:+ String "," EmptyString
              +:+ (front' +:+ String c' EmptyString)) in E.
    rewrite <- !append_assoc_s in E. apply last_char_unique in E.
    subst c'. by apply (HJlast front').
Qed.

Lemma formItems_urls (urls : list string) (app : App) :
  item_url <$> formItems urls app = urls.
Proof.
  unfold formItems. cbv zeta. rewrite <- list_fmap_compose.
  by apply fmap_fixed.
Qed.

(** X21. The items that the form pushes on the queue carry the URLs in their
    order.  A job queued while the filter field was blank filters with what
    [parseFilter] reads from the field when the job runs; a job queued with
    a filter typed in splits that text, trimmed, at the commas and uses the
    pieces as they are.  When the field held a filter in the form in which
    [parseFilter] writes it, these pieces are the extensions that
    [parseFilter] reads from the field. *)
Theorem formItems_filter (urls : list string) (app app' : App) :
  item_url <$> formItems urls app = urls
  /\ forall item,
       item ∈ formItems urls app ->
       (Js.trim (filterInput app) = EmptyString ->
        jobFilter (item_filter item) app' = parseFilter (filterInput app'))
       /\ (Js.trim (filterInput app) <> EmptyString ->
           jobFilter (item_filter item) app'
           = Js.splitOn "," (Js.trim (filterInput app)))
       /\ (forall value,
             parseFilter value <> [] ->
             filterInput app = join "," (parseFilter value) ->
             jobFilter (item_filter item) app'
             = parseFilter (filterInput app)).
Proof.
  split; [apply formItems_urls|].
  intros item Hitem. unfold formItems in Hitem. cbv zeta in Hitem.
  apply list_elem_of_fmap in Hitem as (url & -> & _).
  cbn [item_filter]. unfold jobFilter, orUndefined.
  assert (Hsome : Js.trim (filterInput app) <> EmptyString ->
            match
              (if Js.isEmpty (Js.trim (filterInput app)) then None
               else Some (Js.trim (filterInput app)))
            with
            | Some text =>
                if Js.isEmpty text then parseFilter (filterInput app')
                else Js.splitOn "," text
            | None => parseFilter (filterInput app')
            end
            = Js.splitOn "," (Js.trim (filterInput app))).
  { intros Hne. by destruct (Js.trim (filterInput app)). }
  split; [by intros ->|]. split; [exact Hsome|].
  intros value Hne Hfield.
  assert (Hshape : forall e, In e (parseFilter value) ->
            e <> EmptyString
            /\ (forall c rest, e = String c rest -> Js.isWhiteSpace c = false)
            /\ (forall front c, e = front +:+ String c EmptyString ->
                                Js.isWhiteSpace c = false)).
  { intros e He. split; [by apply (parseFilter_nonempty value)|].
    by destruct (parseFilter_shape value e He) as (_ & ? & ?). }
  destruct (join_ends (parseFilter value) Hne Hshape)
    as (HJ & Hhead & Hlast).
  assert (Htrim : Js.trim (filterInput app) = filterInput app).
  { rewrite Hfield. unfold Js.trim.
    by rewrite trimStart_fixed, trimEnd_fixed. }
  rewrite Hsome by (by rewrite Htrim, Hfield).
  rewrite Htrim, Hfield.
  assert (Hsplit : Js.splitOn "," (join "," (parseFilter value))
                   = parseFilter value).
  { apply splitOn_join; [done|]. intros p Hp.
    by destruct (parseFilter_shape value p Hp) as (? & _). }
  rewrite Hsplit. unfold parseFilter at 2. rewrite Hsplit.
  assert (Hnorm : forall e, In e (parseFilter value) -> normalizedExtension e).
  { intros x Hx. apply list_elem_of_In in Hx.
    by apply (proj1 (Forall_forall _ _) (parseFilter_normalized value)). }
  rewrite (fmap_fixed (fun v => Js.toLowerCase (Js.trim v))).
  2: { intros x Hx. destruct (Hshape x Hx) as (_ & Hh & Hl).
       unfold Js.trim. rewrite trimStart_fixed, trimEnd_fixed by done.
       by apply Hnorm. }
  rewrite filter_all.
  2: { intros x Hx. apply negb_true_iff.
       destruct (Js.isEmpty x) eqn:E; [|done]. apply isEmpty_true in E.
       by destruct (Hshape x Hx) as (? & _). }
  symmetry. apply fmap_fixed. intros x Hx. by rewrite (proj2 (Hnorm x Hx)).
Qed.

(** ** Submitting the form *)

(** X22. Submitting the form on a page whose loop is not running, while no
    handler pushes on the queue or empties it: when the text holds no valid
    URL nothing changes; otherwise the jobs that were waiting are started,
    then one job for each URL of the text, in the order of the text, each
    exactly once, and the loop ends with an empty queue. *)
Theorem submit_serves (URL : string -> option ParsedUrl) (urlText : string)
    (worlds : list JobWorld) (app : App) :
  isProcessingQueue app = false ->
  Forall (fun w => forallb keepsQueue (interrupts w) = true) worlds ->
  Forall (fun w => pushedDuring w = []) worlds ->
  (length (queue app) + length (parseUrlList URL urlText)
   <= length worlds)%nat ->
  let final := submit URL urlText worlds app in
  (parseUrlList URL urlText = [] -> final = app)
  /\ (parseUrlList URL urlText <> [] ->
      started final
      = started app ++ queue app
        ++ formItems (parseUrlList URL urlText) app
      /\ item_url <$> drop (length (started app ++ queue app))
                        (started final)
         = parseUrlList URL urlText
      /\ queue final = []
      /\ isProcessingQueue final = false).
Proof.
  intros Hidle Hok Hquiet Henough final. subst final. unfold submit.
  cbv zeta. set (urls := parseUrlList URL urlText) in *.
  destruct (length urls =? 0)%nat eqn:E.
  { apply length_eqb_0 in E. by rewrite E. }
  split; [intros H; rewrite H in E; done|]. intros _.
  unfold processQueue.
  change (isProcessingQueue (setQueue _ app)) with (isProcessingQueue app).
  rewrite Hidle.
  set (app1 := setProcessing true
                 (setQueue (queue app ++ formItems urls app) app)).
  assert (Hlen : (length (queue app1) <= length worlds)%nat).
  { subst app1. cbn [setProcessing setQueue queue].
    rewrite length_app. unfold formItems. cbv zeta.
    rewrite length_fmap. lia. }
  destruct (processLoop_serves worlds app1 Hok Hquiet Hlen)
    as (Hstarted & Hqueue & Hproc).
  change (started app1) with (started app) in Hstarted.
  change (queue app1) with (queue app ++ formItems urls app) in Hstarted.
  split; [by rewrite Hstarted|]. split; [|done].
  rewrite Hstarted, app_assoc, drop_app_length.
  apply formItems_urls.
Qed.

(** The theorem on one URL typed without its protocol. *)
Lemma submit_serves_witness :
  queue
    (submit sampleURL "github.com/octo/demo/tree/main/src" [calmWorld]
       (setQueue [] idleApp))
  = []
  /\ isProcessingQueue
       (submit sampleURL "github.com/octo/demo/tree/main/src" [calmWorld]
          (setQueue [] idleApp))
     = false.
Proof.
  assert (Hok : Forall (fun w => forallb keepsQueue (interrupts w) = true)
                  [calmWorld]) by (repeat constructor).
  assert (Hquiet : Forall (fun w => pushedDuring w = []) [calmWorld])
    by (repeat constructor).
  assert (Hlen : (length (queue (setQueue [] idleApp))
                  + length (parseUrlList sampleURL
                              "github.com/octo/demo/tree/main/src")
                  <= length [calmWorld])%nat) by (vm_compute; lia).
  assert (Hsome : parseUrlList sampleURL "github.com/octo/demo/tree/main/src"
                  <> []) by (vm_compute; discriminate).
  destruct (proj2 (submit_serves sampleURL
                     "github.com/octo/demo/tree/main/src" [calmWorld]
                     (setQueue [] idleApp) eq_refl Hok Hquiet Hlen) Hsome)
    as (_ & _ & Hq & Hp).
  split; [exact Hq | exact Hp].
Defined.

(** ** Escape and the errors of a job *)







(** ** Private repositories *)

Lemma handleThrown_token (c : option bool) (e : Thrown) :
  handleThrown c e <> NeedsToken.
Proof.
  unfold handleThrown. destruct (_ || _); [done|].
  destruct e as [|message|]; try done.
  destruct (String.eqb message "Invalid token"); [done|].
  by destruct (String.eqb message "Rate limit exceeded").
Qed.

Lemma tryBlock_token w url item app :
  (exists a, snd (tryBlock w url item app) = Done NeedsToken a)
  <-> resolvesPrivate w = true /\ tokenStored (localStorage app) = false.
Proof.
  unfold tryBlock, resolvesPrivate.
  destruct (resolution w) as [[error|u r g p d|u r g d p]|e]; cbn [snd].
  - split; [by intros [? [=]] | by intros [[=] _]].
  - cbn [localStorage setStorage]. rewrite tokenStored_push.
    destruct p; cbn [andb].
    + destruct (tokenStored (localStorage app)); cbn [negb].
      * split; [|by intros [_ [=]]]. unfold downloadFullRepository.
        destruct (archiveFetch w); by intros [? [=]].
      * split; [done | by eexists].
    + split; [by intros [? [=]] | by intros [[=] _]].
  - cbn [localStorage setStorage]. rewrite tokenStored_push.
    destruct p; cbn [andb].
    + destruct (tokenStored (localStorage app)); cbn [negb].
      * split; [|by intros [_ [=]]]. cbn [snd].
        destruct (completion _); by intros [? [=]].
      * split; [done | by eexists].
    + split; [|by intros [[=] _]]. cbn [snd].
      destruct (completion _); by intros [? [=]].
  - split; [by intros [? [=]] | by intros [[=] _]].
Qed.

Lemma deliver_token (events : list UiEvent) (app : App) :
  forallb (fun e => negb (writesToken e)) events = true ->
  localStorage (deliver events app) !! tokenStorageKey
  = localStorage app !! tokenStorageKey.
Proof.
  revert app. induction events as [|e events IH]; intros app H; [done|].
  simpl in H. apply andb_true_iff in H as [He H].
  rewrite deliver_cons, IH by done. destruct e; try done.
  cbn [handleEvent setStorage localStorage]. unfold writeRecentUrls.
  by rewrite lookup_insert_ne.
Qed.

Lemma tokenStored_lookup (storage storage' : gmap string StoredText) :
  storage' !! tokenStorageKey = storage !! tokenStorageKey ->
  tokenStored storage' = tokenStored storage.
Proof. intros H. unfold tokenStored. by rewrite H. Qed.

Lemma writesToken_cancel (events : list UiEvent) :
  forallb (fun e => negb (writesToken e)) events = true ->
  ~ In ClickCancel events.
Proof.
  intros H Hin. apply (proj1 (forallb_forall _ _) H) in Hin. done.
Qed.

(** X24. A job that reaches its [try] block, while no handler writes the
    stored token (no Cancel or Clear-all click, no input in the token
    field), ends on the request for a token exactly when the repository or
    directory it resolves to is private and no token is stored; it has then
    saved nothing.  The token is stored at the end of the job exactly when
    it was at the start. *)
Theorem needs_token (w : JobWorld) (item : QueueItem) (app : App) :
  suspends w = true ->
  forallb (fun e => negb (writesToken e)) (interrupts w) = true ->
  let after := runDownload w item app in
  exists r,
    last (history after) = Some r
    /\ (ending r = NeedsToken
        <-> resolvesPrivate w = true
            /\ tokenStored (localStorage app) = false)
    /\ (ending r = NeedsToken -> artifact r = None)
    /\ tokenStored (localStorage after) = tokenStored (localStorage app).
Proof.
  intros Hsus Hquiet after. subst after.
  unfold suspends in Hsus. unfold runDownload.
  destruct (normalizedUrl w) as [url|]; [|done].
  apply andb_true_iff in Hsus as [Hb Ho]. apply negb_true_iff in Hb.
  rewrite Hb, Ho. cbn [negb].
  pose proof (tryBlock_token w url item (setController (Some false) app))
    as Ht.
  pose proof (tryBlock_artifact w url item (setController (Some false) app))
    as Ha.
  pose proof (tryBlock_storage w url item (setController (Some false) app))
    as Hs.
  change (localStorage (setController (Some false) app))
    with (localStorage app) in Ht, Hs.
  destruct (tryBlock w url item (setController (Some false) app))
    as [app1 result].
  cbn [fst snd] in *.
  assert (Hkept : forall r : JobRecord,
            tokenStored
              (localStorage
                 (setController None
                    (addRecord r (deliver (interrupts w) app1))))
            = tokenStored (localStorage app)).
  { intros r. cbn [setController addRecord localStorage].
    apply tokenStored_lookup. rewrite deliver_token, Hs by done.
    destruct (resolves w); [|done]. by apply pushRecentUrl_other. }
  destruct result as [e a|e];
    (eexists; split; [cbn; by rewrite last_snoc|]); cbn [ending artifact].
  - split; [|split; [|apply Hkept]].
    + rewrite <- Ht. split; [intros ->; by eexists | by intros [? [= ->]]].
    + intros ->. destruct a as [a|]; [|done]. by specialize (Ha _ _ eq_refl).
  - split; [|split; [done | apply Hkept]]. rewrite <- Ht. split.
    + intros H. by apply handleThrown_token in H.
    + by intros [? [=]].
Qed.

(** The theorem on a private directory met without a stored token, while
    Escape is pressed and the recent URLs are cleared. *)
Lemma needs_token_witness :
  ending <$> last (history (runDownload privateWorld jobOne idleApp))
  = Some NeedsToken.
Proof.
  destruct (needs_token privateWorld jobOne idleApp eq_refl eq_refl)
    as (r & Hlast & Hiff & _).
  rewrite Hlast. simpl. f_equal. apply Hiff. split; reflexivity.
Defined.

(** ** The default name of the archive *)

Lemma join_chars (sep : string) (parts : list string) (c : ascii) :
  In c (chars (join sep parts)) ->
  In c (chars sep) \/ exists part, In part parts /\ In c (chars part).
Proof.
  induction parts as [|part parts IH]; [done|].
  destruct parts as [|part' parts].
  - intros H. right. exists part. split; [by left | done].
  - change (join sep (part :: part' :: parts))
      with (part +:+ sep +:+ join sep (part' :: parts)).
    rewrite !chars_app, !in_app_iff. intros [H|[H|H]].
    + right. exists part. split; [by left | done].
    + by left.
    + destruct (IH H) as [?|(p & Hp & ?)]; [by left|].
      right. exists p. split; [by right | done].
Qed.

Lemma join_nonempty (sep : string) (c : ascii) (u : string)
    (rest : list string) :
  join sep (String c u :: rest) <> EmptyString.
Proof. destruct rest; cbn [join]; [done | by rewrite append_cons]. Qed.

Lemma sanitizeFilename_plain (name : string) :
  isPlain name -> sanitizeFilename name = name.
Proof.
  intros H. unfold sanitizeFilename.
  rewrite (replaceRuns_none isForbidden) by (intros c Hc; by apply H).
  rewrite (replaceRuns_none Js.isWhiteSpace) by (intros c Hc; by apply H).
  apply trim_plain. intros c Hc. by apply H.
Qed.

(** X25. When the user, the repository, the reference and the directory hold
    no character that [sanitizeFilename] replaces and no white space, the
    default name is these parts joined with dashes, [root] standing for an
    empty directory and an empty part being left out; with a blank file name
    field the archive is saved under that name followed by [.zip], unless
    the name ends with [.zip] already. *)
Theorem default_archive_name (opts : Options) (form : Form) (s : Session) :
  isPlain (user opts) -> isPlain (repository opts) ->
  isPlain (gitReference opts) -> isPlain (directory opts) ->
  user opts <> EmptyString ->
  let parts :=
    List.filter (fun part => negb (Js.isEmpty part))
      [user opts; repository opts; gitReference opts;
       if Js.isEmpty (directory opts) then "root" else directory opts] in
  let name := join "-" parts in
  buildDefaultFilename (user opts) (repository opts)
    (Some (gitReference opts)) (directory opts) = name
  /\ (Js.trim (filenameField form) = EmptyString ->
      fst (saveArchive opts form s)
      = if Js.endsWith name ".zip" then name else name +:+ ".zip").
Proof.
  intros Hu Hr Hg Hd Hne parts name.
  assert (Hroot : isPlain "root").
  { intros c Hc. simpl in Hc. repeat (destruct Hc as [<-|Hc]; [done|]).
    done. }
  assert (Hparts : forall part, In part parts -> isPlain part).
  { intros part Hp. subst parts. apply filter_In in Hp as [Hp _].
    simpl in Hp. destruct Hp as [<-|[<-|[<-|[<-|[]]]]]; try done.
    by destruct (Js.isEmpty (directory opts)). }
  assert (Hname : isPlain name).
  { intros c Hc. subst name. apply join_chars in Hc as [Hc|(p & Hp & Hc)].
    - simpl in Hc. destruct Hc as [<-|[]]. done.
    - by apply (Hparts p). }
  assert (Hdefault : buildDefaultFilename (user opts) (repository opts)
                       (Some (gitReference opts)) (directory opts) = name).
  { unfold buildDefaultFilename. cbv zeta. by apply sanitizeFilename_plain. }
  split; [exact Hdefault|]. intros Hblank.
  unfold saveArchive. cbv zeta. cbn [fst]. rewrite Hblank. cbn [Js.isEmpty].
  rewrite Hdefault. unfold ensureZipFilename. cbv zeta.
  rewrite (sanitizeFilename_plain name Hname).
  assert (Hsome : name <> EmptyString).
  { assert (E : parts
                = user opts
                  :: List.filter (fun part => negb (Js.isEmpty part))
                       [repository opts; gitReference opts;
                        if Js.isEmpty (directory opts) then "root"
                        else directory opts]).
    { subst parts. by destruct (user opts). }
    subst name. rewrite E. destruct (user opts) as [|c u]; [done|].
    apply join_nonempty. }
  rewrite isEmpty_length. destruct name; [done|]. done.
Qed.

(** The theorem on the job of the examples. *)
Lemma default_archive_name_witness :
  fst (saveArchive plainOptions plainForm resetSession)
  = "octo-demo-main-docs.zip".
Proof.
  assert (Hplain : forall s,
            forallb (fun c => negb (isForbidden c || Js.isWhiteSpace c))
              (chars s) = true ->
            isPlain s).
  { intros s H c Hc.
    apply (proj1 (forallb_forall _ _) H) in Hc.
    apply negb_true_iff, orb_false_iff in Hc. done. }
  apply (proj2 (default_archive_name plainOptions plainForm resetSession
                  (Hplain "octo" eq_refl) (Hplain "demo" eq_refl)
                  (Hplain "main" eq_refl) (Hplain "docs" eq_refl)
                  ltac:(discriminate))).
  reflexivity.
Defined.

(** ** Whole repositories *)

Lemma deliver_stats (events : list UiEvent) (app : App) :
  ~ In ClickCancel events -> stats (deliver events app) = stats app.
Proof.
  revert app. induction events as [|e events IH]; intros app H; [done|].
  rewrite deliver_cons, IH by (intros ?; apply H; by right).
  destruct e; try done. exfalso. apply H. by left.
Qed.

Lemma handleThrown_finished (c : option bool) (e : Thrown) :
  handleThrown c e <> Finished.
Proof.
  unfold handleThrown. destruct (_ || _); [done|].
  destruct e as [|message|]; try done.
  destruct (String.eqb message "Invalid token"); [done|].
  by destruct (String.eqb message "Rate limit exceeded").
Qed.

Lemma http_message (rest : string) :
  String.eqb ("HTTP " +:+ rest) "Invalid token" = false
  /\ String.eqb ("HTTP " +:+ rest) "Rate limit exceeded" = false.
Proof. rewrite append_cons. split; reflexivity. Qed.

Lemma applyFilenameOverride_controller (override : option string)
    (app : App) :
  controller (applyFilenameOverride override app) = controller app.
Proof. by destruct override as [[|? ?]|]. Qed.

Lemma applyFilenameOverride_storage (override : option string) (app : App) :
  localStorage (applyFilenameOverride override app) = localStorage app.
Proof. by destruct override as [[|? ?]|]. Qed.

(** X26. A job on a whole repository, with a token stored when the
    repository is private, while no handler writes the stored token (no
    Cancel or Clear-all click, no input in the token field).  For a public
    repository nothing is fetched: the job finishes by sending the browser to
    the archive URL, whatever the file name field holds.  For a private one
    the archive is requested: the blob that comes back is saved under a
    sanitized name ending in [.zip]; an answer that is not ok saves nothing
    and, when no handler runs at all, ends on the report of its HTTP status.
    A job that finished shows one file out of one. *)
Theorem whole_repository (w : JobWorld) (item : QueueItem) (app : App)
    (user repository : string) (gitReference : option string)
    (isPrivate : bool) (downloadUrl : string) :
  suspends w = true ->
  resolution w
  = Resolved
      (InfoRepository user repository gitReference isPrivate downloadUrl) ->
  (isPrivate = true -> tokenStored (localStorage app) = true) ->
  forallb (fun e => negb (writesToken e)) (interrupts w) = true ->
  let after := runDownload w item app in
  exists r,
    last (history after) = Some r
    /\ (isPrivate = false ->
        ending r = Finished /\ artifact r = Some (Navigated downloadUrl))
    /\ (isPrivate = true ->
        match archiveFetch w with
        | ArchiveOk blob =>
            ending r = Finished
            /\ exists name,
                 artifact r = Some (BlobSaved name blob)
                 /\ tidyName name
                 /\ exists stem, name = stem +:+ ".zip"
        | ArchiveNotOk statusText =>
            artifact r = None
            /\ (interrupts w = [] ->
                ending r
                = ErrorShown
                    ("HTTP " +:+ statusText +:+ " while downloading archive"))
        | ArchiveThrew _ => artifact r = None
        end)
    /\ (ending r = Finished ->
        totalFiles (stats after) = 1 /\ downloadedFiles (stats after) = 1)
    /\ tokenStored (localStorage after) = tokenStored (localStorage app).
Proof.
  intros Hsus Hres Htoken Hquiet after. subst after.
  pose proof (writesToken_cancel _ Hquiet) as Hcancel.
  unfold suspends in Hsus. unfold runDownload.
  destruct (normalizedUrl w) as [url|]; [|done].
  apply andb_true_iff in Hsus as [Hb Ho]. apply negb_true_iff in Hb.
  rewrite Hb, Ho. cbn [negb]. unfold tryBlock. rewrite Hres.
  cbn [localStorage setStorage setController].
  rewrite tokenStored_push.
  assert (Hgate : isPrivate && negb (tokenStored (localStorage app)) = false).
  { destruct isPrivate; [|done]. by rewrite Htoken. }
  rewrite Hgate. unfold downloadFullRepository.
  set (app0 := applyFilenameOverride (item_filename item) _).
  set (zipName := ensureZipFilename _).
  destruct (ensureZipFilename_tidy
              (if Js.isEmpty (Js.trim (filenameInput app0))
               then buildDefaultFilename user repository gitReference
                      EmptyString
               else Js.trim (filenameInput app0)))
    as (Htidy & _ & Hzip).
  fold zipName in Htidy, Hzip.
  assert (Hstats : forall app1 : App,
            stats (deliver (interrupts w)
                     (setStats (setTotals (stats app0) 1 1) app1))
            = setTotals (stats app0) 1 1).
  { intros app1. by rewrite deliver_stats. }
  assert (Hstore : localStorage app0 !! tokenStorageKey
                   = localStorage app !! tokenStorageKey).
  { subst app0.
    rewrite applyFilenameOverride_storage.
    cbn [localStorage setStorage]. by apply pushRecentUrl_other. }
  assert (Hkept : forall (r : JobRecord) (app1 : App),
            localStorage app1 = localStorage app0 ->
            tokenStored
              (localStorage
                 (setController None
                    (addRecord r (deliver (interrupts w) app1))))
            = tokenStored (localStorage app)).
  { intros r app1 E. cbn [setController addRecord localStorage].
    apply tokenStored_lookup. by rewrite deliver_token, E. }
  destruct isPrivate.
  - destruct (archiveFetch w) as [blob|statusText|e];
      (eexists; split; [cbn; by rewrite last_snoc|]);
      cbn [ending artifact]; (split; [done|]).
    + split; [intros _; split; [done | by exists zipName]|].
      split; [|by apply Hkept].
      intros _. cbn [stats setController addRecord]. by rewrite Hstats.
    + split; [|split; [|by apply Hkept]].
      * intros _. split; [done|]. intros Hnone. rewrite Hnone.
        cbn [deliver fold_left controller setController].
        unfold handleThrown. subst app0.
        rewrite applyFilenameOverride_controller.
        cbn [controller setStorage setController orb].
        destruct (http_message (statusText +:+ " while downloading archive"))
          as [-> ->].
        done.
      * intros Hend. exfalso. revert Hend. apply handleThrown_finished.
    + split; [done|]. split; [|by apply Hkept].
      intros Hend. exfalso. revert Hend. apply handleThrown_finished.
  - eexists. split; [cbn; by rewrite last_snoc|]. cbn [ending artifact].
    split; [done|]. split; [done|]. split; [|by apply Hkept].
    intros _. cbn [stats setController addRecord]. by rewrite Hstats.
Qed.

(** The theorem on a private repository met with a stored token, whose
    archive is saved, and on a public repository. *)
Lemma whole_repository_witness :
  (exists name,
     artifact <$> last (history (runDownload vaultWorld jobOne tokenApp))
     = Some (Some (BlobSaved name "archive")))
  /\ artifact
       <$> last (history (runDownload repositoryWorld jobOne idleApp))
     = Some
         (Some
            (Navigated "https://api.github.com/repos/octo/demo/zipball/main")).
Proof.
  assert (Hstored : true = true -> tokenStored (localStorage tokenApp) = true)
    by (intros _; vm_compute; reflexivity).
  assert (Hpublic : false = true -> tokenStored (localStorage idleApp) = true)
    by discriminate.
  split.
  - destruct (whole_repository vaultWorld jobOne tokenApp "octo" "vault"
                (Some "main") true
                "https://api.github.com/repos/octo/vault/zipball/main"
                eq_refl eq_refl Hstored eq_refl)
      as (r & Hlast & _ & Hprivate & _).
    destruct (Hprivate eq_refl) as (_ & name & Hart & _).
    exists name. rewrite Hlast. simpl. by rewrite Hart.
  - destruct (whole_repository repositoryWorld jobOne idleApp "octo" "demo"
                (Some "main") false
                "https://api.github.com/repos/octo/demo/zipball/main"
                eq_refl eq_refl Hpublic eq_refl)
      as (r & Hlast & Hpub & _).
    rewrite Hlast. simpl. f_equal. by apply Hpub.
Defined.

Example whole_repository_example :
  artifact <$> last (history (runDownload vaultWorld jobOne tokenApp))
  = Some (Some (BlobSaved "octo-vault-main-root.zip" "archive"))
  /\ queue (runDownload vaultWorld jobOne tokenApp) = [jobOne; jobTwo; jobTwo].
Proof. split; vm_compute; reflexivity. Qed.
